(** * A shallow embedding of the cache simulator [cachesim.py]

    The development follows the Python source class by class: [Block],
    [Set] (here [Set_], the name being reserved), [Cache] with its nested
    constant classes [PlacementType] and [WritePolicy], and the helper
    functions [read_trace_file] and [simulate_trace].

    Python integers are unbounded and signed, so every integer of the
    program is a [Z].  A Python exception is an explicit outcome: a
    constructor either yields an object or raises, and a method that
    mutates [self] yields the mutated object together with either its
    return value or the exception that interrupted it. *)

From Stdlib Require Import ZArith QArith Qround Qpower Lia Lqa Ascii.
From stdpp Require Import list strings.

Close Scope Q_scope.
Open Scope Z_scope.

(** ** Exceptions and outcomes *)

Inductive exn : Type :=
| RuntimeError (msg : string)
| ZeroDivisionError
| OverflowError
| ValueError
| TypeError
| IndexError.

Inductive result (A : Type) : Type :=
| Ok (a : A)
| Raise (e : exn).

Arguments Ok {A} a.
Arguments Raise {A} e.

(** ** Python primitives used by the simulator *)

(** [l[i]] for a Python list: a negative index counts from the end, and an
    index outside [-len, len) raises [IndexError] (here [None]). *)
Definition py_index {A : Type} (l : list A) (i : Z) : option nat :=
  let n := Z.of_nat (length l) in
  if (0 <=? i) && (i <? n) then Some (Z.to_nat i)
  else if (- n <=? i) && (i <? 0) then Some (Z.to_nat (n + i))
  else None.

(** [a // b] on integers: floor division, [ZeroDivisionError] at [b = 0]. *)
Definition py_floordiv (a b : Z) : result Z :=
  if b =? 0 then Raise ZeroDivisionError else Ok (a / b).

(** The integer nearest to [q], the even one of the two when [q] lies
    half way between them. *)
Definition round_half_even (q : Q) : Z :=
  let f := Qfloor q in
  match Qcompare (Qminus q (inject_Z f)) (1 # 2) with
  | Lt => f
  | Gt => f + 1
  | Eq => if Z.even f then f else f + 1
  end.

(** The floor of the binary logarithm of [n / d]: it is the difference of
    the two integer logarithms, or one less. *)
Definition floor_log2 (n d : positive) : Z :=
  let k := Z.log2 (Z.pos n) - Z.log2 (Z.pos d) in
  if Z.pos n * 2 ^ Z.max 0 (- k) <? Z.pos d * 2 ^ Z.max 0 k
  then k - 1 else k.

(** The double (IEEE 754 binary64) nearest to [n / d], as the rational it
    denotes: a multiple [m * 2^e] of the unit in the last place, where
    [n / d] has 53 significant bits above [2^e] and [e] is at least
    [-1074] (the subnormal numbers), [m] being rounded to nearest, ties
    to even.  The range of the exponent is not bounded above here. *)
Definition nearest_double_pos (n d : positive) : Q :=
  let e := Z.max (floor_log2 n d - 52) (-1074) in
  let m := round_half_even (Qmult (Z.pos n # d) (Qpower (inject_Z 2) (- e))) in
  Qmult (inject_Z m) (Qpower (inject_Z 2) e).

Definition nearest_double (q : Q) : Q :=
  match Qnum q with
  | Z0 => inject_Z 0
  | Z.pos n => nearest_double_pos n (Qden q)
  | Z.neg n => Qopp (nearest_double_pos n (Qden q))
  end.

(** [a / b] on integers: [ZeroDivisionError] at [b = 0]; otherwise the
    double nearest to the exact quotient (the division of two [int] is
    correctly rounded), and [OverflowError] when that is beyond the
    largest double. *)
Definition py_truediv (a b : Z) : result Q :=
  if b =? 0 then Raise ZeroDivisionError
  else
    let r := nearest_double (Qdiv (inject_Z a) (inject_Z b)) in
    if Qle_bool (inject_Z (2 ^ 1024)) r || Qle_bool r (inject_Z (- 2 ^ 1024))
    then Raise OverflowError
    else Ok r.

(** [int(np.log2(x))].  An [int] that fits neither [int64] nor [uint64]
    reaches [np.log2] as an object, which has no logarithm: [TypeError].
    [np.log2 0] is [-inf] and [int] of it raises [OverflowError];
    [np.log2] of a negative number is [nan] and [int] of it raises
    [ValueError]; otherwise the logarithm is truncated.  On powers of two
    (every size of the sweep) the double is exact, and it truncates to the
    floor of the logarithm for every size below [2^47]. *)
Definition int_log2 (x : Z) : result Z :=
  if (2 ^ 64 <=? x) || (x <? - 2 ^ 63) then Raise TypeError
  else if x =? 0 then Raise OverflowError
  else if x <? 0 then Raise ValueError
  else Ok (Z.log2 x).

(** ** class Block *)

Module Block.

Record t : Type := mk {
  size : Z;
  valid : bool;
  dirty : bool;
  tag : Z;
  data : list Z;
  last_used : Z
}.

(** [Block.__init__]: [[0] * size] is empty for a negative [size]. *)
Definition init (size : Z) : t :=
  {| size := size; valid := false; dirty := false; tag := 0;
     data := replicate (Z.to_nat size) 0; last_used := 0 |}.

Definition set_valid (v : bool) (b : t) : t :=
  {| size := size b; valid := v; dirty := dirty b; tag := tag b;
     data := data b; last_used := last_used b |}.

Definition set_dirty (v : bool) (b : t) : t :=
  {| size := size b; valid := valid b; dirty := v; tag := tag b;
     data := data b; last_used := last_used b |}.

Definition set_tag (v : Z) (b : t) : t :=
  {| size := size b; valid := valid b; dirty := dirty b; tag := v;
     data := data b; last_used := last_used b |}.

Definition set_last_used (v : Z) (b : t) : t :=
  {| size := size b; valid := valid b; dirty := dirty b; tag := tag b;
     data := data b; last_used := v |}.

End Block.

(** ** class Set *)

Module Set_.

Record t : Type := mk { lines : list Block.t }.

(** [Set.__init__]: [range(num_ways)] is empty for [num_ways <= 0]. *)
Definition init (num_ways block_size : Z) : t :=
  {| lines := replicate (Z.to_nat num_ways) (Block.init block_size) |}.

End Set_.

(** ** class Cache *)

Module Cache.

Module PlacementType.
Definition Direct_Mapped : Z := 0.
Definition Two_Way : Z := 1.
Definition Four_Way : Z := 2.
Definition Fully_Associative : Z := 3.
End PlacementType.

Module WritePolicy.
Definition WB : Z := 0.
Definition WT : Z := 1.
End WritePolicy.

Record t : Type := mk {
  cache_size : Z;
  block_size : Z;
  placement_type : Z;
  write_policy : Z;
  num_ways : Z;
  num_blocks : Z;
  num_sets : Z;
  offset_bits : Z;
  set_bits : Z;
  tag_shift : Z;
  sets : list Set_.t;
  total_requests : Z;
  total_hits : Z;
  bytes_to_cache : Z;
  bytes_to_memory : Z;
  access_count : Z
}.

(** Assignments to the attributes that [read] and [write] mutate. *)

Definition set_sets (v : list Set_.t) (c : t) : t :=
  mk (cache_size c) (block_size c) (placement_type c) (write_policy c)
     (num_ways c) (num_blocks c) (num_sets c) (offset_bits c) (set_bits c)
     (tag_shift c) v (total_requests c) (total_hits c)
     (bytes_to_cache c) (bytes_to_memory c) (access_count c).

Definition set_total_requests (v : Z) (c : t) : t :=
  mk (cache_size c) (block_size c) (placement_type c) (write_policy c)
     (num_ways c) (num_blocks c) (num_sets c) (offset_bits c) (set_bits c)
     (tag_shift c) (sets c) v (total_hits c)
     (bytes_to_cache c) (bytes_to_memory c) (access_count c).

Definition set_total_hits (v : Z) (c : t) : t :=
  mk (cache_size c) (block_size c) (placement_type c) (write_policy c)
     (num_ways c) (num_blocks c) (num_sets c) (offset_bits c) (set_bits c)
     (tag_shift c) (sets c) (total_requests c) v
     (bytes_to_cache c) (bytes_to_memory c) (access_count c).

Definition set_bytes_to_cache (v : Z) (c : t) : t :=
  mk (cache_size c) (block_size c) (placement_type c) (write_policy c)
     (num_ways c) (num_blocks c) (num_sets c) (offset_bits c) (set_bits c)
     (tag_shift c) (sets c) (total_requests c) (total_hits c)
     v (bytes_to_memory c) (access_count c).

Definition set_bytes_to_memory (v : Z) (c : t) : t :=
  mk (cache_size c) (block_size c) (placement_type c) (write_policy c)
     (num_ways c) (num_blocks c) (num_sets c) (offset_bits c) (set_bits c)
     (tag_shift c) (sets c) (total_requests c) (total_hits c)
     (bytes_to_cache c) v (access_count c).

Definition set_access_count (v : Z) (c : t) : t :=
  mk (cache_size c) (block_size c) (placement_type c) (write_policy c)
     (num_ways c) (num_blocks c) (num_sets c) (offset_bits c) (set_bits c)
     (tag_shift c) (sets c) (total_requests c) (total_hits c)
     (bytes_to_cache c) (bytes_to_memory c) v.

(** [self.sets[si].lines[wi].attr = v], through the update [f] of the
    block; both indices are already normalised and in range where the
    source performs the assignment. *)
Definition update_line (si wi : nat) (f : Block.t -> Block.t) (c : t) : t :=
  set_sets
    (alter (fun s => Set_.mk (alter f wi (Set_.lines s))) si (sets c)) c.

(** The [if]/[elif] chain of [__init__] that fixes [num_ways]. *)
Definition ways_of_placement (cache_size block_size placement_type : Z)
  : result Z :=
  if placement_type =? PlacementType.Direct_Mapped then Ok 1
  else if placement_type =? PlacementType.Two_Way then Ok 2
  else if placement_type =? PlacementType.Four_Way then Ok 4
  else if placement_type =? PlacementType.Fully_Associative
       then Ok (cache_size / block_size)
  else Raise (RuntimeError "Invalid placement type.").

(** [Cache.__init__].  The assignment [num_sets = 1] of the
    fully-associative branch is overwritten by the later
    [num_sets = num_blocks // num_ways], which is the one kept here. *)
Definition init (cache_size block_size write_policy placement_type : Z)
  : result t :=
  if block_size =? 0
  then Raise (RuntimeError "Block size must be greater than zero.")
  else if cache_size =? 0
  then Raise (RuntimeError "Cache size must be greater than zero.")
  else
    match ways_of_placement cache_size block_size placement_type with
    | Raise e => Raise e
    | Ok num_ways =>
      let num_blocks := cache_size / block_size in
      match py_floordiv num_blocks num_ways with
      | Raise e => Raise e
      | Ok num_sets =>
        match int_log2 block_size with
        | Raise e => Raise e
        | Ok offset_bits =>
          match (if placement_type =? PlacementType.Fully_Associative
                 then Ok 0 else int_log2 num_sets) with
          | Raise e => Raise e
          | Ok set_bits =>
            Ok {| cache_size := cache_size;
                  block_size := block_size;
                  placement_type := placement_type;
                  write_policy := write_policy;
                  num_ways := num_ways;
                  num_blocks := num_blocks;
                  num_sets := num_sets;
                  offset_bits := offset_bits;
                  set_bits := set_bits;
                  tag_shift := offset_bits + set_bits;
                  sets := replicate (Z.to_nat num_sets)
                                    (Set_.init num_ways block_size);
                  total_requests := 0;
                  total_hits := 0;
                  bytes_to_cache := 0;
                  bytes_to_memory := 0;
                  access_count := 0 |}
          end
        end
      end
    end.

(** *** Address decoding *)

Definition get_tag (c : t) (address : Z) : Z :=
  Z.shiftr address (tag_shift c).

Definition get_block_index (c : t) (address : Z) : Z :=
  if placement_type c =? PlacementType.Fully_Associative then 0
  else Z.land (Z.shiftr address (offset_bits c))
              (Z.shiftl 1 (set_bits c) - 1).

(** [address & self.block_size - 1]: the subtraction binds tighter. *)
Definition get_block_offset (c : t) (address : Z) : Z :=
  Z.land address (block_size c - 1).

(** *** Replacement policy *)

(** [x < min_used], where [min_used] starts as [float('inf')] ([None])
    and afterwards holds a [last_used] stamp. *)
Definition lt_min_used (x : Z) (min_used : option Z) : bool :=
  match min_used with
  | None => true
  | Some m => x <? m
  end.

(** The loop of [find_lru_block] over [enumerate(lines)], entered at
    index [i] with the current [min_used] and [min_index]. *)
Fixpoint lru_scan (lines : list Block.t) (i : nat)
         (min_used : option Z) (min_index : nat) : nat :=
  match lines with
  | [] => min_index
  | block :: rest =>
    if negb (Block.valid block) then i
    else if lt_min_used (Block.last_used block) min_used
         then lru_scan rest (S i) (Some (Block.last_used block)) i
         else lru_scan rest (S i) min_used min_index
  end.

Definition find_lru_block (c : t) (set_index : Z) : result nat :=
  match py_index (sets c) set_index with
  | None => Raise IndexError
  | Some si =>
    match sets c !! si with
    | None => Raise IndexError
    | Some s => Ok (lru_scan (Set_.lines s) 0 None 0)
    end
  end.

(** *** read and write *)

(** The hit loop shared by [read] and [write]: the first way, in scan
    order from index [i], that is valid and holds [tag]. *)
Fixpoint scan_hit (tag : Z) (lines : list Block.t) (i : nat) : option nat :=
  match lines with
  | [] => None
  | block :: rest =>
    if Block.valid block && (Block.tag block =? tag) then Some i
    else scan_hit tag rest (S i)
  end.

Definition read (c : t) (address : Z) : t * result bool :=
  let c := set_total_requests (total_requests c + 1) c in
  let set_index := get_block_index c address in
  let tag := get_tag c address in
  match py_index (sets c) set_index with
  | None => (c, Raise IndexError)
  | Some si =>
    match sets c !! si with
    | None => (c, Raise IndexError)
    | Some set =>
      match scan_hit tag (Set_.lines set) 0 with
      | Some i =>
        let c := set_total_hits (total_hits c + 1) c in
        let c := set_access_count (access_count c + 1) c in
        let c := update_line si i (Block.set_last_used (access_count c)) c in
        (c, Ok true)
      | None =>
        let c := set_bytes_to_cache (bytes_to_cache c + block_size c) c in
        match find_lru_block c set_index with
        | Raise e => (c, Raise e)
        | Ok replace_index =>
          match Set_.lines set !! replace_index with
          | None => (c, Raise IndexError)
          | Some victim =>
            let c :=
              if (write_policy c =? WritePolicy.WB)
                 && Block.valid victim && Block.dirty victim
              then set_bytes_to_memory (bytes_to_memory c + block_size c) c
              else c in
            let c := update_line si replace_index (Block.set_valid true) c in
            let c := update_line si replace_index (Block.set_dirty false) c in
            let c := update_line si replace_index (Block.set_tag tag) c in
            let c := set_access_count (access_count c + 1) c in
            let c := update_line si replace_index
                                 (Block.set_last_used (access_count c)) c in
            (c, Ok false)
          end
        end
      end
    end
  end.

Definition write (c : t) (address : Z) : t * result bool :=
  let c := set_total_requests (total_requests c + 1) c in
  let set_index := get_block_index c address in
  let tag := get_tag c address in
  match py_index (sets c) set_index with
  | None => (c, Raise IndexError)
  | Some si =>
    match sets c !! si with
    | None => (c, Raise IndexError)
    | Some set =>
      match scan_hit tag (Set_.lines set) 0 with
      | Some i =>
        let c := set_total_hits (total_hits c + 1) c in
        let c := set_access_count (access_count c + 1) c in
        let c := update_line si i (Block.set_last_used (access_count c)) c in
        let c :=
          if write_policy c =? WritePolicy.WB
          then update_line si i (Block.set_dirty true) c
          else set_bytes_to_memory (bytes_to_memory c + 4) c in
        (c, Ok true)
      | None =>
        let c := set_bytes_to_cache (bytes_to_cache c + block_size c) c in
        match find_lru_block c set_index with
        | Raise e => (c, Raise e)
        | Ok replace_index =>
          match Set_.lines set !! replace_index with
          | None => (c, Raise IndexError)
          | Some victim =>
            let c :=
              if (write_policy c =? WritePolicy.WB)
                 && Block.valid victim && Block.dirty victim
              then set_bytes_to_memory (bytes_to_memory c + block_size c) c
              else c in
            let c := update_line si replace_index (Block.set_valid true) c in
            let c := update_line si replace_index (Block.set_tag tag) c in
            let c := set_access_count (access_count c + 1) c in
            let c := update_line si replace_index
                                 (Block.set_last_used (access_count c)) c in
            let c :=
              if write_policy c =? WritePolicy.WB
              then update_line si replace_index (Block.set_dirty true) c
              else update_line si replace_index (Block.set_dirty false)
                     (set_bytes_to_memory (bytes_to_memory c + 4) c) in
            (c, Ok false)
          end
        end
      end
    end
  end.

(** *** Statistics *)

Definition get_hit_rate (c : t) : result Q :=
  if total_requests c =? 0 then Ok (inject_Z 0)
  else py_truediv (total_hits c) (total_requests c).

Definition get_placement_str (c : t) : string :=
  if placement_type c =? PlacementType.Direct_Mapped then "DM"
  else if placement_type c =? PlacementType.Two_Way then "2W"
  else if placement_type c =? PlacementType.Four_Way then "4W"
  else "FA".

Definition get_write_policy_str (c : t) : string :=
  if write_policy c =? WritePolicy.WB then "WB" else "WT".

End Cache.

(** ** Text primitives of [read_trace_file] and [simulate_trace]

    Trace files are read as text; the embedding covers ASCII text, on which
    [str.split], [str.strip], [str.lower] and [int(_, 16)] act as below. *)

(** [s.isascii()]: every character of [s] is below 128. *)
Fixpoint isascii (s : string) : bool :=
  match s with
  | EmptyString => true
  | String a rest => (Ascii.nat_of_ascii a <? 128)%nat && isascii rest
  end.

(** Characters on which [str.split()] and [str.strip()] cut: tab, line
    feed, vertical tab, form feed, carriage return, the four separators
    [0x1c]..[0x1f], and the space. *)
Definition py_isspace (a : Ascii.ascii) : bool :=
  let n := Ascii.nat_of_ascii a in
  ((9 <=? n) && (n <=? 13) || (28 <=? n) && (n <=? 32))%nat.

Fixpoint lstrip (s : string) : string :=
  match s with
  | String a rest => if py_isspace a then lstrip rest else s
  | EmptyString => EmptyString
  end.

Definition strip (s : string) : string :=
  String.rev (lstrip (String.rev (lstrip s))).

(** [s.split()]: the maximal runs of non-space characters, in order.
    [cur] is the run being read, reversed. *)
Fixpoint split_go (s : string) (cur : string) : list string :=
  match s with
  | EmptyString =>
    match cur with
    | EmptyString => []
    | _ => [String.rev cur]
    end
  | String a rest =>
    if py_isspace a
    then match cur with
         | EmptyString => split_go rest EmptyString
         | _ => String.rev cur :: split_go rest EmptyString
         end
    else split_go rest (String a cur)
  end.

Definition split (s : string) : list string := split_go s EmptyString.

Definition lower_ascii (a : Ascii.ascii) : Ascii.ascii :=
  let n := Ascii.nat_of_ascii a in
  if ((65 <=? n) && (n <=? 90))%nat then Ascii.ascii_of_nat (n + 32) else a.

Fixpoint lower (s : string) : string :=
  match s with
  | EmptyString => EmptyString
  | String a rest => String (lower_ascii a) (lower rest)
  end.

Definition hex_digit (a : Ascii.ascii) : option Z :=
  let n := Ascii.nat_of_ascii a in
  if ((48 <=? n) && (n <=? 57))%nat then Some (Z.of_nat n - 48)
  else if ((97 <=? n) && (n <=? 102))%nat then Some (Z.of_nat n - 87)
  else if ((65 <=? n) && (n <=? 70))%nat then Some (Z.of_nat n - 55)
  else None.

(** The digits of an integer literal: hexadecimal digits, single
    underscores allowed between two digits only. *)
Fixpoint hex_digits (s : string) (acc : Z) (after_digit : bool) : option Z :=
  match s with
  | EmptyString => if after_digit then Some acc else None
  | String a rest =>
    if Ascii.eqb a "_"%char
    then if after_digit then hex_digits rest acc false else None
    else match hex_digit a with
         | Some d => hex_digits rest (16 * acc + d) true
         | None => None
         end
  end.

(** [int(s, 16)]: optional sign, optional [0x]/[0X] prefix (after which one
    underscore may follow), then the digits; anything else raises
    [ValueError]. *)
Definition int16 (s : string) : result Z :=
  let s := strip s in
  let '(neg, s) :=
    match s with
    | String "-"%char rest => (true, rest)
    | String "+"%char rest => (false, rest)
    | _ => (false, s)
    end in
  let s :=
    match s with
    | String "0"%char (String x rest) =>
      if Ascii.eqb x "x"%char || Ascii.eqb x "X"%char
      then match rest with
           | String "_"%char rest' => rest'
           | _ => rest
           end
      else s
    | _ => s
    end in
  match hex_digits s 0 false with
  | Some v => Ok (if neg then - v else v)
  | None => Raise ValueError
  end.

(** ** read_trace_file *)

(** The loop over the lines of the opened file, [operations] being the list
    built so far. *)
Fixpoint read_trace_lines (lines : list string) (operations : list (string * Z))
  : result (list (string * Z)) :=
  match lines with
  | [] => Ok operations
  | line :: rest =>
    match split (strip line) with
    | [op_type; field] =>
      match int16 field with
      | Raise e => Raise e
      | Ok address => read_trace_lines rest (operations ++ [(op_type, address)])
      end
    | _ => read_trace_lines rest operations
    end
  end.

(** [file] is [None] when [open] raises [FileNotFoundError], which the
    function catches (it prints a message and returns the empty list);
    otherwise it holds the lines of the file. *)
Definition read_trace_file (file : option (list string))
  : result (list (string * Z)) :=
  match file with
  | None => Ok []
  | Some lines => read_trace_lines lines []
  end.

(** ** simulate_trace *)

Definition cache_sizes : list Z := [1024; 2048; 8192; 65536].
Definition block_sizes : list Z := [4; 8; 32; 256].
Definition placement_types : list Z :=
  [Cache.PlacementType.Direct_Mapped; Cache.PlacementType.Two_Way;
   Cache.PlacementType.Four_Way; Cache.PlacementType.Fully_Associative].
Definition write_policies : list Z :=
  [Cache.WritePolicy.WB; Cache.WritePolicy.WT].

(** The fields that [get_result_str] prints, before formatting. *)
Record result_record : Type := {
  r_cache_size : Z;
  r_block_size : Z;
  r_placement : string;
  r_num_ways : Z;
  r_write_policy : string;
  r_total_requests : Z;
  r_total_hits : Z;
  r_hit_rate : Q;
  r_bytes_to_cache : Z;
  r_bytes_to_memory : Z
}.

Definition get_result_str (c : Cache.t) : result result_record :=
  match Cache.get_hit_rate c with
  | Raise e => Raise e
  | Ok rate =>
    Ok {| r_cache_size := Cache.cache_size c;
          r_block_size := Cache.block_size c;
          r_placement := Cache.get_placement_str c;
          r_num_ways := Cache.num_ways c;
          r_write_policy := Cache.get_write_policy_str c;
          r_total_requests := Cache.total_requests c;
          r_total_hits := Cache.total_hits c;
          r_hit_rate := rate;
          r_bytes_to_cache := Cache.bytes_to_cache c;
          r_bytes_to_memory := Cache.bytes_to_memory c |}
  end.

Definition is_read_op (op_type : string) : bool :=
  String.eqb (lower op_type) "read" || String.eqb (lower op_type) "load".

Definition is_write_op (op_type : string) : bool :=
  String.eqb (lower op_type) "write" || String.eqb (lower op_type) "store".

(** One iteration of the loop over [operations]: the value returned by
    [read] or [write] is dropped, an exception goes through. *)
Definition replay_op (c : Cache.t) (op : string * Z) : Cache.t * result unit :=
  let '(op_type, address) := op in
  if is_read_op op_type then
    match Cache.read c address with
    | (c', Ok _) => (c', Ok tt)
    | (c', Raise e) => (c', Raise e)
    end
  else if is_write_op op_type then
    match Cache.write c address with
    | (c', Ok _) => (c', Ok tt)
    | (c', Raise e) => (c', Raise e)
    end
  else (c, Ok tt).

Fixpoint replay (c : Cache.t) (operations : list (string * Z))
  : Cache.t * result unit :=
  match operations with
  | [] => (c, Ok tt)
  | op :: rest =>
    match replay_op c op with
    | (c', Ok _) => replay c' rest
    | (c', Raise e) => (c', Raise e)
    end
  end.

(** A configuration, in the order of the four nested loops. *)
Definition config : Type := Z * Z * Z * Z.

(** The body of the innermost loop, over an explicit list of
    configurations: [except RuntimeError] skips the configuration, every
    other exception leaves the function. *)
Fixpoint sweep (configs : list config) (operations : list (string * Z))
         (results : list result_record) : result (list result_record) :=
  match configs with
  | [] => Ok results
  | (cache_size, block_size, placement, write_policy) :: rest =>
    match Cache.init cache_size block_size write_policy placement with
    | Raise (RuntimeError _) => sweep rest operations results
    | Raise e => Raise e
    | Ok cache =>
      match replay cache operations with
      | (_, Raise e) => Raise e
      | (cache, Ok _) =>
        match get_result_str cache with
        | Raise e => Raise e
        | Ok r => sweep rest operations (results ++ [r])
        end
      end
    end
  end.

Definition all_configs : list config :=
  cache_size ← cache_sizes;
  block_size ← block_sizes;
  placement ← placement_types;
  write_policy ← write_policies;
  [(cache_size, block_size, placement, write_policy)].

(** [simulate_trace], up to the writing of the records to the output
    file: the records are returned in the order they are written. *)
Definition simulate_trace (trace_file : option (list string))
  : result (list result_record) :=
  match read_trace_file trace_file with
  | Raise e => Raise e
  | Ok operations => sweep all_configs operations []
  end.

(** ** States and properties the statements are about *)

(** The states a cache goes through: a successful construction, then calls
    to [read] and [write] that return.  A call that raises ends the replay
    ([simulate_trace] does not catch it), so nothing follows it. *)
Inductive reachable : Cache.t -> Prop :=
| reach_init cache_size block_size write_policy placement_type c :
    Cache.init cache_size block_size write_policy placement_type = Ok c ->
    reachable c
| reach_read c address c' hit :
    reachable c -> Cache.read c address = (c', Ok hit) -> reachable c'
| reach_write c address c' hit :
    reachable c -> Cache.write c address = (c', Ok hit) -> reachable c'.

(** The attributes fixed by [__init__]. *)
Definition geometry (c : Cache.t) : Z * Z * Z * Z * Z * Z * Z * Z * Z * Z :=
  (Cache.cache_size c, Cache.block_size c, Cache.placement_type c,
   Cache.write_policy c, Cache.num_ways c, Cache.num_blocks c,
   Cache.num_sets c, Cache.offset_bits c, Cache.set_bits c,
   Cache.tag_shift c).

(** Every index that [get_block_index] can compute is an index of [sets]. *)
Definition index_ok (c : Cache.t) : Prop :=
  0 <= Cache.set_bits c /\
  2 ^ Cache.set_bits c <= Z.of_nat (length (Cache.sets c)).

(** Every set has [num_ways] ways, and a cache of positive size has at
    least one. *)
Definition ways_ok (c : Cache.t) : Prop :=
  (0 < Cache.cache_size c -> 0 < Cache.num_ways c) /\
  forall si s, Cache.sets c !! si = Some s ->
    length (Set_.lines s) = Z.to_nat (Cache.num_ways c).

(** No two ways of the set are valid with the same tag. *)
Definition no_dup_tags_set (s : Set_.t) : Prop :=
  forall i j bi bj,
    Set_.lines s !! i = Some bi -> Set_.lines s !! j = Some bj ->
    Block.valid bi = true -> Block.valid bj = true ->
    Block.tag bi = Block.tag bj -> i = j.

Definition no_dup_tags (c : Cache.t) : Prop :=
  forall si s, Cache.sets c !! si = Some s -> no_dup_tags_set s.

(** The relations between the counters. *)
Definition counters_ok (c : Cache.t) : Prop :=
  Cache.access_count c = Cache.total_requests c /\
  Cache.bytes_to_cache c =
    (Cache.total_requests c - Cache.total_hits c) * Cache.block_size c /\
  0 <= Cache.total_hits c <= Cache.total_requests c.

(** The operations of a trace that [simulate_trace] replays as writes. *)
Definition count_writes (operations : list (string * Z)) : Z :=
  Z.of_nat (length (filter (fun op => is_write_op (fst op) = true) operations)).

(** *** The outcome of a request in closed form

    [read] and [write] assign attribute after attribute; the definitions
    below name the object that results, for the statements that relate the
    state before a request to the state after it. *)

(** The cache [c] with its sets and counters replaced, geometry kept. *)
Definition mutated (c : Cache.t) (sets : list Set_.t)
           (total_requests total_hits bytes_to_cache bytes_to_memory
              access_count : Z) : Cache.t :=
  Cache.mk (Cache.cache_size c) (Cache.block_size c) (Cache.placement_type c)
           (Cache.write_policy c) (Cache.num_ways c) (Cache.num_blocks c)
           (Cache.num_sets c) (Cache.offset_bits c) (Cache.set_bits c)
           (Cache.tag_shift c) sets total_requests total_hits bytes_to_cache
           bytes_to_memory access_count.

(** The sets with way [wi] of set [si] changed by [f]. *)
Definition alter_line (si wi : nat) (f : Block.t -> Block.t)
           (sets : list Set_.t) : list Set_.t :=
  alter (fun s => Set_.mk (alter f wi (Set_.lines s))) si sets.

(** A block after a hit: stamped, and marked dirty when [mark] holds. *)
Definition touched (stamp : Z) (mark : bool) (b : Block.t) : Block.t :=
  Block.mk (Block.size b) (Block.valid b)
           (if mark then true else Block.dirty b)
           (Block.tag b) (Block.data b) stamp.

(** A block after the line of [tag] has been installed in it. *)
Definition installed (tag stamp : Z) (dirty : bool) (b : Block.t) : Block.t :=
  Block.mk (Block.size b) true dirty tag (Block.data b) stamp.

(** The bytes written back when [victim] is evicted. *)
Definition evict_bytes (c : Cache.t) (victim : Block.t) : Z :=
  if (Cache.write_policy c =? Cache.WritePolicy.WB)
     && Block.valid victim && Block.dirty victim
  then Cache.block_size c else 0.

(** The bytes a write sends to memory itself. *)
Definition through_bytes (c : Cache.t) : Z :=
  if Cache.write_policy c =? Cache.WritePolicy.WB then 0 else 4.

(** [read] ([is_write = false]) and [write] ([is_write = true]) as one
    function that names the resulting object; [read_unfold] and
    [write_unfold] prove that this is what the two methods compute. *)
Definition request (is_write : bool) (c : Cache.t) (address : Z)
  : Cache.t * result bool :=
  let tag := Cache.get_tag c address in
  let tr := Cache.total_requests c + 1 in
  let mark := is_write && (Cache.write_policy c =? Cache.WritePolicy.WB) in
  let through := if is_write then through_bytes c else 0 in
  let fault bytes :=
    (mutated c (Cache.sets c) tr (Cache.total_hits c)
             (Cache.bytes_to_cache c + bytes) (Cache.bytes_to_memory c)
             (Cache.access_count c), Raise IndexError) in
  match py_index (Cache.sets c) (Cache.get_block_index c address) with
  | None => fault 0
  | Some si =>
    match Cache.sets c !! si with
    | None => fault 0
    | Some s =>
      match Cache.scan_hit tag (Set_.lines s) 0 with
      | Some i =>
        (mutated c
           (alter_line si i (touched (Cache.access_count c + 1) mark)
                       (Cache.sets c))
           tr (Cache.total_hits c + 1) (Cache.bytes_to_cache c)
           (Cache.bytes_to_memory c + through)
           (Cache.access_count c + 1), Ok true)
      | None =>
        let r := Cache.lru_scan (Set_.lines s) 0 None 0 in
        match Set_.lines s !! r with
        | None => fault (Cache.block_size c)
        | Some victim =>
          (mutated c
             (alter_line si r
                (installed tag (Cache.access_count c + 1) mark)
                (Cache.sets c))
             tr (Cache.total_hits c)
             (Cache.bytes_to_cache c + Cache.block_size c)
             (Cache.bytes_to_memory c + evict_bytes c victim + through)
             (Cache.access_count c + 1), Ok false)
        end
      end
    end
  end.

(** ** Further notions about cache states *)

(** A request as the driver issues it: a [write] or a [read]. *)
Definition access (is_write : bool) (c : Cache.t) (address : Z)
  : Cache.t * result bool :=
  if is_write then Cache.write c address else Cache.read c address.

(** No block of the cache is dirty. *)
Definition all_clean (c : Cache.t) : Prop :=
  forall si s wi b,
    Cache.sets c !! si = Some s -> Set_.lines s !! wi = Some b ->
    Block.dirty b = false.

(** The recency stamps: a block that was never filled has stamp 0, a
    valid block has a stamp between 1 and the clock, and two valid blocks
    at different places have different stamps. *)
Definition stamps_ok (c : Cache.t) : Prop :=
  (forall si s wi b,
     Cache.sets c !! si = Some s -> Set_.lines s !! wi = Some b ->
     if Block.valid b then 1 <= Block.last_used b <= Cache.access_count c
     else Block.last_used b = 0) /\
  (forall si s wi b sj s' wj b',
     Cache.sets c !! si = Some s -> Set_.lines s !! wi = Some b ->
     Cache.sets c !! sj = Some s' -> Set_.lines s' !! wj = Some b' ->
     Block.valid b = true -> Block.valid b' = true ->
     Block.last_used b = Block.last_used b' -> si = sj /\ wi = wj).

(** The line of [address] is in the cache: the set that the address
    selects has a valid way with the tag of the address. *)
Definition resident (c : Cache.t) (address : Z) : Prop :=
  exists si s wi b,
    py_index (Cache.sets c) (Cache.get_block_index c address) = Some si /\
    Cache.sets c !! si = Some s /\
    Set_.lines s !! wi = Some b /\
    Block.valid b = true /\
    Block.tag b = Cache.get_tag c address.

(** The operations of a trace that [simulate_trace] replays at all. *)
Definition count_requests (operations : list (string * Z)) : Z :=
  Z.of_nat
    (length (filter (fun op => is_read_op (fst op) || is_write_op (fst op)
                               = true) operations)).

(** A configuration that holds at least one set: positive sizes that
    [np.log2] takes, one of the four placements, and room for [num_ways]
    blocks. *)
Definition good_config (cfg : config) : Prop :=
  let '(cache_size, block_size, placement, _) := cfg in
  0 < cache_size < 2 ^ 64 /\ 0 < block_size /\ 0 <= placement <= 3 /\
  (if placement =? Cache.PlacementType.Fully_Associative
   then block_size
   else 2 ^ placement * block_size) <= cache_size.

#[global] Instance good_config_dec (cfg : config) : Decision (good_config cfg).
Proof. destruct cfg as [[[cs bs] pt] wp]. simpl. apply _. Defined.

(** ** generate_trace.py

    The two generators write one line per [f.write] call; the embedding
    gives the lines in the order they are written. *)

(** The digit [d] of [format(_, 'x')], for [0 <= d < 16]. *)
Definition hex_char (d : Z) : Ascii.ascii :=
  if d <? 10 then Ascii.ascii_of_nat (Z.to_nat (48 + d))
  else Ascii.ascii_of_nat (Z.to_nat (87 + d)).

(** The hexadecimal digits of [n >= 0], most significant first, in front
    of [acc]; [fuel] bounds the number of digits. *)
Fixpoint to_hex_go (fuel : nat) (n : Z) (acc : string) : string :=
  match fuel with
  | O => acc
  | S fuel' =>
    if n <? 16 then String (hex_char n) acc
    else to_hex_go fuel' (n / 16) (String (hex_char (n mod 16)) acc)
  end.

(** [format(n, 'x')] for [n >= 0]; the number of bits of [n] is fuel
    enough. *)
Definition to_hex (n : Z) : string :=
  to_hex_go (S (Z.to_nat (Z.log2 n))) n EmptyString.

Fixpoint zeros (k : nat) : string :=
  match k with
  | O => EmptyString
  | S k' => String "0"%char (zeros k')
  end.

(** [f"{n:08x}"]: lower-case hexadecimal, padded with zeros after the sign
    to eight characters, longer when [n] needs more. *)
Definition format_08x (n : Z) : string :=
  let digits := to_hex (Z.abs n) in
  let sign := if n <? 0 then String "-"%char EmptyString else EmptyString in
  String.append sign
    (String.append
       (zeros (8 - String.length sign - String.length digits))
       digits).

(** [f"{op} {addr:08x}\n"], the line every [f.write] of the generators
    produces. *)
Definition trace_line (op : string) (addr : Z) : string :=
  String.append op
    (String " "%char
       (String.append (format_08x addr) (String "010"%char EmptyString))).

(** Strings without a whitespace character, and strings of lower-case
    hexadecimal digits: what the fields of a generated line are made of. *)
Fixpoint no_space (s : string) : bool :=
  match s with
  | EmptyString => true
  | String a rest => negb (py_isspace a) && no_space rest
  end.

Definition lower_hex (a : Ascii.ascii) : bool :=
  let n := Ascii.nat_of_ascii a in
  ((48 <=? n) && (n <=? 57) || (97 <=? n) && (n <=? 102))%nat.

Fixpoint lower_hexs (s : string) : bool :=
  match s with
  | EmptyString => true
  | String a rest => lower_hex a && lower_hexs rest
  end.

(** [range(start, stop, step)] for a positive [step]. *)
Definition py_range (start stop step : Z) : list Z :=
  (fun k => start + k * step) <$> seqZ 0 ((stop - start + step - 1) / step).

Definition create_associativity_trace : list string :=
  let cache_size := 1024 in
  let block_size := 8 in
  let total_blocks := cache_size / block_size in
  (i ← py_range 0 50 1;
   way ← py_range 0 4 1;
   let addr := (way * total_blocks + i mod 16) * block_size in
   [trace_line "read" addr])
  ++ (i ← py_range 0 50 1;
      let way := i mod 4 in
      let set_index := (i / 4) mod 32 in
      let addr := (way * total_blocks + set_index) * block_size in
      [trace_line "read" addr])
  ++ (i ← py_range 0 50 1;
      let ways := if i mod 2 =? 0 then [0; 1] else [2; 3] in
      way ← ways;
      let set_index := i mod 32 in
      let addr := (way * total_blocks + set_index) * block_size in
      [trace_line "read" addr])
  ++ (i ← py_range 0 50 1;
      let way := i mod 4 in
      let set_index := i mod 16 in
      let addr := (way * total_blocks + set_index) * block_size in
      [trace_line "write" addr]).

Definition create_block_size_trace : list string :=
  (base ← py_range 0 60 8;
   offset ← py_range 0 8 4;
   let addr := base + offset in
   [trace_line "read" addr])
  ++ (i ← py_range 0 50 1;
      let addr := (i mod 16) * 2 + ((i / 32) mod 32) * 512 in
      [trace_line "read" addr])
  ++ (i ← py_range 0 10 1;
      let set_index := i mod 4 in
      let addr := set_index * 512 + (i mod 64) * 512 in
      [trace_line "read" addr])
  ++ (let block_size := 32 in
      (i ← py_range 0 30 1;
       let addr := i * block_size * 129 in
       [trace_line "load" addr])
      ++ (i ← py_range 0 30 1;
          let addr := i * block_size * 129 in
          [trace_line "store" addr])).

(** * Properties *)

(** ** Python primitives *)

Lemma int_log2_Ok x v :
  int_log2 x = Ok v -> 0 < x < 2 ^ 64 /\ v = Z.log2 x.
Proof.
  unfold int_log2.
  destruct (Z.leb_spec (2 ^ 64) x); [discriminate|].
  destruct (Z.ltb_spec x (- 2 ^ 63)); [discriminate|]. cbn [orb].
  destruct (Z.eqb_spec x 0); [discriminate|].
  destruct (Z.ltb_spec x 0); [discriminate|].
  intros E. inversion E. split; [lia|reflexivity].
Qed.

Lemma int_log2_pos x : 0 < x < 2 ^ 64 -> int_log2 x = Ok (Z.log2 x).
Proof.
  intros Hx. unfold int_log2.
  destruct (Z.leb_spec (2 ^ 64) x); [lia|].
  destruct (Z.ltb_spec x (- 2 ^ 63)); [lia|]. cbn [orb].
  destruct (Z.eqb_spec x 0); [lia|].
  destruct (Z.ltb_spec x 0); [lia|]. reflexivity.
Qed.

Lemma py_index_lt {A : Type} (l : list A) (i : Z) (n : nat) :
  py_index l i = Some n -> (n < length l)%nat.
Proof.
  unfold py_index. intros H.
  destruct ((0 <=? i) && (i <? Z.of_nat (length l))) eqn:E1.
  - apply andb_true_iff in E1 as [H0 H1].
    apply Z.leb_le in H0. apply Z.ltb_lt in H1. inversion H; subst. lia.
  - destruct ((- Z.of_nat (length l) <=? i) && (i <? 0)) eqn:E2; [|discriminate].
    apply andb_true_iff in E2 as [H0 H1].
    apply Z.leb_le in H0. apply Z.ltb_lt in H1. inversion H; subst. lia.
Qed.

Lemma py_index_nonneg {A : Type} (l : list A) (i : Z) :
  0 <= i < Z.of_nat (length l) -> py_index l i = Some (Z.to_nat i).
Proof.
  intros [H0 H1]. unfold py_index.
  apply Z.leb_le in H0. apply Z.ltb_lt in H1. now rewrite H0, H1.
Qed.

Lemma py_index_lookup {A : Type} (l : list A) (i : Z) (n : nat) :
  py_index l i = Some n -> exists x, l !! n = Some x.
Proof.
  intros H%py_index_lt. destruct (lookup_lt_is_Some_2 l n H) as [x Hx]. eauto.
Qed.

(** ** The quotient of two counters, as a double *)

Lemma round_half_even_nonneg q : Qle (inject_Z 0) q -> 0 <= round_half_even q.
Proof.
  intros Hq. unfold round_half_even.
  assert (Hf : 0 <= Qfloor q).
  { rewrite <- (Qfloor_Z 0). now apply Qfloor_resp_le. }
  destruct (Qcompare _ _); [destruct (Z.even _)|..]; lia.
Qed.

Lemma round_half_even_le q bound :
  Qle q (inject_Z bound) -> round_half_even q <= bound.
Proof.
  intros Hq. unfold round_half_even.
  assert (Hf : Qfloor q <= bound).
  { rewrite <- (Qfloor_Z bound). now apply Qfloor_resp_le. }
  destruct (Z.eq_dec (Qfloor q) bound) as [E|E].
  - destruct (Qcompare (Qminus q (inject_Z (Qfloor q))) (1 # 2)) eqn:C.
    + apply Qeq_alt in C. rewrite E in C. lra.
    + lia.
    + apply Qgt_alt in C. rewrite E in C. lra.
  - destruct (Qcompare _ _); [destruct (Z.even _)|..]; lia.
Qed.

Lemma floor_log2_le_0 n d : (n <= d)%positive -> floor_log2 n d <= 0.
Proof.
  intros Hle. unfold floor_log2.
  assert (Hlog : Z.log2 (Z.pos n) <= Z.log2 (Z.pos d))
    by (apply Z.log2_le_mono; lia).
  destruct (_ <? _); lia.
Qed.

Lemma nearest_double_pos_unit n d :
  (n <= d)%positive ->
  Qle (inject_Z 0) (nearest_double_pos n d) /\
  Qle (nearest_double_pos n d) (inject_Z 1).
Proof.
  intros Hle. unfold nearest_double_pos.
  pose proof (floor_log2_le_0 n d Hle) as Hlog.
  set (e := Z.max (floor_log2 n d - 52) (-1074)).
  assert (He : 0 <= - e) by lia.
  assert (Hpow : Qeq (Qpower (inject_Z 2) (- e)) (inject_Z (2 ^ (- e)))).
  { symmetry. now apply Zpower_Qpower. }
  assert (Hinv : Qeq (Qpower (inject_Z 2) e)
                     (Qinv (inject_Z (2 ^ (- e))))).
  { rewrite <- Hpow, <- Qpower_opp, Z.opp_involutive. reflexivity. }
  assert (Hpos : 0 < 2 ^ (- e)) by (apply Z.pow_pos_nonneg; lia).
  assert (Hq : Qlt (inject_Z 0) (inject_Z (2 ^ (- e)))).
  { rewrite <- Zlt_Qlt. exact Hpos. }
  assert (Hx : Qle (inject_Z 0)
                 (Qmult (Z.pos n # d) (Qpower (inject_Z 2) (- e))) /\
               Qle (Qmult (Z.pos n # d) (Qpower (inject_Z 2) (- e)))
                 (inject_Z (2 ^ (- e)))).
  { rewrite Hpow.
    assert (H1 : Qle (Z.pos n # d) (inject_Z 1)).
    { unfold Qle. simpl. lia. }
    assert (H0 : Qle (inject_Z 0) (Z.pos n # d)).
    { unfold Qle. simpl. lia. }
    split; [apply Qmult_le_0_compat; [exact H0|now apply Qlt_le_weak]|].
    rewrite <- (Qmult_1_l (inject_Z (2 ^ (- e)))) at 2.
    apply Qmult_le_compat_r; [exact H1|now apply Qlt_le_weak]. }
  destruct Hx as [Hx0 Hx1].
  pose proof (round_half_even_nonneg _ Hx0) as Hm0.
  pose proof (round_half_even_le _ _ Hx1) as Hm1.
  set (m := round_half_even _) in *.
  rewrite Hinv. split.
  - apply Qmult_le_0_compat; [unfold Qle; simpl; lia|].
    apply Qinv_le_0_compat. now apply Qlt_le_weak.
  - apply Qle_shift_div_r; [exact Hq|].
    rewrite Qmult_1_l. unfold Qle. simpl. lia.
Qed.

Lemma round_half_even_close q :
  Qle (Qminus q (1 # 2)) (inject_Z (round_half_even q)) /\
  Qle (inject_Z (round_half_even q)) (Qplus q (1 # 2)).
Proof.
  unfold round_half_even.
  pose proof (Qfloor_le q) as Hlo. pose proof (Qlt_floor q) as Hhi.
  rewrite inject_Z_plus in Hhi. change (inject_Z 1) with 1%Q in Hhi.
  destruct (Qcompare (Qminus q (inject_Z (Qfloor q))) (1 # 2)) eqn:C.
  - apply Qeq_alt in C. destruct (Z.even (Qfloor q));
      rewrite ?inject_Z_plus; change (inject_Z 1) with 1%Q; split; lra.
  - apply Qlt_alt in C. split; lra.
  - apply Qgt_alt in C. rewrite inject_Z_plus.
    change (inject_Z 1) with 1%Q. split; lra.
Qed.

Lemma nearest_double_pos_close n d :
  (n <= d)%positive ->
  Qle (Qminus (Z.pos n # d) (1 # 2 ^ 53)) (nearest_double_pos n d) /\
  Qle (nearest_double_pos n d) (Qplus (Z.pos n # d) (1 # 2 ^ 53)).
Proof.
  intros Hle. unfold nearest_double_pos.
  pose proof (floor_log2_le_0 n d Hle) as Hlog.
  set (e := Z.max (floor_log2 n d - 52) (-1074)).
  assert (He : 52 <= - e) by lia.
  assert (Hpow : Qeq (Qpower (inject_Z 2) (- e)) (inject_Z (2 ^ (- e)))).
  { symmetry. apply Zpower_Qpower. lia. }
  assert (Hinv : Qeq (Qpower (inject_Z 2) e)
                     (Qinv (inject_Z (2 ^ (- e))))).
  { rewrite <- Hpow, <- Qpower_opp, Z.opp_involutive. reflexivity. }
  assert (Hbig : 2 ^ 52 <= 2 ^ (- e)) by (apply Z.pow_le_mono_r; lia).
  assert (Hq : Qle (inject_Z (2 ^ 52)) (inject_Z (2 ^ (- e)))).
  { rewrite <- Zle_Qle. exact Hbig. }
  pose proof (round_half_even_close
                (Qmult (Z.pos n # d) (Qpower (inject_Z 2) (- e))))
    as [Hm0 Hm1].
  set (m := round_half_even _) in *.
  rewrite Hpow in Hm0, Hm1. rewrite Hinv.
  set (P := inject_Z (2 ^ (- e))) in *.
  assert (HP : Qlt (inject_Z 0) P).
  { assert (Qlt (inject_Z 0) (inject_Z (2 ^ 52)))
      by (rewrite <- Zlt_Qlt; reflexivity).
    lra. }
  assert (Hhalf : Qle (1 # 2) (Qmult (1 # 2 ^ 53) P)).
  { assert (E : Qeq (1 # 2) (Qmult (1 # 2 ^ 53) (inject_Z (2 ^ 52))))
      by reflexivity.
    rewrite E. apply Qmult_le_l; [reflexivity|exact Hq]. }
  change (Qmult (inject_Z m) (Qinv P)) with (Qdiv (inject_Z m) P).
  split.
  - apply Qle_shift_div_l; [exact HP|].
    assert (E : Qeq (Qmult (Qminus (Z.pos n # d) (1 # 2 ^ 53)) P)
                    (Qminus (Qmult (Z.pos n # d) P)
                            (Qmult (1 # 2 ^ 53) P))) by ring.
    rewrite E. lra.
  - apply Qle_shift_div_r; [exact HP|].
    assert (E : Qeq (Qmult (Qplus (Z.pos n # d) (1 # 2 ^ 53)) P)
                    (Qplus (Qmult (Z.pos n # d) P)
                           (Qmult (1 # 2 ^ 53) P))) by ring.
    rewrite E. lra.
Qed.

Lemma py_truediv_unit a b :
  0 <= a <= b -> 0 < b ->
  exists rate,
    py_truediv a b = Ok rate /\
    rate = nearest_double (Qdiv (inject_Z a) (inject_Z b)) /\
    Qle (inject_Z 0) rate /\ Qle rate (inject_Z 1) /\
    Qle (Qminus (Qdiv (inject_Z a) (inject_Z b)) (1 # 2 ^ 53)) rate /\
    Qle rate (Qplus (Qdiv (inject_Z a) (inject_Z b)) (1 # 2 ^ 53)).
Proof.
  intros Ha Hb.
  assert (Hr : let q := Qdiv (inject_Z a) (inject_Z b) in
               Qle (inject_Z 0) (nearest_double q) /\
               Qle (nearest_double q) (inject_Z 1) /\
               Qle (Qminus q (1 # 2 ^ 53)) (nearest_double q) /\
               Qle (nearest_double q) (Qplus q (1 # 2 ^ 53))).
  { destruct b as [|b|b]; try lia. destruct a as [|a|a]; try lia.
    - cbv zeta. repeat split; unfold Qle; simpl; lia.
    - assert (Hle : (a * 1 <= 1 * b)%positive) by lia.
      destruct (nearest_double_pos_unit _ _ Hle) as [H0 H1].
      destruct (nearest_double_pos_close _ _ Hle) as [H2 H3].
      cbv zeta. repeat split; assumption. }
  destruct Hr as (H0 & H1 & H2 & H3).
  unfold py_truediv. destruct (Z.eqb_spec b 0); [lia|]. cbv zeta.
  set (r := nearest_double _) in *.
  destruct (Qle_bool (inject_Z (2 ^ 1024)) r) eqn:E1.
  { apply Qle_bool_iff in E1.
    assert (Hbig : Qlt (inject_Z 1) (inject_Z (2 ^ 1024))).
    { rewrite <- Zlt_Qlt. reflexivity. }
    lra. }
  destruct (Qle_bool r (inject_Z (- 2 ^ 1024))) eqn:E2.
  { apply Qle_bool_iff in E2.
    assert (Hbig : Qlt (inject_Z (- 2 ^ 1024)) (inject_Z 0)).
    { rewrite <- Zlt_Qlt. reflexivity. }
    lra. }
  exists r. repeat split; assumption.
Qed.

(** ** The hit scan *)

Lemma scan_hit_Some tag lines i k :
  Cache.scan_hit tag lines i = Some k ->
  exists j b, k = (i + j)%nat /\ lines !! j = Some b /\
              Block.valid b = true /\ Block.tag b = tag.
Proof.
  revert i. induction lines as [|b rest IH]; intros i H; simpl in H.
  - discriminate.
  - destruct (Block.valid b && (Block.tag b =? tag)) eqn:E.
    + inversion H; subst. apply andb_true_iff in E as [Hv Ht].
      apply Z.eqb_eq in Ht. exists 0%nat, b. simpl. repeat split; auto; lia.
    + destruct (IH _ H) as (j & b' & -> & Hl & Hv & Ht).
      exists (S j), b'. simpl. repeat split; auto; lia.
Qed.

Lemma scan_hit_None tag lines i :
  Cache.scan_hit tag lines i = None ->
  forall j b, lines !! j = Some b -> Block.valid b = true -> Block.tag b <> tag.
Proof.
  revert i. induction lines as [|b rest IH]; intros i H j b' Hl Hv; simpl in H.
  - discriminate.
  - destruct (Block.valid b && (Block.tag b =? tag)) eqn:E; [discriminate|].
    destruct j as [|j]; simpl in Hl.
    + inversion Hl; subst. rewrite Hv in E. simpl in E.
      now apply Z.eqb_neq in E.
    + eapply IH; eauto.
Qed.

(** ** The replacement scan *)

Lemma lru_scan_invalid lines : forall i min_used min_index k b,
  lines !! k = Some b -> Block.valid b = false ->
  (forall j bj, (j < k)%nat -> lines !! j = Some bj -> Block.valid bj = true) ->
  Cache.lru_scan lines i min_used min_index = (i + k)%nat.
Proof.
  induction lines as [|b0 rest IH]; intros i mu mi k b Hk Hv Hfirst.
  - discriminate.
  - destruct k as [|k]; simpl in Hk; simpl.
    + inversion Hk; subst. rewrite Hv. simpl. lia.
    + rewrite (Hfirst 0%nat b0) by (simpl; auto; lia). simpl.
      assert (Hrest : forall j bj, (j < k)%nat -> rest !! j = Some bj ->
                                   Block.valid bj = true).
      { intros j bj Hj Hl. apply (Hfirst (S j) bj); [lia|exact Hl]. }
      destruct (Cache.lt_min_used (Block.last_used b0) mu);
        rewrite (IH _ _ _ k b Hk Hv Hrest); lia.
Qed.

(** On a run of valid ways the scan either keeps the candidate it came with,
    every way being at least [min_used], or settles on the first way that
    holds the least stamp, which is below [min_used]. *)
Lemma lru_scan_valid lines : forall i min_used min_index,
  (forall j b, lines !! j = Some b -> Block.valid b = true) ->
  (Cache.lru_scan lines i min_used min_index = min_index /\
   forall j b, lines !! j = Some b ->
     Cache.lt_min_used (Block.last_used b) min_used = false) \/
  (exists k br,
     Cache.lru_scan lines i min_used min_index = (i + k)%nat /\
     lines !! k = Some br /\
     Cache.lt_min_used (Block.last_used br) min_used = true /\
     forall j b, lines !! j = Some b ->
       Block.last_used br <= Block.last_used b /\
       ((j < k)%nat -> Block.last_used br < Block.last_used b)).
Proof.
  induction lines as [|b0 rest IH]; intros i mu mi Hall.
  - left. split; [reflexivity|]. intros j b Hl. discriminate.
  - simpl. rewrite (Hall 0%nat b0 eq_refl). simpl.
    assert (Hrest : forall j b, rest !! j = Some b -> Block.valid b = true).
    { intros j b Hl. apply (Hall (S j) b Hl). }
    destruct (Cache.lt_min_used (Block.last_used b0) mu) eqn:E.
    + right.
      destruct (IH (S i) (Some (Block.last_used b0)) i Hrest)
        as [[Hr Hge] | (k & br & Hr & Hk & Hlt & Hmin)].
      * exists 0%nat, b0. rewrite Hr.
        split; [lia|]. split; [reflexivity|]. split; [exact E|].
        intros [|j] b Hl; simpl in Hl.
        -- inversion Hl; subst. lia.
        -- specialize (Hge j b Hl). simpl in Hge. apply Z.ltb_ge in Hge. lia.
      * exists (S k), br. rewrite Hr. simpl in Hlt. apply Z.ltb_lt in Hlt.
        split; [lia|]. split; [exact Hk|]. split.
        { destruct mu as [m|]; simpl in *; [|reflexivity].
          apply Z.ltb_lt in E. apply Z.ltb_lt. lia. }
        intros [|j] b Hl; simpl in Hl.
        -- inversion Hl; subst. lia.
        -- destruct (Hmin j b Hl) as [Hle Hlt']. split; [exact Hle|].
           intros Hj. apply Hlt'. lia.
    + destruct (IH (S i) mu mi Hrest)
        as [[Hr Hge] | (k & br & Hr & Hk & Hlt & Hmin)].
      * left. split; [exact Hr|]. intros [|j] b Hl; simpl in Hl.
        -- inversion Hl; subst. exact E.
        -- apply (Hge j b Hl).
      * right. exists (S k), br. rewrite Hr.
        assert (Hb0 : Block.last_used br < Block.last_used b0).
        { destruct mu as [m|]; simpl in *; [|discriminate].
          apply Z.ltb_lt in Hlt. apply Z.ltb_ge in E. lia. }
        split; [lia|]. split; [exact Hk|]. split; [exact Hlt|].
        intros [|j] b Hl; simpl in Hl.
        -- inversion Hl; subst. lia.
        -- destruct (Hmin j b Hl) as [Hle Hlt']. split; [exact Hle|].
           intros Hj. apply Hlt'. lia.
Qed.

(** ** Construction *)

Lemma ways_of_placement_Ok cache_size block_size placement_type w :
  Cache.ways_of_placement cache_size block_size placement_type = Ok w ->
  (placement_type <> Cache.PlacementType.Fully_Associative /\
   (w = 1 \/ w = 2 \/ w = 4)) \/
  (placement_type = Cache.PlacementType.Fully_Associative /\
   w = cache_size / block_size).
Proof.
  unfold Cache.ways_of_placement, Cache.PlacementType.Direct_Mapped,
    Cache.PlacementType.Two_Way, Cache.PlacementType.Four_Way,
    Cache.PlacementType.Fully_Associative.
  intros H.
  destruct (placement_type =? 0) eqn:E0;
    [apply Z.eqb_eq in E0; inversion H; subst; left; lia|].
  destruct (placement_type =? 1) eqn:E1;
    [apply Z.eqb_eq in E1; inversion H; subst; left; lia|].
  destruct (placement_type =? 2) eqn:E2;
    [apply Z.eqb_eq in E2; inversion H; subst; left; lia|].
  destruct (placement_type =? 3) eqn:E3; [|discriminate].
  apply Z.eqb_eq in E3. inversion H; subst. right. lia.
Qed.

(** What a successful construction fixes. *)
Lemma init_Ok cache_size block_size write_policy placement_type c :
  Cache.init cache_size block_size write_policy placement_type = Ok c ->
  Cache.cache_size c = cache_size /\
  Cache.block_size c = block_size /\
  Cache.write_policy c = write_policy /\
  Cache.placement_type c = placement_type /\
  Cache.ways_of_placement cache_size block_size placement_type
    = Ok (Cache.num_ways c) /\
  Cache.num_ways c <> 0 /\
  Cache.num_blocks c = cache_size / block_size /\
  Cache.num_sets c = Cache.num_blocks c / Cache.num_ways c /\
  0 < block_size /\
  cache_size <> 0 /\
  (if placement_type =? Cache.PlacementType.Fully_Associative
   then Cache.set_bits c = 0
   else 0 < Cache.num_sets c /\
        Cache.set_bits c = Z.log2 (Cache.num_sets c)) /\
  Cache.sets c = replicate (Z.to_nat (Cache.num_sets c))
                           (Set_.init (Cache.num_ways c) block_size) /\
  Cache.total_requests c = 0 /\ Cache.total_hits c = 0 /\
  Cache.bytes_to_cache c = 0 /\ Cache.bytes_to_memory c = 0 /\
  Cache.access_count c = 0.
Proof.
  unfold Cache.init. intros H.
  destruct (block_size =? 0) eqn:Eb; [discriminate|].
  destruct (cache_size =? 0) eqn:Ec; [discriminate|].
  apply Z.eqb_neq in Eb. apply Z.eqb_neq in Ec.
  destruct (Cache.ways_of_placement cache_size block_size placement_type)
    as [w|] eqn:Ew; [|discriminate].
  unfold py_floordiv in H.
  destruct (w =? 0) eqn:Ew0; [discriminate|]. apply Z.eqb_neq in Ew0.
  destruct (int_log2 block_size) as [ob|] eqn:Eob; [|discriminate].
  apply int_log2_Ok in Eob as [Hb ->].
  destruct (placement_type =? Cache.PlacementType.Fully_Associative) eqn:Efa.
  - inversion H; subst; simpl. repeat split; auto; lia.
  - destruct (int_log2 (cache_size / block_size / w)) as [sb|] eqn:Esb;
      [|discriminate].
    apply int_log2_Ok in Esb as [Hs ->].
    inversion H; subst; simpl. repeat split; auto; lia.
Qed.

Lemma init_index_ok cache_size block_size write_policy placement_type c :
  Cache.init cache_size block_size write_policy placement_type = Ok c ->
  index_ok c.
Proof.
  intros H. destruct (init_Ok _ _ _ _ _ H)
    as (Hcs & Hbs & _ & Hpt & Hw & Hw0 & Hnb & Hns & Hbpos & Hc0 & Hsb & Hsets & _).
  unfold index_ok. rewrite Hsets, length_replicate.
  destruct (placement_type =? Cache.PlacementType.Fully_Associative) eqn:Efa.
  - apply Z.eqb_eq in Efa.
    destruct (ways_of_placement_Ok _ _ _ _ Hw) as [[Hne _]|[_ Hfa]];
      [congruence|].
    rewrite Hsb. rewrite Hns, Hnb, <- Hfa, Z_div_same_full by exact Hw0.
    simpl. lia.
  - destruct Hsb as [Hpos ->]. split; [apply Z.log2_nonneg|].
    rewrite Z2Nat.id by lia. apply Z.log2_spec. exact Hpos.
Qed.

Lemma init_ways_ok cache_size block_size write_policy placement_type c :
  Cache.init cache_size block_size write_policy placement_type = Ok c ->
  ways_ok c.
Proof.
  intros H. destruct (init_Ok _ _ _ _ _ H)
    as (Hcs & Hbs & _ & Hpt & Hw & Hw0 & Hnb & Hns & Hbpos & Hc0 & Hsb & Hsets & _).
  split.
  - intros Hpos. rewrite Hcs in Hpos.
    destruct (ways_of_placement_Ok _ _ _ _ Hw) as [[_ Hw']|[_ Hfa]]; [lia|].
    assert (0 <= cache_size / block_size) by (apply Z.div_pos; lia). lia.
  - intros si s Hl. rewrite Hsets in Hl.
    apply lookup_replicate in Hl as [-> _]. simpl.
    apply length_replicate.
Qed.

Lemma init_no_dup_tags cache_size block_size write_policy placement_type c :
  Cache.init cache_size block_size write_policy placement_type = Ok c ->
  no_dup_tags c.
Proof.
  intros H. destruct (init_Ok _ _ _ _ _ H)
    as (_ & _ & _ & _ & _ & _ & _ & _ & _ & _ & _ & Hsets & _).
  intros si s Hl. rewrite Hsets in Hl.
  apply lookup_replicate in Hl as [-> _].
  intros i j bi bj Hi _ Hv _ _. simpl in Hi.
  apply lookup_replicate in Hi as [-> _]. discriminate.
Qed.

Lemma init_counters_ok cache_size block_size write_policy placement_type c :
  Cache.init cache_size block_size write_policy placement_type = Ok c ->
  counters_ok c.
Proof.
  intros H. destruct (init_Ok _ _ _ _ _ H)
    as (_ & _ & _ & _ & _ & _ & _ & _ & _ & _ & _ & _ & Hr & Hh & Hc & _ & Ha).
  unfold counters_ok. rewrite Hr, Hh, Hc, Ha. lia.
Qed.

(** ** Requests in closed form *)

Lemma alter_line_alter_line si wi f g sets :
  alter_line si wi f (alter_line si wi g sets) = alter_line si wi (f ∘ g) sets.
Proof.
  unfold alter_line. rewrite list_alter_alter_eq.
  apply list_alter_ext; [|reflexivity].
  intros s _. simpl. now rewrite list_alter_alter_eq.
Qed.

Lemma alter_line_ext si wi f g sets :
  (forall b, f b = g b) -> alter_line si wi f sets = alter_line si wi g sets.
Proof.
  intros H. unfold alter_line. apply list_alter_ext; [|reflexivity].
  intros s _. f_equal. apply list_alter_ext; auto.
Qed.

(** Unfolds the attribute assignments on a cache given by its fields and
    gathers the successive updates of one way into a single one. *)
Ltac assignments :=
  cbv beta iota delta
    [Cache.update_line Cache.set_sets Cache.set_total_requests
     Cache.set_total_hits Cache.set_bytes_to_cache Cache.set_bytes_to_memory
     Cache.set_access_count mutated
     Cache.cache_size Cache.block_size Cache.placement_type
     Cache.write_policy Cache.num_ways Cache.num_blocks Cache.num_sets
     Cache.offset_bits Cache.set_bits Cache.tag_shift Cache.sets
     Cache.total_requests Cache.total_hits Cache.bytes_to_cache
     Cache.bytes_to_memory Cache.access_count];
  repeat match goal with
         | |- context [alter (fun s => Set_.mk (alter ?f ?wi (Set_.lines s)))
                             ?si ?l] =>
           change (alter (fun s => Set_.mk (alter f wi (Set_.lines s))) si l)
             with (alter_line si wi f l)
         end;
  rewrite ?alter_line_alter_line, ?Z.add_0_r.

(** Closes one branch of [read_unfold] and [write_unfold]: both sides are
    computed field by field, on each value of the policy tests. *)
Ltac branch c :=
  destruct c; unfold through_bytes, evict_bytes; assignments; cbn [andb];
  repeat (match goal with
          | H : ?b = _ |- context [if ?b then _ else _] => rewrite H
          | |- context [?w =? Cache.WritePolicy.WB] =>
            is_var w; destruct (w =? Cache.WritePolicy.WB) eqn:?
          | |- context [Block.valid ?v && Block.dirty ?v] =>
            destruct (Block.valid v && Block.dirty v) eqn:?
          end; cbn [andb]; assignments);
  do 2 f_equal; try (apply alter_line_ext; reflexivity); try reflexivity;
  try lia.

Lemma read_unfold c address :
  Cache.read c address = request false c address.
Proof.
  unfold Cache.read, Cache.find_lru_block, request. cbv zeta.
  change (Cache.get_block_index (Cache.set_total_requests _ c) address)
    with (Cache.get_block_index c address).
  change (Cache.get_tag (Cache.set_total_requests _ c) address)
    with (Cache.get_tag c address).
  change (Cache.sets (Cache.set_total_requests _ c)) with (Cache.sets c).
  change (Cache.sets (Cache.set_bytes_to_cache _ _)) with (Cache.sets c).
  generalize (Cache.get_tag c address) as tag.
  generalize (Cache.get_block_index c address) as idx. intros idx tag.
  destruct (py_index (Cache.sets c) idx) as [si|]; [|branch c].
  destruct (Cache.sets c !! si) as [s|]; [|branch c].
  destruct (Cache.scan_hit tag (Set_.lines s) 0) as [i|]; [branch c|].
  generalize (Cache.lru_scan (Set_.lines s) 0 None 0) as r. intros r.
  destruct (Set_.lines s !! r) as [victim|]; branch c.
Qed.

Lemma write_unfold c address :
  Cache.write c address = request true c address.
Proof.
  unfold Cache.write, Cache.find_lru_block, request. cbv zeta.
  change (Cache.get_block_index (Cache.set_total_requests _ c) address)
    with (Cache.get_block_index c address).
  change (Cache.get_tag (Cache.set_total_requests _ c) address)
    with (Cache.get_tag c address).
  change (Cache.sets (Cache.set_total_requests _ c)) with (Cache.sets c).
  change (Cache.sets (Cache.set_bytes_to_cache _ _)) with (Cache.sets c).
  generalize (Cache.get_tag c address) as tag.
  generalize (Cache.get_block_index c address) as idx. intros idx tag.
  destruct (py_index (Cache.sets c) idx) as [si|]; [|branch c].
  destruct (Cache.sets c !! si) as [s|]; [|branch c].
  destruct (Cache.scan_hit tag (Set_.lines s) 0) as [i|]; [branch c|].
  generalize (Cache.lru_scan (Set_.lines s) 0 None 0) as r. intros r.
  destruct (Set_.lines s !! r) as [victim|]; branch c.
Qed.

(** ** What a request changes *)

Lemma request_geometry w c address :
  geometry (request w c address).1 = geometry c.
Proof.
  unfold request. cbv zeta.
  repeat case_match; destruct c; reflexivity.
Qed.

Lemma request_total_requests w c address :
  Cache.total_requests (request w c address).1 = Cache.total_requests c + 1.
Proof.
  unfold request. cbv zeta.
  repeat case_match; destruct c; reflexivity.
Qed.

(** A request that returns counts one hit or fetches one block, and ticks
    the clock once. *)
Lemma request_Ok w c address c' hit :
  request w c address = (c', Ok hit) ->
  Cache.total_hits c' = Cache.total_hits c + (if hit then 1 else 0) /\
  Cache.bytes_to_cache c' =
    Cache.bytes_to_cache c + (if hit then 0 else Cache.block_size c) /\
  Cache.access_count c' = Cache.access_count c + 1.
Proof.
  unfold request. cbv zeta. intros H.
  repeat case_match; inversion H; subst; destruct c; simpl; lia.
Qed.

Lemma request_counters_ok w c address c' hit :
  counters_ok c -> request w c address = (c', Ok hit) -> counters_ok c'.
Proof.
  intros (Hac & Hbc & Hh) H.
  pose proof (request_total_requests w c address) as Htr.
  pose proof (request_geometry w c address) as Hg.
  rewrite H in Htr, Hg. simpl in Htr, Hg.
  destruct (request_Ok _ _ _ _ _ H) as (Hh' & Hbc' & Hac').
  assert (Hbs : Cache.block_size c' = Cache.block_size c).
  { unfold geometry in Hg. congruence. }
  unfold counters_ok. rewrite Htr, Hh', Hbc', Hac', Hbs, Hbc, Hac.
  destruct hit; lia.
Qed.

Lemma length_alter_line si wi f sets :
  length (alter_line si wi f sets) = length sets.
Proof. apply length_alter. Qed.

Lemma request_length_sets w c address :
  length (Cache.sets (request w c address).1) = length (Cache.sets c).
Proof.
  unfold request. cbv zeta.
  repeat case_match; simpl; rewrite ?length_alter_line; reflexivity.
Qed.

Lemma request_index_ok w c address :
  index_ok c -> index_ok (request w c address).1.
Proof.
  intros [Hsb Hlen]. unfold index_ok.
  pose proof (request_geometry w c address) as Hg. unfold geometry in Hg.
  assert (Hsb' : Cache.set_bits (request w c address).1 = Cache.set_bits c)
    by congruence.
  rewrite Hsb', request_length_sets. auto.
Qed.

Lemma alter_line_lookup si wi f sets sj s' :
  alter_line si wi f sets !! sj = Some s' ->
  exists s, sets !! sj = Some s /\
    (s' = s \/ (sj = si /\ s' = Set_.mk (alter f wi (Set_.lines s)))).
Proof.
  unfold alter_line. intros H. destruct (decide (si = sj)) as [->|Hne].
  - rewrite list_lookup_alter_eq in H.
    destruct (sets !! sj) as [s|]; [|discriminate].
    inversion H; subst. eauto.
  - rewrite list_lookup_alter_ne in H by exact Hne. eauto.
Qed.

Lemma request_ways_ok w c address :
  ways_ok c -> ways_ok (request w c address).1.
Proof.
  intros [Hpos Hways].
  pose proof (request_geometry w c address) as Hg. unfold geometry in Hg.
  assert (Hcs : Cache.cache_size (request w c address).1 = Cache.cache_size c)
    by congruence.
  assert (Hnw : Cache.num_ways (request w c address).1 = Cache.num_ways c)
    by congruence.
  split; [rewrite Hcs, Hnw; exact Hpos|].
  rewrite Hnw. clear Hg Hcs Hnw.
  unfold request. cbv zeta. intros sj s'.
  repeat case_match; simpl; try apply Hways;
    intros (s0 & Hs0 & [->|[_ ->]])%alter_line_lookup;
    simpl; rewrite ?length_alter; eauto.
Qed.

(** ** Resident tags *)

(** Stamping or marking a way keeps the set free of duplicates. *)
Lemma no_dup_tags_set_touch f wi s :
  (forall b, Block.valid (f b) = Block.valid b /\
             Block.tag (f b) = Block.tag b) ->
  no_dup_tags_set s ->
  no_dup_tags_set (Set_.mk (alter f wi (Set_.lines s))).
Proof.
  intros Hf Hs i j bi bj. simpl. rewrite !list_lookup_alter.
  intros Hi Hj Hvi Hvj Ht.
  assert (Hpre : forall k bk,
             (if decide (wi = k) then f <$> Set_.lines s !! wi
              else Set_.lines s !! k) = Some bk ->
             exists b, Set_.lines s !! k = Some b /\
                       Block.valid bk = Block.valid b /\
                       Block.tag bk = Block.tag b).
  { intros k bk Hk. destruct (decide (wi = k)) as [->|]; [|eauto].
    destruct (Set_.lines s !! k) as [b|]; [|discriminate].
    inversion Hk; subst. exists b. destruct (Hf b). auto. }
  destruct (Hpre _ _ Hi) as (bi' & Hi' & Hvi' & Hti').
  destruct (Hpre _ _ Hj) as (bj' & Hj' & Hvj' & Htj').
  apply (Hs i j bi' bj'); congruence.
Qed.

(** Installing a tag that no valid way holds keeps the set free of
    duplicates. *)
Lemma no_dup_tags_set_install f wi s tag :
  (forall j b, Set_.lines s !! j = Some b -> Block.valid b = true ->
               Block.tag b <> tag) ->
  (forall b, Block.tag (f b) = tag) ->
  no_dup_tags_set s ->
  no_dup_tags_set (Set_.mk (alter f wi (Set_.lines s))).
Proof.
  intros Hmiss Hf Hs i j bi bj. simpl. rewrite !list_lookup_alter.
  intros Hi Hj Hvi Hvj Ht.
  destruct (decide (wi = i)) as [Ei|Ei], (decide (wi = j)) as [Ej|Ej].
  - congruence.
  - destruct (Set_.lines s !! wi) as [b|]; [|discriminate].
    inversion Hi; subst. rewrite Hf in Ht.
    exfalso. apply (Hmiss j bj Hj Hvj). congruence.
  - destruct (Set_.lines s !! wi) as [b|]; [|discriminate].
    inversion Hj; subst. rewrite Hf in Ht.
    exfalso. apply (Hmiss i bi Hi Hvi). congruence.
  - apply (Hs i j bi bj); auto.
Qed.

Lemma request_no_dup_tags w c address :
  no_dup_tags c -> no_dup_tags (request w c address).1.
Proof.
  intros Hc. unfold request. cbv zeta. intros sj s'.
  destruct (py_index _ _) as [si|]; [|apply Hc].
  destruct (Cache.sets c !! si) as [s|] eqn:Hs; [|apply Hc].
  destruct (Cache.scan_hit _ _ _) as [i|] eqn:Hscan.
  - simpl. intros (s0 & Hs0 & [->|[-> ->]])%alter_line_lookup;
      [apply (Hc _ _ Hs0)|].
    apply no_dup_tags_set_touch; [intros b; split; reflexivity|].
    apply (Hc _ _ Hs0).
  - destruct (Set_.lines s !! _) as [victim|]; [|apply Hc].
    simpl. intros (s0 & Hs0 & [->|[-> ->]])%alter_line_lookup;
      [apply (Hc _ _ Hs0)|].
    assert (s0 = s) by congruence. subst s0.
    eapply no_dup_tags_set_install;
      [exact (scan_hit_None _ _ _ Hscan)|intros b; reflexivity
      |apply (Hc _ _ Hs0)].
Qed.

(** ** Requests return *)

Lemma index_ok_lookup c address :
  index_ok c ->
  exists si s,
    py_index (Cache.sets c) (Cache.get_block_index c address) = Some si /\
    Cache.sets c !! si = Some s.
Proof.
  intros [Hsb Hlen].
  assert (Hr : 0 <= Cache.get_block_index c address
               < Z.of_nat (length (Cache.sets c))).
  { unfold Cache.get_block_index.
    assert (0 < 2 ^ Cache.set_bits c) by (apply Z.pow_pos_nonneg; lia).
    destruct (Cache.placement_type c =? _); [lia|].
    rewrite Z.shiftl_1_l.
    replace (2 ^ Cache.set_bits c - 1) with (Z.ones (Cache.set_bits c))
      by (rewrite Z.ones_equiv; lia).
    rewrite Z.land_ones by exact Hsb.
    pose proof (Z.mod_pos_bound (Z.shiftr address (Cache.offset_bits c))
                  (2 ^ Cache.set_bits c)). lia. }
  rewrite (py_index_nonneg _ _ Hr).
  destruct (lookup_lt_is_Some_2 (Cache.sets c)
              (Z.to_nat (Cache.get_block_index c address))) as [s Hs]; [lia|].
  eauto.
Qed.

(** The scan answers the candidate it came with or an index it visited. *)
Lemma lru_scan_range lines : forall i min_used min_index,
  Cache.lru_scan lines i min_used min_index = min_index \/
  (i <= Cache.lru_scan lines i min_used min_index < i + length lines)%nat.
Proof.
  induction lines as [|b rest IH]; intros i mu mi; simpl.
  - left. reflexivity.
  - destruct (negb (Block.valid b)); [right; lia|].
    destruct (Cache.lt_min_used (Block.last_used b) mu).
    + destruct (IH (S i) (Some (Block.last_used b)) i) as [->|H];
        right; lia.
    + destruct (IH (S i) mu mi) as [->|H]; [left; reflexivity|right; lia].
Qed.

Lemma lru_scan_lt lines :
  lines <> [] ->
  (Cache.lru_scan lines 0 None 0 < length lines)%nat.
Proof.
  destruct lines as [|b rest]; [congruence|]. intros _. simpl.
  destruct (negb (Block.valid b)); [lia|].
  destruct (lru_scan_range rest 1 (Some (Block.last_used b)) 0) as [->|H];
    lia.
Qed.

Lemma request_returns w c address :
  index_ok c -> ways_ok c -> 0 < Cache.cache_size c ->
  exists c' hit, request w c address = (c', Ok hit).
Proof.
  intros Hidx [Hpos Hways] Hcs.
  destruct (index_ok_lookup c address Hidx) as (si & s & Hsi & Hs).
  unfold request. cbv zeta. rewrite Hsi, Hs.
  destruct (Cache.scan_hit _ _ _); [eauto|].
  assert (Hne : Set_.lines s <> []).
  { intros Hnil. specialize (Hways _ _ Hs). rewrite Hnil in Hways.
    simpl in Hways. specialize (Hpos Hcs). lia. }
  destruct (lookup_lt_is_Some_2 _ _ (lru_scan_lt _ Hne)) as [v ->]. eauto.
Qed.

(** ** Traffic to memory *)

Lemma request_bytes_to_memory_read c address :
  (Cache.write_policy c =? Cache.WritePolicy.WB) = false ->
  Cache.bytes_to_memory (request false c address).1 = Cache.bytes_to_memory c.
Proof.
  intros Hwt. unfold request, evict_bytes. cbv zeta. rewrite Hwt.
  repeat case_match; simpl; lia.
Qed.

Lemma request_bytes_to_memory_write c address c' hit :
  (Cache.write_policy c =? Cache.WritePolicy.WB) = false ->
  request true c address = (c', Ok hit) ->
  Cache.bytes_to_memory c' = Cache.bytes_to_memory c + 4.
Proof.
  intros Hwt. unfold request, evict_bytes, through_bytes. cbv zeta.
  rewrite Hwt. intros H.
  repeat case_match; inversion H; subst; simpl; lia.
Qed.

(** ** Reachable states *)

Lemma reachable_invariants c :
  reachable c -> index_ok c /\ ways_ok c /\ no_dup_tags c /\ counters_ok c.
Proof.
  induction 1 as [cs bs wp pt c Hinit
                 |c a c' hit Hc (Hi & Hw & Hd & Hn) Hstep
                 |c a c' hit Hc (Hi & Hw & Hd & Hn) Hstep].
  - split; [|split; [|split]]; eauto using init_index_ok, init_ways_ok, init_no_dup_tags,
      init_counters_ok.
  - rewrite read_unfold in Hstep.
    pose proof (request_index_ok false c a Hi) as Hi'.
    pose proof (request_ways_ok false c a Hw) as Hw'.
    pose proof (request_no_dup_tags false c a Hd) as Hd'.
    rewrite Hstep in Hi', Hw', Hd'.
    split; [|split; [|split]]; eauto using request_counters_ok.
  - rewrite write_unfold in Hstep.
    pose proof (request_index_ok true c a Hi) as Hi'.
    pose proof (request_ways_ok true c a Hw) as Hw'.
    pose proof (request_no_dup_tags true c a Hd) as Hd'.
    rewrite Hstep in Hi', Hw', Hd'.
    split; [|split; [|split]]; eauto using request_counters_ok.
Qed.

(** The geometry of a reachable cache is the one its constructor fixed. *)
Lemma reachable_geometry c :
  reachable c ->
  exists cache_size block_size write_policy placement_type c0,
    Cache.init cache_size block_size write_policy placement_type = Ok c0 /\
    geometry c = geometry c0.
Proof.
  induction 1 as [cs bs wp pt c Hinit
                 |c a c' hit Hc (cs & bs & wp & pt & c0 & Hinit & Hg) Hstep
                 |c a c' hit Hc (cs & bs & wp & pt & c0 & Hinit & Hg) Hstep].
  - exists cs, bs, wp, pt, c. auto.
  - exists cs, bs, wp, pt, c0. split; [exact Hinit|].
    rewrite <- Hg. rewrite read_unfold in Hstep.
    pose proof (request_geometry false c a) as Hg'. now rewrite Hstep in Hg'.
  - exists cs, bs, wp, pt, c0. split; [exact Hinit|].
    rewrite <- Hg. rewrite write_unfold in Hstep.
    pose proof (request_geometry true c a) as Hg'. now rewrite Hstep in Hg'.
Qed.

Lemma read_returns c address :
  reachable c -> 0 < Cache.cache_size c ->
  exists c' hit, Cache.read c address = (c', Ok hit).
Proof.
  intros (Hi & Hw & _)%reachable_invariants Hpos.
  rewrite read_unfold. now apply request_returns.
Qed.

Lemma write_returns c address :
  reachable c -> 0 < Cache.cache_size c ->
  exists c' hit, Cache.write c address = (c', Ok hit).
Proof.
  intros (Hi & Hw & _)%reachable_invariants Hpos.
  rewrite write_unfold. now apply request_returns.
Qed.

(** ** Replaying a trace *)

Lemma is_read_op_not_write op_type :
  is_read_op op_type = true -> is_write_op op_type = false.
Proof.
  unfold is_read_op, is_write_op. intros H.
  apply orb_true_iff in H as [H|H]; apply String.eqb_eq in H; rewrite H;
    reflexivity.
Qed.

(** A replayed operation that does not raise is a [read] that returned, a
    [write] that returned, or an operation of another name, skipped. *)
Lemma replay_op_Ok c op c' :
  replay_op c op = (c', Ok tt) ->
  (is_write_op op.1 = false /\
   exists hit, Cache.read c op.2 = (c', Ok hit)) \/
  (is_write_op op.1 = true /\
   exists hit, Cache.write c op.2 = (c', Ok hit)) \/
  (is_write_op op.1 = false /\ c' = c).
Proof.
  destruct op as [op_type address]. unfold replay_op. simpl.
  destruct (is_read_op op_type) eqn:Er.
  - destruct (Cache.read c address) as [c1 [hit|e]]; intros H;
      inversion H; subst.
    left. split; [now apply is_read_op_not_write|eauto].
  - destruct (is_write_op op_type) eqn:Ew.
    + destruct (Cache.write c address) as [c1 [hit|e]]; intros H;
        inversion H; subst.
      right. left. eauto.
    + intros H. inversion H; subst. auto.
Qed.

Lemma replay_cons c op rest c' :
  replay c (op :: rest) = (c', Ok tt) ->
  exists c1, replay_op c op = (c1, Ok tt) /\ replay c1 rest = (c', Ok tt).
Proof.
  simpl. destruct (replay_op c op) as [c1 [[]|e]]; [eauto|discriminate].
Qed.

Lemma replay_reachable operations : forall c c',
  reachable c -> replay c operations = (c', Ok tt) -> reachable c'.
Proof.
  induction operations as [|op rest IH]; intros c c' Hc H.
  - simpl in H. inversion H; subst. exact Hc.
  - apply replay_cons in H as (c1 & Hop & Hrest).
    apply (IH c1 c'); [|exact Hrest].
    destruct (replay_op_Ok _ _ _ Hop)
      as [[_ [hit Hr]]|[[_ [hit Hw]]|[_ ->]]];
      eauto using reach_read, reach_write.
Qed.

Lemma count_writes_cons op rest :
  count_writes (op :: rest) =
  (if is_write_op op.1 then 1 else 0) + count_writes rest.
Proof.
  unfold count_writes. rewrite filter_cons.
  destruct (is_write_op op.1); case_decide; try congruence; simpl length; lia.
Qed.

Lemma replay_write_through operations : forall c c',
  (Cache.write_policy c =? Cache.WritePolicy.WB) = false ->
  replay c operations = (c', Ok tt) ->
  Cache.write_policy c' = Cache.write_policy c /\
  Cache.bytes_to_memory c' =
    Cache.bytes_to_memory c + 4 * count_writes operations.
Proof.
  induction operations as [|op rest IH]; intros c c' Hwt H.
  - simpl in H. inversion H; subst. unfold count_writes. simpl. lia.
  - apply replay_cons in H as (c1 & Hop & Hrest).
    rewrite count_writes_cons.
    assert (Hstep : Cache.write_policy c1 = Cache.write_policy c /\
                    Cache.bytes_to_memory c1 = Cache.bytes_to_memory c
                      + (if is_write_op op.1 then 1 else 0) * 4).
    { destruct (replay_op_Ok _ _ _ Hop)
        as [[-> [hit Hr]]|[[-> [hit Hw]]|[-> ->]]].
      - rewrite read_unfold in Hr.
        pose proof (request_geometry false c op.2) as Hg.
        pose proof (request_bytes_to_memory_read c op.2 Hwt) as Hm.
        rewrite Hr in Hg, Hm. simpl in Hg, Hm. unfold geometry in Hg.
        split; [congruence|lia].
      - rewrite write_unfold in Hw.
        pose proof (request_geometry true c op.2) as Hg.
        pose proof (request_bytes_to_memory_write c op.2 _ _ Hwt Hw) as Hm.
        rewrite Hw in Hg. simpl in Hg. unfold geometry in Hg.
        split; [congruence|lia].
      - split; [reflexivity|lia]. }
    destruct Hstep as [Hwp Hm].
    destruct (IH c1 c') as [Hwp' Hm']; [congruence|exact Hrest|].
    split; [congruence|]. rewrite Hm', Hm.
    destruct (is_write_op op.1); lia.
Qed.

Lemma replay_returns operations : forall c,
  reachable c -> 0 < Cache.cache_size c ->
  exists c', replay c operations = (c', Ok tt).
Proof.
  induction operations as [|[op_type address] rest IH]; intros c Hc Hpos.
  - simpl. eauto.
  - assert (Hop : exists c1, replay_op c (op_type, address) = (c1, Ok tt) /\
                             reachable c1 /\ 0 < Cache.cache_size c1).
    { unfold replay_op.
      destruct (is_read_op op_type).
      - destruct (read_returns c address Hc Hpos) as (c1 & hit & Hr).
        rewrite Hr. exists c1. split; [reflexivity|].
        split; [eauto using reach_read|].
        rewrite read_unfold in Hr.
        pose proof (request_geometry false c address) as Hg.
        rewrite Hr in Hg. simpl in Hg. unfold geometry in Hg.
        replace (Cache.cache_size c1) with (Cache.cache_size c) by congruence.
        exact Hpos.
      - destruct (is_write_op op_type); [|eauto].
        destruct (write_returns c address Hc Hpos) as (c1 & hit & Hw).
        rewrite Hw. exists c1. split; [reflexivity|].
        split; [eauto using reach_write|].
        rewrite write_unfold in Hw.
        pose proof (request_geometry true c address) as Hg.
        rewrite Hw in Hg. simpl in Hg. unfold geometry in Hg.
        replace (Cache.cache_size c1) with (Cache.cache_size c) by congruence.
        exact Hpos. }
    destruct Hop as (c1 & Hop & Hc1 & Hpos1).
    destruct (IH c1 Hc1 Hpos1) as (c' & Hrest).
    exists c'. cbn [replay]. rewrite Hop. exact Hrest.
Qed.

(** ** Concrete runs

    [replayed cs bs wp pt ops Hc] builds the cache of that configuration,
    replays [ops] on it and leaves [Hc], the proof that the state it
    computed is reachable. *)
Ltac replayed cs bs wp pt ops Hc :=
  let c0 := fresh "c0" in
  let c := fresh "c" in
  let H0 := fresh "H0" in
  let H1 := fresh "H1" in
  destruct (Cache.init cs bs wp pt) as [c0|] eqn:H0;
    [|vm_compute in H0; discriminate];
  destruct (replay c0 ops) as [c [[]|]] eqn:H1;
    [|vm_compute in H0; inversion H0; subst c0; vm_compute in H1;
      discriminate];
  pose proof (replay_reachable _ _ _ (reach_init _ _ _ _ _ H0) H1) as Hc;
  vm_compute in H0; inversion H0; subst c0; clear H0;
  vm_compute in H1; inversion H1; subst c; clear H1.

(** * The claims *)

(** ** Traffic accounting *)

(** C1.  In every state reached from a constructed cache by calls to [read]
    and [write], [bytes_to_cache] is
    [(total_requests - total_hits) * block_size]; a call that misses adds
    exactly [block_size] to it, a call that hits leaves it as it was, and no
    call changes [block_size]. *)
Theorem bytes_to_cache_accounting (c : Cache.t) :
  reachable c ->
  Cache.bytes_to_cache c =
    (Cache.total_requests c - Cache.total_hits c) * Cache.block_size c /\
  forall address c' hit,
    Cache.read c address = (c', Ok hit) \/
    Cache.write c address = (c', Ok hit) ->
    Cache.bytes_to_cache c' =
      Cache.bytes_to_cache c + (if hit then 0 else Cache.block_size c) /\
    Cache.total_requests c' - Cache.total_hits c' =
      Cache.total_requests c - Cache.total_hits c + (if hit then 0 else 1) /\
    Cache.block_size c' = Cache.block_size c.
Proof.
  intros (_ & _ & _ & _ & Hbc & _)%reachable_invariants.
  split; [exact Hbc|].
  intros address c' hit Hstep.
  assert (Hreq : exists w, request w c address = (c', Ok hit)).
  { destruct Hstep as [H|H]; [exists false; now rewrite <- read_unfold
                             |exists true; now rewrite <- write_unfold]. }
  destruct Hreq as [w Hreq].
  destruct (request_Ok _ _ _ _ _ Hreq) as (Hh & Hb & _).
  pose proof (request_total_requests w c address) as Htr.
  pose proof (request_geometry w c address) as Hg.
  rewrite Hreq in Htr, Hg. simpl in Htr, Hg. unfold geometry in Hg.
  split; [exact Hb|]. split; [destruct hit; lia|congruence].
Qed.

Lemma bytes_to_cache_accounting_witness :
  exists c,
    reachable c /\
    Cache.bytes_to_cache c = 8 /\
    Cache.bytes_to_cache c =
      (Cache.total_requests c - Cache.total_hits c) * Cache.block_size c.
Proof.
  replayed 8 4 Cache.WritePolicy.WB Cache.PlacementType.Direct_Mapped
           [("write", 0); ("write", 8)] Hc.
  eexists. split; [exact Hc|]. split; [reflexivity|].
  exact (proj1 (bytes_to_cache_accounting _ Hc)).
Defined.

(** ** The logical clock *)

(** C9.  The claim holds of every call that returns, and fails on a
    cache that the constructor lets through against its own message:
    [__init__] tests [cache_size == 0] and says "Cache size must be
    greater than zero", so [Cache(-8, 4, WB, Fully_Associative)] is
    constructed, with [-2] ways and one set of no way.  There [read(0)]
    and [write(0)] raise [IndexError] at the victim's line, after
    [total_requests += 1] and before [access_count += 1]: the call has
    not incremented [access_count], and the two counters differ. *)
Theorem access_count_lags_without_ways :
  exists c c1 c2,
    Cache.init (-8) 4 Cache.WritePolicy.WB
      Cache.PlacementType.Fully_Associative = Ok c /\
    Cache.num_ways c = -2 /\
    Cache.sets c = [{| Set_.lines := [] |}] /\
    Cache.access_count c = 0 /\ Cache.total_requests c = 0 /\
    Cache.read c 0 = (c1, Raise IndexError) /\
    Cache.access_count c1 = 0 /\ Cache.total_requests c1 = 1 /\
    Cache.write c 0 = (c2, Raise IndexError) /\
    Cache.access_count c2 = 0 /\ Cache.total_requests c2 = 1.
Proof.
  do 3 eexists.
  split; [vm_compute; reflexivity|].
  repeat split; vm_compute; reflexivity.
Qed.

(** ** The hit rate *)

(** C7.  In every reachable state [get_hit_rate] returns: 0 when no
    request was made, and otherwise [total_hits / total_requests], the
    division of [int] by [int], which never meets a zero divisor there and
    is the double nearest to the quotient, within [2^-53] of it;
    [total_hits] is between 0 and [total_requests], and the value
    returned, rounding included, lies between 0 and 1. *)
Theorem get_hit_rate_bounds (c : Cache.t) :
  reachable c ->
  exists rate,
    Cache.get_hit_rate c = Ok rate /\
    (Cache.total_requests c = 0 -> rate = inject_Z 0) /\
    (0 < Cache.total_requests c ->
     py_truediv (Cache.total_hits c) (Cache.total_requests c) = Ok rate /\
     rate = nearest_double
              (Qdiv (inject_Z (Cache.total_hits c))
                    (inject_Z (Cache.total_requests c))) /\
     Qle (Qminus (Qdiv (inject_Z (Cache.total_hits c))
                       (inject_Z (Cache.total_requests c)))
                 (1 # 2 ^ 53)) rate /\
     Qle rate
         (Qplus (Qdiv (inject_Z (Cache.total_hits c))
                      (inject_Z (Cache.total_requests c)))
                (1 # 2 ^ 53))) /\
    0 <= Cache.total_hits c <= Cache.total_requests c /\
    Qle (inject_Z 0) rate /\ Qle rate (inject_Z 1).
Proof.
  intros (_ & _ & _ & _ & _ & Hh)%reachable_invariants.
  unfold Cache.get_hit_rate.
  destruct (Z.eqb_spec (Cache.total_requests c) 0) as [Hr|Hr].
  - exists (inject_Z 0). repeat split; try lia; try discriminate.
  - destruct (py_truediv_unit (Cache.total_hits c) (Cache.total_requests c))
      as (rate & Hrate & Hnear & H0 & H1 & H2 & H3); [lia..|].
    exists rate. rewrite Hrate. repeat split; auto; lia.
Qed.

Lemma get_hit_rate_bounds_witness :
  exists c,
    reachable c /\
    Cache.total_hits c = 1 /\ Cache.total_requests c = 3 /\
    exists rate,
      Cache.get_hit_rate c = Ok rate /\
      rate = Qmake 6004799503160661 18014398509481984.
Proof.
  replayed 32 4 Cache.WritePolicy.WB Cache.PlacementType.Direct_Mapped
           [("read", 0); ("read", 0); ("read", 32)] Hc.
  eexists. split; [exact Hc|]. split; [reflexivity|]. split; [reflexivity|].
  destruct (get_hit_rate_bounds _ Hc) as (rate & Hrate & _ & Hdiv & _).
  exists rate. split; [exact Hrate|].
  destruct Hdiv as (_ & -> & _); [simpl; lia|]. vm_compute. reflexivity.
Defined.

(** ** Resident tags *)

(** C6.  In every reachable state no set holds two valid blocks with the
    same tag, and [read] and [write] keep it so, whatever their outcome. *)
Theorem no_duplicate_resident_tags (c : Cache.t) :
  reachable c ->
  no_dup_tags c /\
  forall address,
    no_dup_tags (Cache.read c address).1 /\
    no_dup_tags (Cache.write c address).1.
Proof.
  intros (_ & _ & Hd & _)%reachable_invariants.
  split; [exact Hd|]. intros address.
  rewrite read_unfold, write_unfold.
  split; now apply request_no_dup_tags.
Qed.

Lemma no_duplicate_resident_tags_witness :
  exists c, reachable c /\ Cache.total_requests c = 4 /\ no_dup_tags c.
Proof.
  replayed 16 4 Cache.WritePolicy.WB Cache.PlacementType.Two_Way
           [("read", 0); ("write", 16); ("read", 32); ("write", 16)] Hc.
  eexists. split; [exact Hc|]. split; [reflexivity|].
  exact (proj1 (no_duplicate_resident_tags _ Hc)).
Defined.

(** ** Geometry *)

(** C4, as the code has it.  [num_sets] is the floor of
    [cache_size / block_size / num_ways], so the product
    [num_sets * num_ways * block_size] gives [cache_size] back when
    [cache_size] is a multiple of [num_ways * block_size]; a
    fully-associative cache has [cache_size // block_size] ways and one
    set; and neither [read] nor [write] changes a geometry attribute,
    whatever their outcome. *)
Theorem geometry_invariant (c : Cache.t) :
  reachable c ->
  (Cache.placement_type c <> Cache.PlacementType.Fully_Associative ->
   (Cache.num_ways c * Cache.block_size c | Cache.cache_size c) ->
   Cache.num_sets c * Cache.num_ways c * Cache.block_size c
     = Cache.cache_size c) /\
  (Cache.placement_type c = Cache.PlacementType.Fully_Associative ->
   Cache.num_ways c = Cache.cache_size c / Cache.block_size c /\
   Cache.num_sets c = 1) /\
  forall address,
    geometry (Cache.read c address).1 = geometry c /\
    geometry (Cache.write c address).1 = geometry c.
Proof.
  intros Hc.
  destruct (reachable_geometry c Hc) as (cs & bs & wp & pt & c0 & Hinit & Hg).
  destruct (init_Ok _ _ _ _ _ Hinit)
    as (Hcs & Hbs & _ & Hpt & Hw & Hw0 & Hnb & Hns & Hbpos & _).
  unfold geometry in Hg.
  assert (Ecs : Cache.cache_size c = cs) by congruence.
  assert (Ebs : Cache.block_size c = bs) by congruence.
  assert (Ept : Cache.placement_type c = pt) by congruence.
  assert (Enw : Cache.num_ways c = Cache.num_ways c0) by congruence.
  assert (Ens : Cache.num_sets c = Cache.num_sets c0) by congruence.
  rewrite Ecs, Ebs, Ept, Enw, Ens. clear Hg.
  split; [|split].
  - intros _ [k Hk]. rewrite Hns, Hnb, Hk.
    replace (k * (Cache.num_ways c0 * bs)) with (k * Cache.num_ways c0 * bs)
      by ring.
    rewrite Z.div_mul by lia. rewrite Z.div_mul by exact Hw0. reflexivity.
  - intros Hfa.
    destruct (ways_of_placement_Ok _ _ _ _ Hw) as [[Hne _]|[_ Hways]];
      [congruence|].
    split; [exact Hways|].
    rewrite Hns, Hnb, <- Hways. now apply Z_div_same_full.
  - intros address. rewrite read_unfold, write_unfold.
    split; apply request_geometry.
Qed.

Lemma geometry_invariant_witness :
  exists c,
    reachable c /\
    Cache.num_sets c * Cache.num_ways c * Cache.block_size c = 1024.
Proof.
  replayed 1024 8 Cache.WritePolicy.WT Cache.PlacementType.Four_Way
           [("read", 0); ("write", 64)] Hc.
  eexists. split; [exact Hc|].
  apply (proj1 (geometry_invariant _ Hc)).
  - discriminate.
  - exists 32. reflexivity.
Defined.

(** C4 as stated fails: [Cache(10, 4, WB, Direct_Mapped)] is constructed,
    with two sets of one way of four bytes. *)
Lemma geometry_product_counterexample :
  exists c,
    Cache.init 10 4 Cache.WritePolicy.WB Cache.PlacementType.Direct_Mapped
      = Ok c /\
    Cache.placement_type c <> Cache.PlacementType.Fully_Associative /\
    Cache.num_sets c * Cache.num_ways c * Cache.block_size c = 8 /\
    Cache.num_sets c * Cache.num_ways c * Cache.block_size c
      <> Cache.cache_size c.
Proof.
  eexists. split; [vm_compute; reflexivity|].
  split; [discriminate|]. split; [reflexivity|discriminate].
Qed.

(** ** Write-through traffic *)

(** C5.  A cache constructed with the write-through policy that replays a
    trace to its end has sent to memory four bytes per write operation of
    the trace, hits and misses alike; after it, as before, a [read] adds
    nothing to [bytes_to_memory] and a [write] that returns adds four. *)
Theorem write_through_traffic
        (cache_size block_size placement_type : Z) (c c' : Cache.t)
        (operations : list (string * Z)) :
  Cache.init cache_size block_size Cache.WritePolicy.WT placement_type
    = Ok c ->
  replay c operations = (c', Ok tt) ->
  Cache.bytes_to_memory c' = 4 * count_writes operations /\
  (forall address,
     Cache.bytes_to_memory (Cache.read c' address).1
       = Cache.bytes_to_memory c') /\
  (forall address c'' hit,
     Cache.write c' address = (c'', Ok hit) ->
     Cache.bytes_to_memory c'' = Cache.bytes_to_memory c' + 4).
Proof.
  intros Hinit Hreplay.
  destruct (init_Ok _ _ _ _ _ Hinit)
    as (_ & _ & Hwp & _ & _ & _ & _ & _ & _ & _ & _ & _ & _ & _ & _ & Hm & _).
  assert (Hwt : (Cache.write_policy c =? Cache.WritePolicy.WB) = false)
    by (rewrite Hwp; reflexivity).
  destruct (replay_write_through _ _ _ Hwt Hreplay) as [Hwp' Hm'].
  assert (Hwt' : (Cache.write_policy c' =? Cache.WritePolicy.WB) = false)
    by (rewrite Hwp'; exact Hwt).
  split; [lia|]. split.
  - intros address. rewrite read_unfold.
    now apply request_bytes_to_memory_read.
  - intros address c'' hit Hw. rewrite write_unfold in Hw.
    now apply (request_bytes_to_memory_write c' address c'' hit).
Qed.

Lemma write_through_traffic_witness :
  exists c c',
    Cache.init 32 4 Cache.WritePolicy.WT Cache.PlacementType.Direct_Mapped
      = Ok c /\
    replay c [("write", 0); ("read", 0); ("STORE", 0); ("load", 64);
              ("Write", 4)] = (c', Ok tt) /\
    Cache.total_hits c' = 2 /\
    Cache.bytes_to_memory c' = 12.
Proof.
  destruct (Cache.init 32 4 Cache.WritePolicy.WT
                       Cache.PlacementType.Direct_Mapped)
    as [c|] eqn:Hinit; [|vm_compute in Hinit; discriminate].
  destruct (replay c [("write", 0); ("read", 0); ("STORE", 0);
                      ("load", 64); ("Write", 4)])
    as [c' [[]|]] eqn:Hreplay;
    [|vm_compute in Hinit; inversion Hinit; subst c;
      vm_compute in Hreplay; discriminate].
  exists c, c'. split; [reflexivity|]. split; [exact Hreplay|].
  split;
    [|exact (proj1 (write_through_traffic _ _ _ _ _ _ Hinit Hreplay))].
  vm_compute in Hinit. inversion Hinit; subst c.
  vm_compute in Hreplay. inversion Hreplay; subst c'. reflexivity.
Defined.

(** ** Scenario C *)

(** C8.  [Cache(8, 4, WB, Direct_Mapped)] has two sets.  [write 0x00]
    misses and sends nothing to memory; [write 0x08] misses in the same
    set and evicts the dirty block of tag 0, which sends four bytes to
    memory; the two misses fetch eight bytes into the cache.  The replay of
    the two operations by the driver ends in that state. *)
Theorem scenario_C_dirty_eviction :
  exists c c1 c2,
    Cache.init 8 4 Cache.WritePolicy.WB Cache.PlacementType.Direct_Mapped
      = Ok c /\
    Cache.num_sets c = 2 /\
    Cache.write c 0 = (c1, Ok false) /\
    Cache.bytes_to_memory c1 = 0 /\
    Cache.write c1 8 = (c2, Ok false) /\
    Cache.get_block_index c1 8 = Cache.get_block_index c 0 /\
    Cache.get_tag c 0 = 0 /\ Cache.get_tag c1 8 = 1 /\
    Cache.bytes_to_memory c2 = 4 /\
    Cache.bytes_to_cache c2 = 8 /\
    replay c [("write", 0); ("write", 8)] = (c2, Ok tt).
Proof.
  do 3 eexists.
  split; [vm_compute; reflexivity|].
  split; [reflexivity|].
  split; [vm_compute; reflexivity|].
  split; [reflexivity|].
  split; [vm_compute; reflexivity|].
  repeat split; vm_compute; reflexivity.
Qed.

(** ** Replacement policy *)

(** C3.  For the set that [set_index] designates, [find_lru_block] answers
    the first invalid way in scan order when there is one; when every way
    is valid it answers a way whose [last_used] no way is below, and which
    every earlier way is strictly above: the earliest way holding the
    least stamp. *)
Theorem find_lru_block_policy
        (c : Cache.t) (set_index : Z) (si : nat) (s : Set_.t) :
  py_index (Cache.sets c) set_index = Some si ->
  Cache.sets c !! si = Some s ->
  exists r,
    Cache.find_lru_block c set_index = Ok r /\
    (forall k b,
       Set_.lines s !! k = Some b -> Block.valid b = false ->
       (forall j bj, (j < k)%nat -> Set_.lines s !! j = Some bj ->
                     Block.valid bj = true) ->
       r = k) /\
    ((forall j b, Set_.lines s !! j = Some b -> Block.valid b = true) ->
     forall j b,
       Set_.lines s !! j = Some b ->
       exists br,
         Set_.lines s !! r = Some br /\
         Block.last_used br <= Block.last_used b /\
         ((j < r)%nat -> Block.last_used br < Block.last_used b)).
Proof.
  intros Hidx Hs. unfold Cache.find_lru_block. rewrite Hidx, Hs.
  eexists. split; [reflexivity|]. split.
  - intros k b Hk Hv Hfirst.
    now rewrite (lru_scan_invalid _ 0%nat None 0%nat k b Hk Hv Hfirst).
  - intros Hall j b Hj.
    destruct (lru_scan_valid (Set_.lines s) 0 None 0 Hall)
      as [[_ Hge]|(k & br & -> & Hk & _ & Hmin)].
    + specialize (Hge j b Hj). discriminate.
    + exists br. simpl. split; [exact Hk|]. apply (Hmin j b Hj).
Qed.

Lemma find_lru_block_policy_witness :
  Cache.find_lru_block
    (Cache.mk 12 4 3 0 3 3 1 2 0 2
              [Set_.mk [Block.mk 4 true false 7 [] 9;
                        Block.mk 4 true true 3 [] 5;
                        Block.mk 4 true false 1 [] 5]]
              3 0 12 0 9) 0
  = Ok 1%nat.
Proof.
  destruct (find_lru_block_policy
              (Cache.mk 12 4 3 0 3 3 1 2 0 2
                        [Set_.mk [Block.mk 4 true false 7 [] 9;
                                  Block.mk 4 true true 3 [] 5;
                                  Block.mk 4 true false 1 [] 5]]
                        3 0 12 0 9)
              0 0%nat
              (Set_.mk [Block.mk 4 true false 7 [] 9;
                        Block.mk 4 true true 3 [] 5;
                        Block.mk 4 true false 1 [] 5])
              eq_refl eq_refl)
    as (r & Hr & _ & Hmin).
  rewrite Hr. f_equal.
  assert (Hall : forall j b,
             Set_.lines (Set_.mk [Block.mk 4 true false 7 [] 9;
                                  Block.mk 4 true true 3 [] 5;
                                  Block.mk 4 true false 1 [] 5]) !! j
               = Some b -> Block.valid b = true).
  { intros [|[|[|j]]] b Hb; inversion Hb; reflexivity. }
  destruct (Hmin Hall 1%nat _ eq_refl) as (br & Hbr & Hle & Hlt).
  destruct r as [|[|[|r]]]; simpl in *.
  - inversion Hbr; subst. simpl in Hle. lia.
  - reflexivity.
  - inversion Hbr; subst. simpl in Hlt. lia.
  - discriminate.
Defined.

(** ** Configuration errors *)

(** C2, as the code has it.  Construction raises [RuntimeError], and
    yields no cache, when [block_size] is zero, when [cache_size] is zero
    or when the placement value is none of the four constants, and the
    sweep skips such a configuration and goes on with the remaining ones.
    The write-policy value is not examined: whatever the configuration,
    construction with another policy value raises the same exception, or
    succeeds as well and yields the same cache but for its [write_policy]
    field. *)
Theorem init_configuration_error
        (cache_size block_size write_policy placement_type : Z) :
  (block_size = 0 \/ cache_size = 0 \/
   (placement_type <> Cache.PlacementType.Direct_Mapped /\
    placement_type <> Cache.PlacementType.Two_Way /\
    placement_type <> Cache.PlacementType.Four_Way /\
    placement_type <> Cache.PlacementType.Fully_Associative) ->
   (exists msg,
      Cache.init cache_size block_size write_policy placement_type
        = Raise (RuntimeError msg)) /\
   (forall other_policy,
      exists msg,
        Cache.init cache_size block_size other_policy placement_type
          = Raise (RuntimeError msg)) /\
   (forall rest operations results,
      sweep ((cache_size, block_size, placement_type, write_policy) :: rest)
            operations results
      = sweep rest operations results)) /\
  (forall other_policy,
     match Cache.init cache_size block_size write_policy placement_type with
     | Raise e =>
       Cache.init cache_size block_size other_policy placement_type = Raise e
     | Ok c =>
       Cache.init cache_size block_size other_policy placement_type
       = Ok {| Cache.cache_size := Cache.cache_size c;
               Cache.block_size := Cache.block_size c;
               Cache.placement_type := Cache.placement_type c;
               Cache.write_policy := other_policy;
               Cache.num_ways := Cache.num_ways c;
               Cache.num_blocks := Cache.num_blocks c;
               Cache.num_sets := Cache.num_sets c;
               Cache.offset_bits := Cache.offset_bits c;
               Cache.set_bits := Cache.set_bits c;
               Cache.tag_shift := Cache.tag_shift c;
               Cache.sets := Cache.sets c;
               Cache.total_requests := Cache.total_requests c;
               Cache.total_hits := Cache.total_hits c;
               Cache.bytes_to_cache := Cache.bytes_to_cache c;
               Cache.bytes_to_memory := Cache.bytes_to_memory c;
               Cache.access_count := Cache.access_count c |}
     end).
Proof.
  split.
  - intros Hbad.
    assert (Hraise : forall wp, exists msg,
               Cache.init cache_size block_size wp placement_type
                 = Raise (RuntimeError msg)).
    { intros wp. unfold Cache.init.
      destruct (block_size =? 0) eqn:Eb; [eauto|].
      destruct (cache_size =? 0) eqn:Ec; [eauto|].
      apply Z.eqb_neq in Eb. apply Z.eqb_neq in Ec.
      destruct Hbad as [?|[?|(H0 & H1 & H2 & H3)]]; [contradiction..|].
      unfold Cache.ways_of_placement.
      rewrite (proj2 (Z.eqb_neq _ _) H0), (proj2 (Z.eqb_neq _ _) H1),
        (proj2 (Z.eqb_neq _ _) H2), (proj2 (Z.eqb_neq _ _) H3).
      eauto. }
    split; [apply Hraise|]. split; [exact Hraise|].
    intros rest operations results. cbn [sweep].
    destruct (Hraise write_policy) as [msg ->]. reflexivity.
  - intros other_policy. unfold Cache.init.
    destruct (block_size =? 0); [reflexivity|].
    destruct (cache_size =? 0); [reflexivity|].
    destruct (Cache.ways_of_placement cache_size block_size placement_type)
      as [w|e]; [|reflexivity].
    destruct (py_floordiv (cache_size / block_size) w) as [n|e];
      [|reflexivity].
    destruct (int_log2 block_size) as [ob|e]; [|reflexivity].
    destruct (if placement_type =? Cache.PlacementType.Fully_Associative
              then Ok 0 else int_log2 n) as [sb|e]; reflexivity.
Qed.

Lemma init_configuration_error_witness :
  Cache.init 1024 0 Cache.WritePolicy.WB Cache.PlacementType.Two_Way
    = Raise (RuntimeError "Block size must be greater than zero.") /\
  sweep [(1024, 0, Cache.PlacementType.Two_Way, Cache.WritePolicy.WB);
         (8, 4, Cache.PlacementType.Direct_Mapped, Cache.WritePolicy.WB)]
        [("write", 0); ("write", 8)] []
  = sweep [(8, 4, Cache.PlacementType.Direct_Mapped, Cache.WritePolicy.WB)]
          [("write", 0); ("write", 8)] [].
Proof.
  split; [reflexivity|].
  apply (proj2 (proj2 (proj1 (init_configuration_error
                                1024 0 Cache.WritePolicy.WB
                                Cache.PlacementType.Two_Way)
                             (or_introl eq_refl)))).
Defined.

(** C2 as stated fails: a write-policy value that is neither [WB] nor
    [WT] does not make construction fail. *)
Lemma init_write_policy_counterexample :
  7 <> Cache.WritePolicy.WB /\ 7 <> Cache.WritePolicy.WT /\
  exists c,
    Cache.init 8 4 7 Cache.PlacementType.Direct_Mapped = Ok c /\
    Cache.write_policy c = 7.
Proof.
  split; [discriminate|]. split; [discriminate|].
  eexists. split; [vm_compute; reflexivity|reflexivity].
Qed.

(** ** Trace ingestion *)

Lemma int16_Raise field e : int16 field = Raise e -> e = ValueError.
Proof.
  unfold int16. repeat case_match; intros Hr; inversion Hr; reflexivity.
Qed.

Lemma read_trace_lines_bad_hex lines : forall operations line op_type field,
  In line lines ->
  split (strip line) = [op_type; field] ->
  int16 field = Raise ValueError ->
  read_trace_lines lines operations = Raise ValueError.
Proof.
  induction lines as [|l rest IH]; intros operations line op_type field
                                          Hin Hsplit Hbad.
  - destruct Hin.
  - cbn [read_trace_lines].
    destruct Hin as [->|Hin].
    + rewrite Hsplit, Hbad. reflexivity.
    + destruct (split (strip l)) as [|f0 [|f1 [|f2 fs]]];
        try (eapply IH; eassumption).
      destruct (int16 f1) as [address|e] eqn:E1.
      * eapply IH; eassumption.
      * now rewrite (int16_Raise _ _ E1).
Qed.

(** C10.  In a file of ASCII text, a line of two fields whose second
    field [int(_, 16)] rejects makes [read_trace_file] raise [ValueError],
    wherever the line stands in the file; a line whose field count is not
    two is skipped; and a line of two fields with a well-formed address is
    never skipped. *)
Theorem read_trace_file_bad_hex
        (lines : list string) (line op_type field : string) :
  Forall (fun l => isascii l = true) lines ->
  In line lines ->
  split (strip line) = [op_type; field] ->
  int16 field = Raise ValueError ->
  read_trace_file (Some lines) = Raise ValueError /\
  (forall l rest operations,
     isascii l = true ->
     length (split (strip l)) <> 2%nat ->
     read_trace_lines (l :: rest) operations
       = read_trace_lines rest operations) /\
  (forall l rest operations op address,
     isascii l = true ->
     split (strip l) = [op; address] ->
     forall a, int16 address = Ok a ->
     read_trace_lines (l :: rest) operations
       = read_trace_lines rest (operations ++ [(op, a)])).
Proof.
  intros _ Hin Hsplit Hbad. split; [|split].
  - unfold read_trace_file. eapply read_trace_lines_bad_hex; eassumption.
  - intros l rest operations _ Hlen. cbn [read_trace_lines].
    destruct (split (strip l)) as [|f0 [|f1 [|f2 fs]]];
      try reflexivity. simpl in Hlen. congruence.
  - intros l rest operations op address _ Hl a Ha. cbn [read_trace_lines].
    rewrite Hl, Ha. reflexivity.
Qed.

Lemma read_trace_file_bad_hex_witness :
  split (strip "write zz") = ["write"; "zz"] /\
  int16 "zz" = Raise ValueError /\
  read_trace_file (Some ["read 1f"; "only-one-field"; "write zz"; "read 2"])
    = Raise ValueError.
Proof.
  split; [reflexivity|]. split; [reflexivity|].
  apply (proj1 (read_trace_file_bad_hex
                  ["read 1f"; "only-one-field"; "write zz"; "read 2"]
                  "write zz" "write" "zz"
                  ltac:(repeat constructor)
                  (or_intror (or_intror (or_introl eq_refl)))
                  eq_refl eq_refl)).
Defined.

(** * Further properties *)

(** ** The block a request touches *)

(** A request that returns rewrites one way [wi] of the set [si] that the
    address selects: the way the hit scan found, or the victim of the
    replacement scan; the new block is valid, holds the tag of the address
    and carries the new clock value. *)
Lemma request_Ok_shape w c address c' hit :
  request w c address = (c', Ok hit) ->
  exists si s wi b f,
    py_index (Cache.sets c) (Cache.get_block_index c address) = Some si /\
    Cache.sets c !! si = Some s /\
    Set_.lines s !! wi = Some b /\
    Cache.sets c' = alter_line si wi f (Cache.sets c) /\
    Block.valid (f b) = true /\
    Block.tag (f b) = Cache.get_tag c address /\
    Block.last_used (f b) = Cache.access_count c + 1 /\
    Block.dirty (f b) =
      (if w && (Cache.write_policy c =? Cache.WritePolicy.WB) then true
       else if hit then Block.dirty b else false) /\
    (if hit then Block.valid b = true /\
                 Block.tag b = Cache.get_tag c address
     else Cache.scan_hit (Cache.get_tag c address) (Set_.lines s) 0 = None /\
          wi = Cache.lru_scan (Set_.lines s) 0 None 0).
Proof.
  unfold request. cbv zeta.
  destruct (py_index _ _) as [si|] eqn:Hidx; [|discriminate].
  destruct (Cache.sets c !! si) as [s|] eqn:Hs; [|discriminate].
  destruct (Cache.scan_hit _ _ _) as [i|] eqn:Hscan.
  - intros H. inversion H; subst. clear H.
    destruct (scan_hit_Some _ _ _ _ Hscan) as (j & b & -> & Hj & Hv & Ht).
    exists si, s, j, b,
      (touched (Cache.access_count c + 1)
               (w && (Cache.write_policy c =? Cache.WritePolicy.WB))).
    simpl. repeat split; auto; destruct (w && _); reflexivity.
  - destruct (Set_.lines s !! _) as [victim|] eqn:Hv; [|discriminate].
    intros H. inversion H; subst. clear H.
    exists si, s, (Cache.lru_scan (Set_.lines s) 0 None 0), victim,
      (installed (Cache.get_tag c address) (Cache.access_count c + 1)
                 (w && (Cache.write_policy c =? Cache.WritePolicy.WB))).
    simpl. repeat split; auto; destruct (w && _); reflexivity.
Qed.

Lemma alter_line_block si wi f sets sj s' wj b' :
  alter_line si wi f sets !! sj = Some s' ->
  Set_.lines s' !! wj = Some b' ->
  exists s b,
    sets !! sj = Some s /\ Set_.lines s !! wj = Some b /\
    ((sj = si /\ wj = wi /\ b' = f b) \/
     ((sj <> si \/ wj <> wi) /\ b' = b)).
Proof.
  unfold alter_line. intros Hs' Hb'.
  destruct (decide (si = sj)) as [->|Hne].
  - rewrite list_lookup_alter_eq in Hs'.
    destruct (sets !! sj) as [s|]; [|discriminate].
    inversion Hs'; subst. simpl in Hb'. exists s.
    destruct (decide (wi = wj)) as [->|Hnw].
    + rewrite list_lookup_alter_eq in Hb'.
      destruct (Set_.lines s !! wj) as [b|]; [|discriminate].
      inversion Hb'; subst. exists b.
      split; [reflexivity|]. split; [reflexivity|]. left. auto.
    + rewrite list_lookup_alter_ne in Hb' by exact Hnw.
      exists b'. split; [reflexivity|]. split; [exact Hb'|].
      right. split; [right; congruence|reflexivity].
  - rewrite list_lookup_alter_ne in Hs' by exact Hne.
    exists s', b'. split; [exact Hs'|]. split; [exact Hb'|].
    right. split; [left; congruence|reflexivity].
Qed.

(** The block that the request wrote is where the shape says. *)
Lemma alter_line_written si wi f sets s b :
  sets !! si = Some s -> Set_.lines s !! wi = Some b ->
  exists s', alter_line si wi f sets !! si = Some s' /\
             Set_.lines s' !! wi = Some (f b).
Proof.
  intros Hs Hb. unfold alter_line. rewrite list_lookup_alter_eq, Hs. simpl.
  eexists. split; [reflexivity|]. simpl.
  now rewrite list_lookup_alter_eq, Hb.
Qed.

(** ** Recency stamps *)

Lemma request_stamps_ok w c address c' hit :
  0 <= Cache.access_count c ->
  stamps_ok c -> request w c address = (c', Ok hit) -> stamps_ok c'.
Proof.
  intros Hac [Hrange Hdist] Hreq.
  destruct (request_Ok_shape _ _ _ _ _ Hreq)
    as (si & s & wi & b & f & _ & Hs & Hb & Hsets & Hv & _ & Hlu & _).
  destruct (request_Ok _ _ _ _ _ Hreq) as (_ & _ & Hac').
  assert (Hold : forall sj s' wj b',
             Cache.sets c' !! sj = Some s' -> Set_.lines s' !! wj = Some b' ->
             (sj = si /\ wj = wi /\ Block.valid b' = true /\
              Block.last_used b' = Cache.access_count c + 1) \/
             ((sj <> si \/ wj <> wi) /\
              exists s0, Cache.sets c !! sj = Some s0 /\
                         Set_.lines s0 !! wj = Some b')).
  { intros sj s' wj b' Hs' Hb'. rewrite Hsets in Hs'.
    destruct (alter_line_block _ _ _ _ _ _ _ _ Hs' Hb')
      as (s0 & b0 & Hs0 & Hb0 & [(-> & -> & ->)|[Hne ->]]).
    - left. assert (b0 = b) by congruence. subst b0. auto.
    - right. eauto. }
  split.
  - intros sj s' wj b' Hs' Hb'. rewrite Hac'.
    destruct (Hold _ _ _ _ Hs' Hb')
      as [(_ & _ & Hv' & Hlu')|[_ (s0 & Hs0 & Hb0)]].
    + rewrite Hv', Hlu'. lia.
    + specialize (Hrange _ _ _ _ Hs0 Hb0).
      destruct (Block.valid b'); lia.
  - intros sj s1 wj b1 sk s2 wk b2 Hs1 Hb1 Hs2 Hb2 Hv1 Hv2 Heq.
    destruct (Hold _ _ _ _ Hs1 Hb1)
      as [(-> & -> & _ & Hlu1)|[_ (t1 & Ht1 & Hc1)]],
       (Hold _ _ _ _ Hs2 Hb2)
      as [(-> & -> & _ & Hlu2)|[_ (t2 & Ht2 & Hc2)]].
    + auto.
    + pose proof (Hrange _ _ _ _ Ht2 Hc2) as Hr. rewrite Hv2 in Hr. lia.
    + pose proof (Hrange _ _ _ _ Ht1 Hc1) as Hr. rewrite Hv1 in Hr. lia.
    + eapply Hdist; eauto.
Qed.

Lemma init_blocks cache_size block_size write_policy placement_type c :
  Cache.init cache_size block_size write_policy placement_type = Ok c ->
  forall si s wi b,
    Cache.sets c !! si = Some s -> Set_.lines s !! wi = Some b ->
    b = Block.init block_size.
Proof.
  intros H si s wi b Hs Hb. destruct (init_Ok _ _ _ _ _ H)
    as (_ & _ & _ & _ & _ & _ & _ & _ & _ & _ & _ & Hsets & _).
  rewrite Hsets in Hs. apply lookup_replicate in Hs as [-> _].
  simpl in Hb. now apply lookup_replicate in Hb as [-> _].
Qed.

Lemma reachable_stamps_ok c : reachable c -> stamps_ok c.
Proof.
  induction 1 as [cs bs wp pt c Hinit
                 |c a c' hit Hc IH Hstep|c a c' hit Hc IH Hstep].
  - split.
    + intros si s wi b Hs Hb.
      rewrite (init_blocks _ _ _ _ _ Hinit _ _ _ _ Hs Hb). reflexivity.
    + intros si s wi b sj s' wj b' Hs Hb _ _ Hv.
      rewrite (init_blocks _ _ _ _ _ Hinit _ _ _ _ Hs Hb) in Hv.
      discriminate.
  - destruct (reachable_invariants c Hc) as (_ & _ & _ & Hac & _ & Hh).
    rewrite read_unfold in Hstep.
    eapply request_stamps_ok; [|exact IH|exact Hstep]. lia.
  - destruct (reachable_invariants c Hc) as (_ & _ & _ & Hac & _ & Hh).
    rewrite write_unfold in Hstep.
    eapply request_stamps_ok; [|exact IH|exact Hstep]. lia.
Qed.

(** ** Hits and residency *)

Lemma access_unfold w c address : access w c address = request w c address.
Proof. destruct w; [apply write_unfold|apply read_unfold]. Qed.

Lemma scan_hit_complete tag lines : forall i j b,
  lines !! j = Some b -> Block.valid b = true -> Block.tag b = tag ->
  exists k, Cache.scan_hit tag lines i = Some k.
Proof.
  induction lines as [|b0 rest IH]; intros i j b Hj Hv Ht; [discriminate|].
  simpl. destruct (Block.valid b0 && (Block.tag b0 =? tag)) eqn:E; [eauto|].
  destruct j as [|j]; simpl in Hj.
  - inversion Hj; subst. rewrite Hv, Z.eqb_refl in E. discriminate.
  - eapply IH; eauto.
Qed.

Lemma py_index_length {A B : Type} (l : list A) (l' : list B) (i : Z) :
  length l = length l' -> py_index l i = py_index l' i.
Proof. intros H. unfold py_index. now rewrite H. Qed.

Lemma geometry_decode c c' address :
  geometry c' = geometry c ->
  Cache.get_tag c' address = Cache.get_tag c address /\
  Cache.get_block_index c' address = Cache.get_block_index c address.
Proof.
  unfold geometry, Cache.get_tag, Cache.get_block_index. intros H.
  inversion H as [[H1 H2 H3 H4 H5 H6 H7 H8 H9 H10]].
  now rewrite H3, H8, H9, H10.
Qed.

(** A request hits exactly when the line is resident. *)
Lemma request_hit_iff w c address :
  resident c address <-> exists c', request w c address = (c', Ok true).
Proof.
  split.
  - intros (si & s & wi & b & Hidx & Hs & Hb & Hv & Ht).
    unfold request. cbv zeta. rewrite Hidx, Hs.
    destruct (scan_hit_complete _ _ 0%nat _ _ Hb Hv Ht) as [k ->]. eauto.
  - intros [c' H].
    destruct (request_Ok_shape _ _ _ _ _ H)
      as (si & s & wi & b & f & Hidx & Hs & Hb & _ & _ & _ & _ & _ & Hv & Ht).
    exists si, s, wi, b. auto.
Qed.

(** After a request that returned, the line of its address is resident. *)
Lemma request_resident w c address c' hit :
  request w c address = (c', Ok hit) -> resident c' address.
Proof.
  intros H.
  destruct (request_Ok_shape _ _ _ _ _ H)
    as (si & s & wi & b & f & Hidx & Hs & Hb & Hsets & Hv & Ht & _).
  destruct (alter_line_written si wi f _ _ _ Hs Hb) as (s' & Hs' & Hb').
  pose proof (request_geometry w c address) as Hg. rewrite H in Hg.
  destruct (geometry_decode c c' address Hg) as [Htag Hindex].
  exists si, s', wi, (f b).
  rewrite Hindex, Htag, Hsets.
  rewrite (py_index_length _ (Cache.sets c)) by apply length_alter_line.
  auto.
Qed.

(** Residency of one address before and after a request for another: the
    geometry, and so the decoding, is the same. *)
Lemma request_decode w c address c' o other :
  request w c address = (c', o) ->
  Cache.get_tag c' other = Cache.get_tag c other /\
  Cache.get_block_index c' other = Cache.get_block_index c other /\
  length (Cache.sets c') = length (Cache.sets c).
Proof.
  intros H.
  pose proof (request_geometry w c address) as Hg.
  pose proof (request_length_sets w c address) as Hl.
  rewrite H in Hg, Hl.
  destruct (geometry_decode c c' other Hg). auto.
Qed.

Lemma init_cold cache_size block_size write_policy placement_type c address :
  Cache.init cache_size block_size write_policy placement_type = Ok c ->
  ~ resident c address.
Proof.
  intros Hinit (si & s & wi & b & _ & Hs & Hb & Hv & _).
  rewrite (init_blocks _ _ _ _ _ Hinit _ _ _ _ Hs Hb) in Hv. discriminate.
Qed.

(** X3 (cold start).  The first request to a freshly constructed cache is
    never a hit, whatever the address and whether it is a read or a write;
    on a cache of positive size it returns, as a miss. *)
Theorem cold_start_miss
        (cache_size block_size write_policy placement_type : Z)
        (c : Cache.t) (is_write : bool) (address : Z) :
  Cache.init cache_size block_size write_policy placement_type = Ok c ->
  (access is_write c address).2 <> Ok true /\
  (0 < cache_size ->
   exists c', access is_write c address = (c', Ok false)).
Proof.
  intros Hinit. rewrite access_unfold.
  assert (Hmiss : (request is_write c address).2 <> Ok true).
  { intros Hhit. apply (init_cold _ _ _ _ _ address Hinit).
    apply (request_hit_iff is_write).
    destruct (request is_write c address) as [c' o]. simpl in Hhit.
    subst o. eauto. }
  split; [exact Hmiss|]. intros Hpos.
  destruct (init_Ok _ _ _ _ _ Hinit) as (Hcs & _).
  destruct (request_returns is_write c address) as (c' & hit & Hreq);
    [eauto using init_index_ok|eauto using init_ways_ok|lia|].
  rewrite Hreq in Hmiss |- *. simpl in Hmiss.
  destruct hit; [congruence|eauto].
Qed.

Lemma cold_start_miss_witness :
  exists c,
    Cache.init 1024 8 Cache.WritePolicy.WT Cache.PlacementType.Two_Way
      = Ok c /\
    exists c', access true c 4660 = (c', Ok false).
Proof.
  destruct (Cache.init 1024 8 Cache.WritePolicy.WT
                       Cache.PlacementType.Two_Way) as [c|] eqn:Hinit;
    [|vm_compute in Hinit; discriminate].
  exists c. split; [reflexivity|].
  apply (proj2 (cold_start_miss _ _ _ _ c true 4660 Hinit)). lia.
Defined.

Lemma init_shifts cache_size block_size write_policy placement_type c :
  Cache.init cache_size block_size write_policy placement_type = Ok c ->
  Cache.offset_bits c = Z.log2 block_size /\
  Cache.tag_shift c = Cache.offset_bits c + Cache.set_bits c /\
  0 <= Cache.set_bits c.
Proof.
  intros H. pose proof (init_index_ok _ _ _ _ _ H) as [Hsb _].
  split; [|split; [|exact Hsb]]; revert H; unfold Cache.init, py_floordiv,
    int_log2; repeat case_match; intros Hc; simplify_eq; reflexivity.
Qed.

Lemma reachable_shifts c :
  reachable c ->
  0 <= Cache.offset_bits c /\ 0 <= Cache.set_bits c /\
  Cache.tag_shift c = Cache.offset_bits c + Cache.set_bits c /\
  0 < Cache.block_size c /\
  Cache.offset_bits c = Z.log2 (Cache.block_size c).
Proof.
  intros Hc.
  destruct (reachable_geometry c Hc) as (cs & bs & wp & pt & c0 & Hinit & Hg).
  destruct (init_shifts _ _ _ _ _ Hinit) as (Hob & Hts & Hsb).
  destruct (init_Ok _ _ _ _ _ Hinit)
    as (_ & Hbs & _ & _ & _ & _ & _ & _ & Hbpos & _).
  unfold geometry in Hg. inversion Hg as [[H1 H2 H3 H4 H5 H6 H7 H8 H9 H10]].
  rewrite H8, H9, H10, H2, Hbs.
  pose proof (Z.log2_nonneg bs). repeat split; try lia; auto.
Qed.

(** Two addresses of the same block decode to the same tag and index. *)
Lemma same_block_decode c a a' :
  reachable c ->
  Z.shiftr a' (Cache.offset_bits c) = Z.shiftr a (Cache.offset_bits c) ->
  Cache.get_tag c a' = Cache.get_tag c a /\
  Cache.get_block_index c a' = Cache.get_block_index c a.
Proof.
  intros (Hob & Hsb & Hts & _)%reachable_shifts Hblock.
  unfold Cache.get_tag, Cache.get_block_index. rewrite Hts.
  rewrite <- !Z.shiftr_shiftr by exact Hsb. now rewrite Hblock.
Qed.

(** X4 (hit after access).  After a read or write of [a] that returned,
    the next request to any address of the same block (the same
    [address >> offset_bits], in particular [a] itself) is a hit, read or
    write alike. *)
Theorem hit_after_access
        (c c1 : Cache.t) (w w' hit : bool) (a a' : Z) :
  reachable c ->
  access w c a = (c1, Ok hit) ->
  Z.shiftr a' (Cache.offset_bits c) = Z.shiftr a (Cache.offset_bits c) ->
  exists c2, access w' c1 a' = (c2, Ok true).
Proof.
  intros Hc Hacc Hblock. rewrite access_unfold in *.
  apply request_hit_iff.
  destruct (same_block_decode c a a' Hc Hblock) as [Htag Hindex].
  destruct (request_resident _ _ _ _ _ Hacc)
    as (si & s & wi & b & Hidx & Hs & Hb & Hv & Ht).
  destruct (request_decode _ _ _ _ _ a Hacc) as (Ht1 & Hi1 & _).
  destruct (request_decode _ _ _ _ _ a' Hacc) as (Ht2 & Hi2 & _).
  exists si, s, wi, b. rewrite Hi2, Hindex, <- Hi1, Ht2, Htag, <- Ht1. auto.
Qed.

Lemma hit_after_access_witness :
  exists c c1 c2,
    Cache.init 32 4 Cache.WritePolicy.WB Cache.PlacementType.Direct_Mapped
      = Ok c /\
    access true c 4096 = (c1, Ok false) /\
    access false c1 4099 = (c2, Ok true).
Proof.
  destruct (Cache.init 32 4 Cache.WritePolicy.WB
                       Cache.PlacementType.Direct_Mapped) as [c|] eqn:Hinit;
    [|vm_compute in Hinit; discriminate].
  destruct (access true c 4096) as [c1 [hit|e]] eqn:H1;
    [|vm_compute in Hinit; inversion Hinit; subst c; vm_compute in H1;
      discriminate].
  assert (Hblock : Z.shiftr 4099 (Cache.offset_bits c)
                   = Z.shiftr 4096 (Cache.offset_bits c)).
  { vm_compute in Hinit. inversion Hinit; subst c. reflexivity. }
  destruct (hit_after_access c c1 true false hit 4096 4099
              (reach_init _ _ _ _ _ Hinit) H1 Hblock) as [c2 H2].
  exists c, c1, c2. split; [reflexivity|]. split; [|exact H2].
  vm_compute in Hinit. inversion Hinit; subst c.
  vm_compute in H1. inversion H1; subst. reflexivity.
Defined.

(** ** Least-recently-used replacement *)

(** X7 (recency stamps).  In every reachable state a block that was
    never filled carries stamp 0 and every valid block carries a stamp
    between 1 and [access_count]; two valid blocks at different places
    never carry the same stamp, so the replacement scan never meets a tie
    among valid blocks. *)
Theorem recency_stamps_distinct (c : Cache.t) :
  reachable c -> stamps_ok c.
Proof. apply reachable_stamps_ok. Qed.

Lemma recency_stamps_distinct_witness :
  exists c, reachable c /\ Cache.access_count c = 4 /\ stamps_ok c.
Proof.
  replayed 16 4 Cache.WritePolicy.WB Cache.PlacementType.Fully_Associative
           [("read", 0); ("write", 16); ("read", 32); ("write", 16)] Hc.
  eexists. split; [exact Hc|]. split; [reflexivity|].
  exact (recency_stamps_distinct _ Hc).
Defined.

(** Either every way is valid or there is a first invalid way. *)
Lemma first_invalid (lines : list Block.t) :
  (forall j b, lines !! j = Some b -> Block.valid b = true) \/
  (exists k b, lines !! k = Some b /\ Block.valid b = false /\
     forall j bj, (j < k)%nat -> lines !! j = Some bj ->
                  Block.valid bj = true).
Proof.
  induction lines as [|b0 rest IH].
  - left. intros j b Hj. discriminate.
  - destruct (Block.valid b0) eqn:Hv0.
    + destruct IH as [Hall|(k & b & Hk & Hv & Hfirst)].
      * left. intros [|j] b Hj; simpl in Hj; [congruence|eauto].
      * right. exists (S k), b. split; [exact Hk|]. split; [exact Hv|].
        intros [|j] bj Hlt Hj; simpl in Hj; [congruence|].
        apply (Hfirst j bj); [lia|exact Hj].
    + right. exists 0%nat, b0. split; [reflexivity|]. split; [exact Hv0|].
      intros j bj Hlt. lia.
Qed.

(** A valid victim means that every way is valid and none is older. *)
Lemma lru_scan_valid_victim lines br :
  lines !! Cache.lru_scan lines 0 None 0 = Some br ->
  Block.valid br = true ->
  forall j b, lines !! j = Some b ->
    Block.valid b = true /\ Block.last_used br <= Block.last_used b.
Proof.
  intros Hr Hv j b Hj.
  destruct (first_invalid lines) as [Hall|(k & bk & Hk & Hvk & Hfirst)].
  - split; [eauto|].
    destruct (lru_scan_valid lines 0 None 0 Hall)
      as [[_ Hge]|(k & bk & Hk & Hbk & _ & Hmin)].
    + specialize (Hge j b Hj). discriminate.
    + rewrite Hk in Hr. simpl in Hr. assert (bk = br) by congruence.
      subst bk. apply (Hmin j b Hj).
  - rewrite (lru_scan_invalid lines 0 None 0 k bk Hk Hvk Hfirst) in Hr.
    simpl in Hr. congruence.
Qed.

Lemma reachable_access c w address c' hit :
  reachable c -> access w c address = (c', Ok hit) -> reachable c'.
Proof.
  intros Hc H. destruct w; simpl in H; eauto using reach_write, reach_read.
Qed.

(** X5 (the most recent block survives).  In a cache with at least two
    ways, the block of the latest request is never the victim of the next
    one: after a request to [a] and then any request at all, a further
    request to [a] hits. *)
Theorem most_recent_block_survives
        (c c1 c2 : Cache.t) (w w' w'' h1 h2 : bool) (a a' : Z) :
  reachable c ->
  2 <= Cache.num_ways c ->
  access w c a = (c1, Ok h1) ->
  access w' c1 a' = (c2, Ok h2) ->
  exists c3, access w'' c2 a = (c3, Ok true).
Proof.
  intros Hc Hways H1 H2.
  pose proof (reachable_access _ _ _ _ _ Hc H1) as Hc1.
  rewrite access_unfold in *. apply request_hit_iff.
  destruct (reachable_invariants c1 Hc1) as (_ & [_ Hlen] & _).
  destruct (reachable_stamps_ok c1 Hc1) as [Hrange Hdist].
  pose proof (request_geometry w c a) as Hg. rewrite H1 in Hg.
  assert (Hnw : Cache.num_ways c1 = Cache.num_ways c)
    by (unfold geometry in Hg; inversion Hg; congruence).
  (* the block of [a] after the first request *)
  destruct (request_Ok_shape _ _ _ _ _ H1)
    as (si & s & wi & b & f & Hidx & Hs & Hb & Hsets & Hv & Ht & Hlu & _).
  destruct (alter_line_written si wi f _ _ _ Hs Hb) as (s1 & Hs1 & Hb1).
  rewrite <- Hsets in Hs1.
  destruct (request_Ok _ _ _ _ _ H1) as (_ & _ & Hac1).
  destruct (request_decode _ _ _ _ _ a H1) as (Ht1 & Hi1 & Hl1).
  destruct (request_decode _ _ _ _ _ a H2) as (Ht2 & Hi2 & Hl2).
  (* the way the second request rewrites *)
  destruct (request_Ok_shape _ _ _ _ _ H2)
    as (sj & s' & wj & b' & f' & _ & Hs' & Hb' & Hsets' & Hv' & Ht' & _ & _
        & Hcase).
  assert (Hkeep : exists s2 b2,
             Cache.sets c2 !! si = Some s2 /\ Set_.lines s2 !! wi = Some b2 /\
             Block.valid b2 = true /\ Block.tag b2 = Cache.get_tag c a).
  { destruct (decide (sj = si /\ wj = wi)) as [[-> ->]|Hother].
    - assert (s' = s1) by congruence. subst s'.
      assert (b' = f b) by congruence. subst b'.
      destruct (alter_line_written si wi f' _ _ _ Hs1 Hb1)
        as (s2 & Hs2 & Hb2).
      rewrite <- Hsets' in Hs2. exists s2, (f' (f b)).
      split; [exact Hs2|]. split; [exact Hb2|]. split; [exact Hv'|].
      destruct h2.
      + destruct Hcase as [_ Htag]. rewrite Ht'. congruence.
      + exfalso. destruct Hcase as [_ Hvictim]. rewrite Hvictim in Hb1.
        pose proof (Hlen _ _ Hs1) as Hl. rewrite Hnw in Hl.
        destruct (lookup_lt_is_Some_2 (Set_.lines s1)
                    (if decide (wi = 0%nat) then 1%nat else 0%nat))
          as [bo Hbo]; [case_decide; lia|].
        destruct (lru_scan_valid_victim _ _ Hb1 Hv _ _ Hbo) as [Hvo Hle].
        destruct (Hdist si s1 wi (f b) si s1
                    (if decide (wi = 0%nat) then 1%nat else 0%nat) bo)
          as [_ Heq]; auto.
        * pose proof (Hrange _ _ _ _ Hs1 Hbo) as Hr. rewrite Hvo in Hr. lia.
        * case_decide; lia.
    - assert (Hs2 : exists s2, Cache.sets c2 !! si = Some s2 /\
                               Set_.lines s2 !! wi = Some (f b)).
      { rewrite Hsets'. unfold alter_line.
        destruct (decide (sj = si)) as [->|Hne].
        - rewrite list_lookup_alter_eq, Hs1. simpl. eexists.
          split; [reflexivity|]. simpl.
          rewrite list_lookup_alter_ne by (intros ->; apply Hother; auto).
          exact Hb1.
        - rewrite list_lookup_alter_ne by exact Hne. eauto. }
      destruct Hs2 as (s2 & Hs2 & Hb2). exists s2, (f b). auto. }
  destruct Hkeep as (s2 & b2 & Hs2 & Hb2 & Hv2 & Htag2).
  exists si, s2, wi, b2.
  rewrite Hi2, Hi1, Ht2, Ht1.
  rewrite (py_index_length _ (Cache.sets c)) by congruence. auto.
Qed.

Lemma most_recent_block_survives_witness :
  exists c c1 c2 c3,
    Cache.init 16 4 Cache.WritePolicy.WB Cache.PlacementType.Two_Way
      = Ok c /\
    2 <= Cache.num_ways c /\
    access false c 0 = (c1, Ok false) /\
    access true c1 8 = (c2, Ok false) /\
    access false c2 0 = (c3, Ok true).
Proof.
  destruct (Cache.init 16 4 Cache.WritePolicy.WB
                       Cache.PlacementType.Two_Way) as [c|] eqn:Hinit;
    [|vm_compute in Hinit; discriminate].
  destruct (access false c 0) as [c1 [h1|e]] eqn:H1;
    [|vm_compute in Hinit; inversion Hinit; subst c; vm_compute in H1;
      discriminate].
  destruct (access true c1 8) as [c2 [h2|e]] eqn:H2;
    [|vm_compute in Hinit; inversion Hinit; subst c; vm_compute in H1;
      inversion H1; subst c1; vm_compute in H2; discriminate].
  assert (Hways : 2 <= Cache.num_ways c).
  { vm_compute in Hinit. inversion Hinit; subst c. simpl. lia. }
  destruct (most_recent_block_survives c c1 c2 false true false h1 h2 0 8
              (reach_init _ _ _ _ _ Hinit) Hways H1 H2) as [c3 H3].
  exists c, c1, c2, c3. split; [reflexivity|]. split; [exact Hways|].
  split; [|split; [|exact H3]];
    vm_compute in Hinit; inversion Hinit; subst c;
    vm_compute in H1; inversion H1; subst;
    vm_compute in H2; inversion H2; subst; reflexivity.
Defined.

(** ** Conflict misses *)

(** In a set of one way whose block holds another tag, a request misses,
    returns, and leaves its own line resident. *)
Lemma single_way_miss w c address si s b :
  index_ok c -> ways_ok c -> Cache.num_ways c = 1 ->
  py_index (Cache.sets c) (Cache.get_block_index c address) = Some si ->
  Cache.sets c !! si = Some s ->
  Set_.lines s !! 0%nat = Some b ->
  Block.tag b <> Cache.get_tag c address ->
  exists c', request w c address = (c', Ok false).
Proof.
  intros Hidx [_ Hways] Hone Hsi Hs Hb Htag.
  pose proof (Hways _ _ Hs) as Hlen. rewrite Hone in Hlen.
  destruct (Set_.lines s) as [|b0 [|b1 rest]] eqn:Hlines;
    simpl in Hlen; try lia.
  simpl in Hb. inversion Hb; subst b0.
  unfold request. cbv zeta. rewrite Hsi, Hs, Hlines.
  assert (Hscan : Cache.scan_hit (Cache.get_tag c address) [b] 0 = None).
  { simpl. apply Z.eqb_neq in Htag. rewrite Htag.
    now rewrite andb_false_r. }
  rewrite Hscan.
  assert (Hr : Cache.lru_scan [b] 0 None 0 = 0%nat).
  { pose proof (lru_scan_lt [b]) as Hlt. simpl length in Hlt.
    assert ([b] <> []) by discriminate. specialize (Hlt H). lia. }
  rewrite Hr. simpl. eauto.
Qed.

(** X6 (conflict miss).  In a direct-mapped cache, two addresses that
    select the same set and differ in their tag evict each other: after a
    request to [a], a request to [a'] misses, and the request to [a] that
    follows misses again. *)
Theorem direct_mapped_conflict
        (c c1 : Cache.t) (w w' w'' h1 : bool) (a a' : Z) :
  reachable c ->
  Cache.num_ways c = 1 ->
  Cache.get_block_index c a' = Cache.get_block_index c a ->
  Cache.get_tag c a' <> Cache.get_tag c a ->
  access w c a = (c1, Ok h1) ->
  exists c2 c3,
    access w' c1 a' = (c2, Ok false) /\
    access w'' c2 a = (c3, Ok false).
Proof.
  intros Hc Hone Hindex Htag H1.
  pose proof (reachable_access _ _ _ _ _ Hc H1) as Hc1.
  assert (Hstep : forall c0 c1 w0 h x y w1,
             reachable c0 -> Cache.num_ways c0 = 1 ->
             Cache.get_block_index c0 y = Cache.get_block_index c0 x ->
             Cache.get_tag c0 y <> Cache.get_tag c0 x ->
             access w0 c0 x = (c1, Ok h) ->
             exists c2, access w1 c1 y = (c2, Ok false)).
  { clear. intros c0 c1 w0 h x y w1 Hc0 Hone Hindex Htag H1.
    pose proof (reachable_access _ _ _ _ _ Hc0 H1) as Hc1.
    destruct (reachable_invariants c1 Hc1) as (Hi1 & Hw1 & _).
    rewrite access_unfold in *.
    pose proof (request_geometry w0 c0 x) as Hg. rewrite H1 in Hg.
    assert (Hnw : Cache.num_ways c1 = 1)
      by (unfold geometry in Hg; inversion Hg; congruence).
    destruct (request_resident _ _ _ _ _ H1)
      as (si & s & wi & b & Hsi & Hs & Hb & Hv & Ht).
    destruct (request_decode _ _ _ _ _ x H1) as (Htx & Hix & _).
    destruct (request_decode _ _ _ _ _ y H1) as (Hty & Hiy & _).
    assert (wi = 0%nat).
    { destruct Hw1 as [_ Hways]. pose proof (Hways _ _ Hs) as Hlen.
      rewrite Hnw in Hlen. apply lookup_lt_Some in Hb. lia. }
    subst wi.
    apply (single_way_miss w1 c1 y si s b); auto; congruence. }
  destruct (Hstep c c1 w h1 a a' w' Hc Hone Hindex Htag H1) as [c2 H2].
  exists c2.
  pose proof (request_geometry w c a) as Hg.
  rewrite <- access_unfold, H1 in Hg.
  destruct (geometry_decode c c1 a Hg) as [Hta Hia].
  destruct (geometry_decode c c1 a' Hg) as [Hta' Hia'].
  destruct (Hstep c1 c2 w' false a' a w'' Hc1) as [c3 H3]; auto;
    try congruence.
  - unfold geometry in Hg. inversion Hg. congruence.
  - eauto.
Qed.

Lemma direct_mapped_conflict_witness :
  exists c c1 c2 c3,
    Cache.init 32 4 Cache.WritePolicy.WB Cache.PlacementType.Direct_Mapped
      = Ok c /\
    access false c 0 = (c1, Ok false) /\
    access false c1 32 = (c2, Ok false) /\
    access false c2 0 = (c3, Ok false).
Proof.
  destruct (Cache.init 32 4 Cache.WritePolicy.WB
                       Cache.PlacementType.Direct_Mapped) as [c|] eqn:Hinit;
    [|vm_compute in Hinit; discriminate].
  destruct (access false c 0) as [c1 [h1|e]] eqn:H1;
    [|vm_compute in Hinit; inversion Hinit; subst c; vm_compute in H1;
      discriminate].
  assert (Hgeom : Cache.num_ways c = 1 /\
                  Cache.get_block_index c 32 = Cache.get_block_index c 0 /\
                  Cache.get_tag c 32 <> Cache.get_tag c 0).
  { vm_compute in Hinit. inversion Hinit; subst c.
    split; [reflexivity|]. split; [reflexivity|]. vm_compute. discriminate. }
  destruct Hgeom as (Hone & Hindex & Htag).
  destruct (direct_mapped_conflict c c1 false false false h1 0 32
              (reach_init _ _ _ _ _ Hinit) Hone Hindex Htag H1)
    as (c2 & c3 & H2 & H3).
  exists c, c1, c2, c3. split; [reflexivity|].
  split; [|split; [exact H2|exact H3]].
  vm_compute in Hinit. inversion Hinit; subst c.
  vm_compute in H1. inversion H1; subst. reflexivity.
Defined.

(** ** Dirty blocks and traffic to memory *)

(** A request that marks nothing leaves a clean cache clean. *)
Lemma request_all_clean w c address c' hit :
  w && (Cache.write_policy c =? Cache.WritePolicy.WB) = false ->
  all_clean c -> request w c address = (c', Ok hit) -> all_clean c'.
Proof.
  intros Hmark Hclean Hreq.
  destruct (request_Ok_shape _ _ _ _ _ Hreq)
    as (si & s & wi & b & f & _ & Hs & Hb & Hsets & _ & _ & _ & Hd & _).
  rewrite Hmark in Hd.
  intros sj s' wj b' Hs' Hb'. rewrite Hsets in Hs'.
  destruct (alter_line_block _ _ _ _ _ _ _ _ Hs' Hb')
    as (s0 & b0 & Hs0 & Hb0 & [(-> & -> & ->)|[_ ->]]).
  - assert (b0 = b) by congruence. subst b0. rewrite Hd.
    destruct hit; [apply (Hclean _ _ _ _ Hs Hb)|reflexivity].
  - apply (Hclean _ _ _ _ Hs0 Hb0).
Qed.

Lemma init_all_clean cache_size block_size write_policy placement_type c :
  Cache.init cache_size block_size write_policy placement_type = Ok c ->
  all_clean c.
Proof.
  intros Hinit si s wi b Hs Hb.
  now rewrite (init_blocks _ _ _ _ _ Hinit _ _ _ _ Hs Hb).
Qed.

(** X8 (write-through keeps blocks clean).  In every state of a cache
    whose policy is not write-back, no block is dirty: a write-through
    cache never owes memory a block. *)
Theorem write_through_never_dirty (c : Cache.t) :
  reachable c ->
  Cache.write_policy c <> Cache.WritePolicy.WB ->
  all_clean c.
Proof.
  induction 1 as [cs bs wp pt c Hinit
                 |c a c' hit Hc IH Hstep|c a c' hit Hc IH Hstep]; intros Hwt.
  - eauto using init_all_clean.
  - rewrite read_unfold in Hstep.
    pose proof (request_geometry false c a) as Hg. rewrite Hstep in Hg.
    assert (Hwp : Cache.write_policy c' = Cache.write_policy c)
      by (unfold geometry in Hg; inversion Hg; congruence).
    apply (request_all_clean false c a c' hit);
      [reflexivity|apply IH; congruence|exact Hstep].
  - rewrite write_unfold in Hstep.
    pose proof (request_geometry true c a) as Hg. rewrite Hstep in Hg.
    assert (Hwp : Cache.write_policy c' = Cache.write_policy c)
      by (unfold geometry in Hg; inversion Hg; congruence).
    apply (request_all_clean true c a c' hit);
      [|apply IH; congruence|exact Hstep].
    simpl. apply Z.eqb_neq. congruence.
Qed.

Lemma write_through_never_dirty_witness :
  exists c,
    reachable c /\ Cache.write_policy c = Cache.WritePolicy.WT /\
    Cache.total_requests c = 3 /\ all_clean c.
Proof.
  replayed 16 4 Cache.WritePolicy.WT Cache.PlacementType.Two_Way
           [("write", 0); ("write", 0); ("store", 64)] Hc.
  eexists. split; [exact Hc|]. split; [reflexivity|]. split; [reflexivity|].
  apply (write_through_never_dirty _ Hc). discriminate.
Defined.

(** A read of a clean cache sends nothing to memory. *)
Lemma request_read_clean c address :
  all_clean c ->
  Cache.bytes_to_memory (request false c address).1
    = Cache.bytes_to_memory c.
Proof.
  intros Hclean. unfold request, evict_bytes. cbv zeta.
  destruct (py_index _ _) as [si|]; [|reflexivity].
  destruct (Cache.sets c !! si) as [s|] eqn:Hs; [|reflexivity].
  destruct (Cache.scan_hit _ _ _); [simpl; lia|].
  destruct (Set_.lines s !! _) as [victim|] eqn:Hv; [|reflexivity].
  simpl. rewrite (Hclean _ _ _ _ Hs Hv), andb_false_r. lia.
Qed.

Lemma replay_read_only operations : forall c c',
  Forall (fun op => is_write_op op.1 = false) operations ->
  all_clean c ->
  replay c operations = (c', Ok tt) ->
  all_clean c' /\ Cache.bytes_to_memory c' = Cache.bytes_to_memory c.
Proof.
  induction operations as [|op rest IH]; intros c c' Hops Hclean H.
  - simpl in H. inversion H; subst. auto.
  - apply replay_cons in H as (c1 & Hop & Hrest).
    inversion Hops as [|? ? Hop0 Hrest0]; subst.
    assert (Hstep : all_clean c1 /\
                    Cache.bytes_to_memory c1 = Cache.bytes_to_memory c).
    { destruct (replay_op_Ok _ _ _ Hop)
        as [[_ [hit Hr]]|[[Hw _]|[_ ->]]]; [|congruence|auto].
      rewrite read_unfold in Hr.
      pose proof (request_read_clean c op.2 Hclean) as Hm.
      rewrite Hr in Hm. split; [|exact Hm].
      apply (request_all_clean false c op.2 c1 hit);
        [reflexivity|exact Hclean|exact Hr]. }
    destruct Hstep as [Hclean1 Hm1].
    destruct (IH c1 c' Hrest0 Hclean1 Hrest) as [Hclean' Hm'].
    split; [exact Hclean'|congruence].
Qed.

(** X9 (a trace without writes).  Whatever the write policy, replaying a
    trace that holds no write operation sends nothing to memory and leaves
    every block clean. *)
Theorem read_only_no_memory_traffic
        (cache_size block_size write_policy placement_type : Z)
        (c c' : Cache.t) (operations : list (string * Z)) :
  Cache.init cache_size block_size write_policy placement_type = Ok c ->
  Forall (fun op => is_write_op op.1 = false) operations ->
  replay c operations = (c', Ok tt) ->
  Cache.bytes_to_memory c' = 0 /\ all_clean c'.
Proof.
  intros Hinit Hops Hreplay.
  destruct (replay_read_only _ _ _ Hops (init_all_clean _ _ _ _ _ Hinit)
              Hreplay) as [Hclean Hm].
  destruct (init_Ok _ _ _ _ _ Hinit)
    as (_ & _ & _ & _ & _ & _ & _ & _ & _ & _ & _ & _ & _ & _ & _ & H0 & _).
  split; [congruence|exact Hclean].
Qed.

Lemma read_only_no_memory_traffic_witness :
  exists c c',
    Cache.init 8 4 Cache.WritePolicy.WB Cache.PlacementType.Direct_Mapped
      = Ok c /\
    replay c [("read", 0); ("load", 8); ("nop", 3); ("read", 0)]
      = (c', Ok tt) /\
    Cache.bytes_to_cache c' = 12 /\
    Cache.bytes_to_memory c' = 0.
Proof.
  destruct (Cache.init 8 4 Cache.WritePolicy.WB
                       Cache.PlacementType.Direct_Mapped) as [c|] eqn:Hinit;
    [|vm_compute in Hinit; discriminate].
  destruct (replay c [("read", 0); ("load", 8); ("nop", 3); ("read", 0)])
    as [c' [[]|]] eqn:Hreplay;
    [|vm_compute in Hinit; inversion Hinit; subst c;
      vm_compute in Hreplay; discriminate].
  exists c, c'. split; [reflexivity|]. split; [exact Hreplay|].
  split.
  - vm_compute in Hinit. inversion Hinit; subst c.
    vm_compute in Hreplay. inversion Hreplay; subst c'. reflexivity.
  - refine (proj1 (read_only_no_memory_traffic _ _ _ _ _ _ _ Hinit _
                     Hreplay)).
    repeat constructor.
Defined.

(** Under write-back a request sends to memory nothing, or one block on a
    miss. *)
Lemma request_write_back_traffic w c address c' hit :
  Cache.write_policy c = Cache.WritePolicy.WB ->
  request w c address = (c', Ok hit) ->
  Cache.bytes_to_memory c' = Cache.bytes_to_memory c \/
  (hit = false /\
   Cache.bytes_to_memory c' = Cache.bytes_to_memory c + Cache.block_size c).
Proof.
  intros Hwb. unfold request, evict_bytes, through_bytes. cbv zeta.
  rewrite Hwb. simpl.
  destruct (py_index _ _) as [si|]; [|discriminate].
  destruct (Cache.sets c !! si) as [s|]; [|discriminate].
  destruct (Cache.scan_hit _ _ _).
  - intros H. inversion H; subst. simpl. left. destruct w; lia.
  - destruct (Set_.lines s !! _) as [victim|]; [|discriminate].
    intros H. inversion H; subst. simpl.
    destruct (Block.valid victim && Block.dirty victim);
      [right|left]; destruct w; split || idtac; lia || reflexivity.
Qed.

Lemma request_write_back_step w c address c' hit :
  request w c address = (c', Ok hit) ->
  (0 < Cache.block_size c ->
   Cache.write_policy c = Cache.WritePolicy.WB ->
   0 <= Cache.bytes_to_memory c <= Cache.bytes_to_cache c /\
   (Cache.block_size c | Cache.bytes_to_memory c)) ->
  0 < Cache.block_size c' ->
  Cache.write_policy c' = Cache.WritePolicy.WB ->
  0 <= Cache.bytes_to_memory c' <= Cache.bytes_to_cache c' /\
  (Cache.block_size c' | Cache.bytes_to_memory c').
Proof.
  intros Hstep IH Hbs' Hwb'.
  pose proof (request_geometry w c address) as Hg. rewrite Hstep in Hg.
  simpl in Hg. unfold geometry in Hg.
  assert (Hbs : Cache.block_size c' = Cache.block_size c) by congruence.
  assert (Hwp : Cache.write_policy c' = Cache.write_policy c) by congruence.
  rewrite Hbs in *. rewrite Hwp in Hwb'.
  destruct (IH Hbs' Hwb') as [Hle [k Hk]].
  destruct (request_Ok _ _ _ _ _ Hstep) as (_ & Hb & _).
  destruct (request_write_back_traffic _ _ _ _ _ Hwb' Hstep)
    as [Hm|[-> Hm]]; rewrite Hm, Hb.
  - split; [destruct hit; lia|exists k; exact Hk].
  - split; [lia|exists (k + 1); lia].
Qed.

(** X10 (write-back traffic).  In every state of a write-back cache the
    bytes written to memory are a whole number of blocks, and never more
    than the bytes fetched into the cache: every write-back is the eviction
    of a block that a miss had fetched. *)
Theorem write_back_traffic_bound (c : Cache.t) :
  reachable c ->
  Cache.write_policy c = Cache.WritePolicy.WB ->
  0 <= Cache.bytes_to_memory c <= Cache.bytes_to_cache c /\
  (Cache.block_size c | Cache.bytes_to_memory c).
Proof.
  intros Hc.
  destruct (reachable_shifts c Hc) as (_ & _ & _ & Hbs & _).
  revert Hbs.
  induction Hc as [cs bs wp pt c Hinit
                  |c a c' hit Hc IH Hstep|c a c' hit Hc IH Hstep];
    intros Hbs Hwb.
  - destruct (init_Ok _ _ _ _ _ Hinit)
      as (_ & _ & _ & _ & _ & _ & _ & _ & _ & _ & _ & _ & _ & _ & Hb & Hm & _).
    rewrite Hb, Hm. split; [lia|]. apply Z.divide_0_r.
  - rewrite read_unfold in Hstep.
    apply (request_write_back_step false c a c' hit); auto.
  - rewrite write_unfold in Hstep.
    apply (request_write_back_step true c a c' hit); auto.
Qed.

Lemma write_back_traffic_bound_witness :
  exists c,
    reachable c /\ Cache.write_policy c = Cache.WritePolicy.WB /\
    Cache.bytes_to_memory c = 8 /\ Cache.bytes_to_cache c = 12.
Proof.
  replayed 8 4 Cache.WritePolicy.WB Cache.PlacementType.Direct_Mapped
           [("write", 0); ("write", 8); ("write", 16)] Hc.
  eexists. split; [exact Hc|]. split; [reflexivity|].
  pose proof (write_back_traffic_bound _ Hc eq_refl) as Hbound.
  split; reflexivity.
Defined.

(** ** Address decoding and the shape of the cache *)

Lemma get_block_index_range c address :
  0 <= Cache.set_bits c ->
  0 <= Cache.get_block_index c address < 2 ^ Cache.set_bits c.
Proof.
  intros Hsb. unfold Cache.get_block_index.
  assert (0 < 2 ^ Cache.set_bits c) by (apply Z.pow_pos_nonneg; lia).
  destruct (Cache.placement_type c =? _); [lia|].
  rewrite Z.shiftl_1_l.
  replace (2 ^ Cache.set_bits c - 1) with (Z.ones (Cache.set_bits c))
    by (rewrite Z.ones_equiv; lia).
  rewrite Z.land_ones by exact Hsb. apply Z.mod_pos_bound. lia.
Qed.

Lemma reachable_length_sets c :
  reachable c ->
  Z.of_nat (length (Cache.sets c)) = Cache.num_sets c /\
  1 <= Cache.num_sets c.
Proof.
  induction 1 as [cs bs wp pt c Hinit
                 |c a c' hit Hc IH Hstep|c a c' hit Hc IH Hstep].
  - destruct (init_Ok _ _ _ _ _ Hinit)
      as (_ & _ & _ & Hpt & Hw & Hw0 & Hnb & Hns & _ & _ & Hsb & Hsets & _).
    assert (Hpos : 1 <= Cache.num_sets c).
    { destruct (pt =? Cache.PlacementType.Fully_Associative) eqn:Efa;
        [|lia].
      apply Z.eqb_eq in Efa.
      destruct (ways_of_placement_Ok _ _ _ _ Hw) as [[Hne _]|[_ Hfa]];
        [congruence|].
      rewrite Hns, Hnb, <- Hfa, Z_div_same_full by exact Hw0. lia. }
    split; [|exact Hpos]. rewrite Hsets, length_replicate. lia.
  - rewrite read_unfold in Hstep.
    pose proof (request_geometry false c a) as Hg.
    pose proof (request_length_sets false c a) as Hl.
    rewrite Hstep in Hg, Hl. simpl in Hg, Hl. unfold geometry in Hg.
    assert (Cache.num_sets c' = Cache.num_sets c) by congruence.
    rewrite Hl. lia.
  - rewrite write_unfold in Hstep.
    pose proof (request_geometry true c a) as Hg.
    pose proof (request_length_sets true c a) as Hl.
    rewrite Hstep in Hg, Hl. simpl in Hg, Hl. unfold geometry in Hg.
    assert (Cache.num_sets c' = Cache.num_sets c) by congruence.
    rewrite Hl. lia.
Qed.

Lemma reachable_num_ways c :
  reachable c -> 0 < Cache.cache_size c -> 1 <= Cache.num_ways c.
Proof.
  intros Hc Hpos.
  destruct (reachable_geometry c Hc) as (cs & bs & wp & pt & c0 & Hinit & Hg).
  destruct (init_Ok _ _ _ _ _ Hinit)
    as (Hcs & Hbs & _ & _ & Hw & Hw0 & _ & _ & Hbpos & _).
  unfold geometry in Hg.
  assert (Ecs : Cache.cache_size c = cs) by congruence.
  assert (Ew : Cache.num_ways c = Cache.num_ways c0) by congruence.
  rewrite Ew. unfold Cache.ways_of_placement in Hw.
  assert (Hq : 0 <= cs / bs) by (apply Z.div_pos; lia).
  destruct (pt =? Cache.PlacementType.Direct_Mapped);
    [injection Hw as Hw; lia|].
  destruct (pt =? Cache.PlacementType.Two_Way);
    [injection Hw as Hw; lia|].
  destruct (pt =? Cache.PlacementType.Four_Way);
    [injection Hw as Hw; lia|].
  destruct (pt =? Cache.PlacementType.Fully_Associative);
    [injection Hw as Hw; lia|discriminate Hw].
Qed.

(** X2 (shape of the cache).  In every reachable state the cache has
    exactly [num_sets] sets, at least one; each set holds
    [max(num_ways, 0)] ways, which is [num_ways], at least one, whenever
    [cache_size] is positive (the constructor takes a negative
    [cache_size], and with the fully-associative placement [num_ways] is
    then negative and the sets hold no way); and the index decoded from
    any address, negative ones included, is the index of one of the
    sets. *)
Theorem sets_shape (c : Cache.t) :
  reachable c ->
  Z.of_nat (length (Cache.sets c)) = Cache.num_sets c /\
  1 <= Cache.num_sets c /\
  (forall si s, Cache.sets c !! si = Some s ->
                Z.of_nat (length (Set_.lines s))
                = Z.max 0 (Cache.num_ways c)) /\
  (0 < Cache.cache_size c ->
   1 <= Cache.num_ways c /\
   forall si s, Cache.sets c !! si = Some s ->
                Z.of_nat (length (Set_.lines s)) = Cache.num_ways c) /\
  forall address,
    0 <= Cache.get_block_index c address < Cache.num_sets c /\
    exists s,
      Cache.sets c !! Z.to_nat (Cache.get_block_index c address) = Some s.
Proof.
  intros Hc.
  destruct (reachable_length_sets c Hc) as [Hlen Hpos].
  destruct (reachable_invariants c Hc) as ([Hsb Hpow] & [_ Hways] & _).
  split; [exact Hlen|]. split; [exact Hpos|].
  split; [intros si s Hs; rewrite (Hways si s Hs); lia|].
  split.
  - intros Hsize. pose proof (reachable_num_ways c Hc Hsize) as Hw.
    split; [exact Hw|]. intros si s Hs. rewrite (Hways si s Hs). lia.
  - intros address.
    pose proof (get_block_index_range c address Hsb) as Hr.
    split; [lia|]. apply lookup_lt_is_Some_2. lia.
Qed.

Lemma sets_shape_witness :
  exists c,
    reachable c /\ Cache.num_sets c = 4 /\
    Z.of_nat (length (Cache.sets c)) = Cache.num_sets c.
Proof.
  replayed 32 4 Cache.WritePolicy.WB Cache.PlacementType.Two_Way
           [("read", -8); ("write", 12)] Hc.
  eexists. split; [exact Hc|]. split; [reflexivity|].
  exact (proj1 (sets_shape _ Hc)).
Defined.

(** X1 (address decomposition).  When the block size is a power of two,
    the tag, the set index and the block offset are the three fields of
    the address: [tag * 2^tag_shift + index * 2^offset_bits + offset] gives
    the address back, with [0 <= offset < block_size] and
    [0 <= index < 2^set_bits]. *)
Theorem address_decomposition (c : Cache.t) (address : Z) :
  reachable c ->
  Cache.block_size c = 2 ^ Cache.offset_bits c ->
  address =
    Cache.get_tag c address * 2 ^ Cache.tag_shift c
    + Cache.get_block_index c address * 2 ^ Cache.offset_bits c
    + Cache.get_block_offset c address /\
  0 <= Cache.get_block_offset c address < Cache.block_size c /\
  0 <= Cache.get_block_index c address < 2 ^ Cache.set_bits c.
Proof.
  intros Hc Hpow.
  destruct (reachable_shifts c Hc) as (Hob & Hsb & Hts & Hbs & _).
  destruct (reachable_geometry c Hc) as (cs & bs & wp & pt & c0 & Hinit & Hg).
  assert (Hfa : Cache.placement_type c = Cache.PlacementType.Fully_Associative
                -> Cache.set_bits c = 0).
  { destruct (init_Ok _ _ _ _ _ Hinit)
      as (_ & _ & _ & Hpt & _ & _ & _ & _ & _ & _ & Hbits & _).
    unfold geometry in Hg. intros Hplace.
    assert (Hpt0 : pt = Cache.PlacementType.Fully_Associative) by congruence.
    rewrite Hpt0 in Hbits. simpl in Hbits. congruence. }
  assert (Hoff : Cache.get_block_offset c address
                 = address mod 2 ^ Cache.offset_bits c).
  { unfold Cache.get_block_offset. rewrite Hpow.
    replace (2 ^ Cache.offset_bits c - 1) with (Z.ones (Cache.offset_bits c))
      by (rewrite Z.ones_equiv; lia).
    now apply Z.land_ones. }
  assert (Hp1 : 0 < 2 ^ Cache.offset_bits c) by (apply Z.pow_pos_nonneg; lia).
  assert (Hp2 : 0 < 2 ^ Cache.set_bits c) by (apply Z.pow_pos_nonneg; lia).
  split; [|split].
  - rewrite Hoff. unfold Cache.get_tag, Cache.get_block_index.
    rewrite Hts, Z.pow_add_r by lia.
    rewrite <- Z.shiftr_shiftr by exact Hsb.
    rewrite !Z.shiftr_div_pow2 by lia.
    set (q := address / 2 ^ Cache.offset_bits c).
    assert (Hq : address = 2 ^ Cache.offset_bits c * q
                           + address mod 2 ^ Cache.offset_bits c)
      by (apply Z.div_mod; lia).
    destruct (Cache.placement_type c =? Cache.PlacementType.Fully_Associative)
      eqn:Efa.
    + apply Z.eqb_eq in Efa. rewrite (Hfa Efa) in *.
      rewrite Z.pow_0_r, Z.div_1_r. lia.
    + rewrite Z.shiftl_1_l.
      replace (2 ^ Cache.set_bits c - 1) with (Z.ones (Cache.set_bits c))
        by (rewrite Z.ones_equiv; lia).
      rewrite Z.land_ones by exact Hsb.
      pose proof (Z.div_mod q (2 ^ Cache.set_bits c)) as Hq2. nia.
  - rewrite Hoff, Hpow. apply Z.mod_pos_bound. lia.
  - now apply get_block_index_range.
Qed.

Lemma address_decomposition_witness :
  exists c,
    reachable c /\
    Cache.get_tag c 4660 = 72 /\ Cache.get_block_index c 4660 = 6 /\
    Cache.get_block_offset c 4660 = 4 /\
    4660 = 72 * 2 ^ 6 + 6 * 2 ^ 3 + 4.
Proof.
  replayed 64 8 Cache.WritePolicy.WB Cache.PlacementType.Direct_Mapped
           [("read", 4660)] Hc.
  eexists. split; [exact Hc|].
  split; [reflexivity|]. split; [reflexivity|]. split; [reflexivity|].
  exact (proj1 (address_decomposition _ 4660 Hc eq_refl)).
Defined.

(** ** Construction: the other failures, and success *)

(** X11 (a cache smaller than one block).  When [0 < cache_size <
    block_size] construction fails with an exception that is not the
    configuration error: [ZeroDivisionError] for the fully-associative
    placement (zero ways); for the three others [TypeError] when
    [block_size] is [2^64] or more (its logarithm comes first and
    [np.log2] does not take it), and [OverflowError] otherwise (the
    logarithm of zero sets).  The sweep catches [RuntimeError] only, so a
    sweep that meets such a configuration stops with that exception and no
    record is produced, whatever it had collected. *)
Theorem init_smaller_than_block
        (cache_size block_size write_policy placement_type : Z) :
  0 < cache_size < block_size ->
  0 <= placement_type <= 3 ->
  Cache.init cache_size block_size write_policy placement_type
    = Raise (if placement_type =? Cache.PlacementType.Fully_Associative
             then ZeroDivisionError
             else if 2 ^ 64 <=? block_size then TypeError
             else OverflowError) /\
  forall rest operations results,
    sweep ((cache_size, block_size, placement_type, write_policy) :: rest)
          operations results
    = Raise (if placement_type =? Cache.PlacementType.Fully_Associative
             then ZeroDivisionError
             else if 2 ^ 64 <=? block_size then TypeError
             else OverflowError).
Proof.
  intros Hsize Hpt.
  assert (Hinit :
            Cache.init cache_size block_size write_policy placement_type
            = Raise (if placement_type =? Cache.PlacementType.Fully_Associative
                     then ZeroDivisionError
                     else if 2 ^ 64 <=? block_size then TypeError
                     else OverflowError)).
  { unfold Cache.init.
    rewrite (proj2 (Z.eqb_neq block_size 0)) by lia.
    rewrite (proj2 (Z.eqb_neq cache_size 0)) by lia.
    assert (Hdiv : cache_size / block_size = 0)
      by (apply Z.div_small; lia).
    assert (Hlog : int_log2 block_size
                   = if 2 ^ 64 <=? block_size then Raise TypeError
                     else Ok (Z.log2 block_size)).
    { destruct (Z.leb_spec (2 ^ 64) block_size) as [Hbig|Hsmall].
      - unfold int_log2. now rewrite (proj2 (Z.leb_le _ _) Hbig).
      - apply int_log2_pos. lia. }
    rewrite Hlog. unfold Cache.ways_of_placement, py_floordiv. rewrite Hdiv.
    unfold Cache.PlacementType.Direct_Mapped, Cache.PlacementType.Two_Way,
      Cache.PlacementType.Four_Way, Cache.PlacementType.Fully_Associative.
    assert (Hcases : placement_type = 0 \/ placement_type = 1 \/
                     placement_type = 2 \/ placement_type = 3) by lia.
    destruct Hcases as [-> | [-> | [-> | ->]]];
      destruct (2 ^ 64 <=? block_size); reflexivity. }
  split; [exact Hinit|].
  intros rest operations results. cbn [sweep]. rewrite Hinit.
  destruct (placement_type =? _); [reflexivity|].
  destruct (2 ^ 64 <=? block_size); reflexivity.
Qed.

Lemma init_smaller_than_block_witness :
  Cache.init 2 4 Cache.WritePolicy.WB Cache.PlacementType.Fully_Associative
    = Raise ZeroDivisionError /\
  Cache.init 2 4 Cache.WritePolicy.WB Cache.PlacementType.Direct_Mapped
    = Raise OverflowError /\
  Cache.init 2 (2 ^ 64) Cache.WritePolicy.WB Cache.PlacementType.Two_Way
    = Raise TypeError.
Proof.
  split; [|split].
  - apply (proj1 (init_smaller_than_block
                    2 4 Cache.WritePolicy.WB
                    Cache.PlacementType.Fully_Associative
                    ltac:(lia) ltac:(vm_compute; split; discriminate))).
  - apply (proj1 (init_smaller_than_block
                    2 4 Cache.WritePolicy.WB
                    Cache.PlacementType.Direct_Mapped
                    ltac:(lia) ltac:(vm_compute; split; discriminate))).
  - apply (proj1 (init_smaller_than_block
                    2 (2 ^ 64) Cache.WritePolicy.WB
                    Cache.PlacementType.Two_Way
                    ltac:(lia) ltac:(vm_compute; split; discriminate))).
Defined.

Lemma int_log2_Ok_iff x : (exists v, int_log2 x = Ok v) <-> 0 < x < 2 ^ 64.
Proof.
  split.
  - intros [v Hv]. now apply int_log2_Ok in Hv.
  - intros Hx. rewrite int_log2_pos by exact Hx. eauto.
Qed.

Lemma init_Ok_iff
      (cache_size block_size write_policy placement_type : Z) :
  0 < cache_size -> 0 < block_size -> 0 <= placement_type <= 3 ->
  (exists c,
     Cache.init cache_size block_size write_policy placement_type = Ok c)
  <->
  (if placement_type =? Cache.PlacementType.Fully_Associative
   then block_size
   else 2 ^ placement_type * block_size) <= cache_size /\
  block_size < 2 ^ 64 /\
  (placement_type = Cache.PlacementType.Fully_Associative \/
   cache_size / block_size / 2 ^ placement_type < 2 ^ 64).
Proof.
  intros Hcs Hbs Hpt.
  assert (Hcases : placement_type = 0 \/ placement_type = 1 \/
                   placement_type = 2 \/ placement_type = 3) by lia.
  unfold Cache.init.
  rewrite (proj2 (Z.eqb_neq block_size 0)) by lia.
  rewrite (proj2 (Z.eqb_neq cache_size 0)) by lia.
  unfold Cache.ways_of_placement, py_floordiv.
  unfold Cache.PlacementType.Direct_Mapped, Cache.PlacementType.Two_Way,
    Cache.PlacementType.Four_Way, Cache.PlacementType.Fully_Associative.
  assert (Hq : 0 <= cache_size / block_size) by (apply Z.div_pos; lia).
  assert (Hfa : cache_size / block_size = 0 <-> cache_size < block_size).
  { split; [|intros; apply Z.div_small; lia].
    intros H0. pose proof (Z.div_mod cache_size block_size).
    pose proof (Z.mod_pos_bound cache_size block_size). nia. }
  assert (Hsets : forall w, 0 < w ->
             (cache_size / block_size / w = 0
              <-> cache_size < w * block_size)).
  { intros w Hw. rewrite Z.div_div by lia.
    split; [|intros; apply Z.div_small; lia].
    intros H0. pose proof (Z.div_mod cache_size (block_size * w)).
    pose proof (Z.mod_pos_bound cache_size (block_size * w)). nia. }
  assert (Hnn : forall w, 0 < w -> 0 <= cache_size / block_size / w)
    by (intros; apply Z.div_pos; lia).
  pose proof (int_log2_Ok_iff block_size) as Hlb.
  assert (Hassoc : forall w,
             0 < w ->
             (exists c,
                match int_log2 block_size with
                | Raise e => Raise e
                | Ok offset_bits =>
                  match int_log2 (cache_size / block_size / w) with
                  | Raise e => Raise e
                  | Ok set_bits =>
                    Ok {| Cache.cache_size := cache_size;
                          Cache.block_size := block_size;
                          Cache.placement_type := placement_type;
                          Cache.write_policy := write_policy;
                          Cache.num_ways := w;
                          Cache.num_blocks := cache_size / block_size;
                          Cache.num_sets := cache_size / block_size / w;
                          Cache.offset_bits := offset_bits;
                          Cache.set_bits := set_bits;
                          Cache.tag_shift := offset_bits + set_bits;
                          Cache.sets :=
                            replicate
                              (Z.to_nat (cache_size / block_size / w))
                              (Set_.init w block_size);
                          Cache.total_requests := 0;
                          Cache.total_hits := 0;
                          Cache.bytes_to_cache := 0;
                          Cache.bytes_to_memory := 0;
                          Cache.access_count := 0 |}
                  end
                end = Ok c)
             <-> w * block_size <= cache_size /\ block_size < 2 ^ 64 /\
                 cache_size / block_size / w < 2 ^ 64).
  { intros w Hw. pose proof (Hsets w Hw) as Hs. pose proof (Hnn w Hw) as Hn.
    pose proof (int_log2_Ok_iff (cache_size / block_size / w)) as Hls.
    destruct (int_log2 block_size) as [ob|e] eqn:Eb.
    - destruct (int_log2 (cache_size / block_size / w)) as [sb|e] eqn:Es.
      + split; [intros _|eauto].
        assert (0 < block_size < 2 ^ 64) by (apply Hlb; eauto).
        assert (0 < cache_size / block_size / w < 2 ^ 64)
          by (apply Hls; eauto).
        lia.
      + split; [intros [c Hc]; discriminate|].
        intros (Hroom & _ & Hsmall).
        destruct (proj2 Hls) as [v Hv]; [lia|discriminate].
    - split; [intros [c Hc]; discriminate|].
      intros (_ & Hsmall & _).
      destruct (proj2 Hlb) as [v Hv]; [lia|discriminate]. }
  destruct Hcases as [-> | [-> | [-> | ->]]]; cbn [Z.eqb Pos.eqb];
    cbv beta iota.
  - rewrite (Hassoc 1) by lia. change (2 ^ 0) with 1. intuition lia.
  - rewrite (Hassoc 2) by lia. change (2 ^ 1) with 2. intuition lia.
  - rewrite (Hassoc 4) by lia. change (2 ^ 2) with 4. intuition lia.
  - destruct (cache_size / block_size =? 0) eqn:E0;
      [apply Z.eqb_eq in E0|apply Z.eqb_neq in E0].
    + split; [intros [c Hc]; discriminate|lia].
    + destruct (int_log2 block_size) as [ob|e] eqn:Eb.
      * assert (0 < block_size < 2 ^ 64) by (apply Hlb; eauto).
        split; [intros _; repeat split; [lia|lia|now left]|eauto].
      * split; [intros [c Hc]; discriminate|].
        intros (_ & Hsmall & _).
        destruct (proj2 Hlb) as [v Hv]; [lia|discriminate].
Qed.



(** ** The sweep *)

Lemma replay_geometry operations : forall c c' o,
  replay c operations = (c', o) -> geometry c' = geometry c.
Proof.
  induction operations as [|[op_type address] rest IH]; intros c c' o H.
  - simpl in H. now inversion H.
  - cbn [replay] in H.
    assert (Hop : geometry (replay_op c (op_type, address)).1 = geometry c).
    { unfold replay_op. destruct (is_read_op op_type).
      - pose proof (request_geometry false c address) as Hg.
        rewrite <- read_unfold in Hg.
        destruct (Cache.read c address) as [c1 [hit|e]]; exact Hg.
      - destruct (is_write_op op_type); [|reflexivity].
        pose proof (request_geometry true c address) as Hg.
        rewrite <- write_unfold in Hg.
        destruct (Cache.write c address) as [c1 [hit|e]]; exact Hg. }
    destruct (replay_op c (op_type, address)) as [c1 [[]|e]].
    + rewrite (IH _ _ _ H). exact Hop.
    + inversion H; subst. exact Hop.
Qed.

Lemma count_requests_cons op rest :
  count_requests (op :: rest) =
  (if is_read_op op.1 || is_write_op op.1 then 1 else 0)
  + count_requests rest.
Proof.
  unfold count_requests. rewrite filter_cons.
  destruct (is_read_op op.1 || is_write_op op.1); case_decide;
    try congruence; simpl length; lia.
Qed.

Lemma replay_total_requests operations : forall c c',
  replay c operations = (c', Ok tt) ->
  Cache.total_requests c' = Cache.total_requests c + count_requests operations.
Proof.
  induction operations as [|[op_type address] rest IH]; intros c c' H.
  - simpl in H. inversion H; subst. unfold count_requests. simpl. lia.
  - apply replay_cons in H as (c1 & Hop & Hrest).
    rewrite count_requests_cons, (IH _ _ Hrest). simpl fst.
    unfold replay_op in Hop. destruct (is_read_op op_type).
    + pose proof (request_total_requests false c address) as Ht.
      rewrite <- read_unfold in Ht.
      destruct (Cache.read c address) as [c2 [hit|e]]; inversion Hop; subst.
      simpl in *. lia.
    + destruct (is_write_op op_type).
      * pose proof (request_total_requests true c address) as Ht.
        rewrite <- write_unfold in Ht.
        destruct (Cache.write c address) as [c2 [hit|e]]; inversion Hop; subst.
        simpl in *. lia.
      * inversion Hop; subst. simpl. lia.
Qed.

Lemma get_hit_rate_Ok c :
  reachable c -> exists rate, Cache.get_hit_rate c = Ok rate.
Proof.
  intros (_ & _ & _ & _ & _ & Hh)%reachable_invariants.
  unfold Cache.get_hit_rate.
  destruct (Z.eqb_spec (Cache.total_requests c) 0) as [Hr|Hr]; [eauto|].
  destruct (py_truediv_unit (Cache.total_hits c) (Cache.total_requests c))
    as (rate & Hrate & _); [lia..|].
  eauto.
Qed.

Lemma get_result_str_Ok c :
  reachable c ->
  exists r,
    get_result_str c = Ok r /\
    r_cache_size r = Cache.cache_size c /\
    r_block_size r = Cache.block_size c /\
    r_num_ways r = Cache.num_ways c /\
    r_total_requests r = Cache.total_requests c /\
    r_total_hits r = Cache.total_hits c /\
    r_bytes_to_cache r = Cache.bytes_to_cache c /\
    r_bytes_to_memory r = Cache.bytes_to_memory c /\
    Cache.get_hit_rate c = Ok (r_hit_rate r).
Proof.
  intros Hc. unfold get_result_str.
  destruct (get_hit_rate_Ok c Hc) as [q Hq]. rewrite Hq. eexists.
  split; [reflexivity|]. simpl. repeat split; reflexivity.
Qed.

(** On configurations that hold at least one set the sweep neither skips
    nor stops: it appends one record per configuration, in order, each the
    record of that configuration's cache after the replay. *)
Lemma sweep_records (P : config -> result_record -> Prop) operations :
  (forall cs bs pt wp c c' r,
     Cache.init cs bs wp pt = Ok c ->
     replay c operations = (c', Ok tt) ->
     get_result_str c' = Ok r ->
     P (cs, bs, pt, wp) r) ->
  forall configs,
    Forall good_config configs ->
    forall results,
      exists more,
        sweep configs operations results = Ok (results ++ more) /\
        Forall2 P configs more.
Proof.
  intros HP. induction configs as [|[[[cs bs] pt] wp] rest IH];
    intros Hgood results.
  - exists []. simpl. rewrite app_nil_r. split; [reflexivity|constructor].
  - inversion Hgood as [|? ? Hcfg Hrest]; subst.
    destruct Hcfg as (Hcs & Hbs & Hpt & Hroom).
    destruct (proj2 (init_Ok_iff cs bs wp pt (proj1 Hcs) Hbs Hpt))
      as [c Hinit].
    { split; [exact Hroom|].
      assert (Hb : bs <= cs).
      { destruct (pt =? Cache.PlacementType.Fully_Associative); [lia|].
        assert (0 < 2 ^ pt) by (apply Z.pow_pos_nonneg; lia). nia. }
      split; [lia|]. right.
      assert (0 < 2 ^ pt) by (apply Z.pow_pos_nonneg; lia).
      assert (cs / bs <= cs) by (apply Z.div_le_upper_bound; nia).
      assert (cs / bs / 2 ^ pt <= cs / bs).
      { apply Z.div_le_upper_bound; [lia|].
        assert (0 <= cs / bs) by (apply Z.div_pos; lia). nia. }
      lia. }
    destruct (init_Ok _ _ _ _ _ Hinit) as (Hsize & _).
    destruct (replay_returns operations c (reach_init _ _ _ _ _ Hinit))
      as [c' Hreplay]; [lia|].
    pose proof (replay_reachable _ _ _ (reach_init _ _ _ _ _ Hinit) Hreplay)
      as Hc'.
    destruct (get_result_str_Ok c' Hc') as (r & Hr & _).
    destruct (IH Hrest (results ++ [r])) as (more & Hsweep & Hmore).
    exists (r :: more). cbn [sweep]. rewrite Hinit, Hreplay, Hr, Hsweep.
    split; [now rewrite <- app_assoc|].
    constructor; [eapply HP; eauto|exact Hmore].
Qed.

Lemma all_configs_good : Forall good_config all_configs.
Proof. apply (bool_decide_unpack _). vm_compute. exact I. Qed.

(** X13 (one record per configuration).  Whatever the ASCII trace that
    [read_trace_file] reads, the sweep of [simulate_trace] constructs every
    one of its 128 configurations, replays the whole trace on each without
    an exception, and yields 128 records in the order of the four loops:
    the record at each place is the one [get_result_str] gives for the
    cache constructed with that very cache size, block size, placement and
    write policy after the replay.  It carries the sizes and the labels of
    its configuration, counts as requests exactly the operations named
    read/load/write/store, and satisfies
    [bytes_to_cache = (requests - hits) * block_size]. *)
Theorem simulate_trace_records
        (trace_file : option (list string))
        (operations : list (string * Z)) :
  match trace_file with
  | Some lines => Forall (fun line => isascii line = true) lines
  | None => True
  end ->
  read_trace_file trace_file = Ok operations ->
  exists results,
    simulate_trace trace_file = Ok results /\
    length results = 128%nat /\
    Forall2
      (fun (cfg : config) r =>
         let '(cache_size, block_size, placement, write_policy) := cfg in
         exists c c',
           Cache.init cache_size block_size write_policy placement = Ok c /\
           replay c operations = (c', Ok tt) /\
           get_result_str c' = Ok r /\
           r_cache_size r = cache_size /\
           r_block_size r = block_size /\
           Cache.placement_type c' = placement /\
           r_placement r = Cache.get_placement_str c' /\
           r_num_ways r = Cache.num_ways c /\
           Cache.write_policy c' = write_policy /\
           r_write_policy r = Cache.get_write_policy_str c' /\
           r_total_requests r = count_requests operations /\
           0 <= r_total_hits r <= r_total_requests r /\
           r_bytes_to_cache r
             = (r_total_requests r - r_total_hits r) * r_block_size r)
      all_configs results.
Proof.
  intros _ Hread. unfold simulate_trace. rewrite Hread.
  destruct (sweep_records
              (fun (cfg : config) r =>
                 let '(cache_size, block_size, placement, write_policy) :=
                   cfg in
                 exists c c',
                   Cache.init cache_size block_size write_policy placement
                     = Ok c /\
                   replay c operations = (c', Ok tt) /\
                   get_result_str c' = Ok r /\
                   r_cache_size r = cache_size /\
                   r_block_size r = block_size /\
                   Cache.placement_type c' = placement /\
                   r_placement r = Cache.get_placement_str c' /\
                   r_num_ways r = Cache.num_ways c /\
                   Cache.write_policy c' = write_policy /\
                   r_write_policy r = Cache.get_write_policy_str c' /\
                   r_total_requests r = count_requests operations /\
                   0 <= r_total_hits r <= r_total_requests r /\
                   r_bytes_to_cache r
                   = (r_total_requests r - r_total_hits r) * r_block_size r)
              operations) with (configs := all_configs)
                               (results := @nil result_record)
    as (more & Hsweep & Hmore).
  - intros cs bs pt wp c c' r Hinit Hreplay Hr.
    pose proof (replay_reachable _ _ _ (reach_init _ _ _ _ _ Hinit) Hreplay)
      as Hc'.
    destruct (get_result_str_Ok c' Hc')
      as (r' & Hr' & Hcs & Hbs & Hnw & Htr & Hth & Hbc & _).
    assert (r' = r) by congruence. subst r'.
    destruct (init_Ok _ _ _ _ _ Hinit)
      as (Hcs0 & Hbs0 & Hwp0 & Hpt0 & _ & _ & _ & _ & _ & _ & _ & _ & Htr0
          & _).
    pose proof (replay_geometry _ _ _ _ Hreplay) as Hg. unfold geometry in Hg.
    pose proof (replay_total_requests _ _ _ Hreplay) as Hreq.
    destruct (reachable_invariants c' Hc') as (_ & _ & _ & _ & Hacc & Hhits).
    exists c, c'. split; [exact Hinit|]. split; [exact Hreplay|].
    split; [exact Hr|].
    assert (Hrp : r_placement r = Cache.get_placement_str c').
    { unfold get_result_str in Hr.
      destruct (Cache.get_hit_rate c'); inversion Hr; reflexivity. }
    assert (Hrw : r_write_policy r = Cache.get_write_policy_str c').
    { unfold get_result_str in Hr.
      destruct (Cache.get_hit_rate c'); inversion Hr; reflexivity. }
    rewrite Hcs, Hbs, Hnw, Htr, Hth, Hbc.
    repeat split; try assumption; try congruence; try lia.
  - exact all_configs_good.
  - exists more. split; [exact Hsweep|]. split; [|exact Hmore].
    apply Forall2_length in Hmore. rewrite <- Hmore. reflexivity.
Qed.

Lemma simulate_trace_records_witness :
  exists results,
    simulate_trace (Some ["read 0"; "junk"; "STORE 1f"; "move 3"])
      = Ok results /\
    length results = 128%nat.
Proof.
  destruct (simulate_trace_records
              (Some ["read 0"; "junk"; "STORE 1f"; "move 3"])
              [("read", 0); ("STORE", 31); ("move", 3)])
    as (results & Hsim & Hlen & _).
  - repeat constructor.
  - reflexivity.
  - exists results. split; [exact Hsim|exact Hlen].
Defined.

(** X14 (missing trace file).  When the trace file does not exist,
    [simulate_trace] still yields its 128 records, and every one of them
    reports no request, no hit, a hit rate of 0 and no traffic. *)
Theorem simulate_trace_missing_file :
  exists results,
    simulate_trace None = Ok results /\
    length results = 128%nat /\
    Forall
      (fun r =>
         r_total_requests r = 0 /\ r_total_hits r = 0 /\
         r_hit_rate r = inject_Z 0 /\
         r_bytes_to_cache r = 0 /\ r_bytes_to_memory r = 0)
      results.
Proof.
  unfold simulate_trace, read_trace_file.
  destruct (sweep_records
              (fun (_ : config) r =>
                 r_total_requests r = 0 /\ r_total_hits r = 0 /\
                 r_hit_rate r = inject_Z 0 /\
                 r_bytes_to_cache r = 0 /\ r_bytes_to_memory r = 0)
              [])
    with (configs := all_configs) (results := @nil result_record)
    as (more & Hsweep & Hmore).
  - intros cs bs pt wp c c' r Hinit Hreplay Hr.
    simpl in Hreplay. inversion Hreplay; subst c'.
    destruct (get_result_str_Ok c (reach_init _ _ _ _ _ Hinit))
      as (r' & Hr' & _ & _ & _ & Htr & Hth & Hbc & Hbm & Hrate).
    assert (r' = r) by congruence. subst r'.
    destruct (init_Ok _ _ _ _ _ Hinit)
      as (_ & _ & _ & _ & _ & _ & _ & _ & _ & _ & _ & _ & Htr0 & Hth0 & Hbc0
          & Hbm0 & _).
    unfold Cache.get_hit_rate in Hrate. rewrite Htr0 in Hrate.
    simpl in Hrate. repeat split; congruence.
  - exact all_configs_good.
  - exists more. split; [exact Hsweep|]. split.
    + apply Forall2_length in Hmore. rewrite <- Hmore. reflexivity.
    + clear Hsweep. revert Hmore. generalize all_configs.
      induction more as [|r more IH]; intros configs H;
        inversion H; subst; constructor; eauto.
Qed.

(** ** Reading a trace back *)

Lemma read_trace_lines_Ok lines : forall operations,
  (forall line op_type field,
     In line lines -> split (strip line) = [op_type; field] ->
     exists address, int16 field = Ok address) ->
  exists parsed,
    read_trace_lines lines operations = Ok (operations ++ parsed) /\
    Forall2
      (fun line (op : string * Z) =>
         exists field,
           split (strip line) = [op.1; field] /\ int16 field = Ok op.2)
      (filter (fun line => length (split (strip line)) = 2%nat) lines)
      parsed.
Proof.
  induction lines as [|l rest IH]; intros operations Hgood.
  - exists []. simpl. rewrite app_nil_r. split; [reflexivity|constructor].
  - assert (Hrest : forall line op_type field,
               In line rest -> split (strip line) = [op_type; field] ->
               exists address, int16 field = Ok address).
    { intros line op_type field Hin. apply Hgood. now right. }
    cbn [read_trace_lines]. rewrite filter_cons.
    destruct (split (strip l)) as [|f0 [|f1 [|f2 fs]]] eqn:Hsplit;
      simpl length; case_decide; try lia; try (apply IH; exact Hrest).
    destruct (Hgood l f0 f1 (or_introl eq_refl) Hsplit) as [address Ha].
    rewrite Ha.
    destruct (IH (operations ++ [(f0, address)]) Hrest)
      as (parsed & Hread & Hall).
    exists ((f0, address) :: parsed). rewrite Hread, <- app_assoc.
    split; [reflexivity|]. constructor; [|exact Hall].
    exists f1. rewrite Hsplit. auto.
Qed.

(** X15 (a well-formed trace file).  When, in a file of ASCII text,
    every line of two fields has a second field that [int(_, 16)]
    accepts, [read_trace_file] returns without an exception: one operation
    for each line of exactly two fields, in file order, holding the first
    field as it is written and the value of the second; every other line
    leaves no trace. *)
Theorem read_trace_file_well_formed (lines : list string) :
  Forall (fun line => isascii line = true) lines ->
  (forall line op_type field,
     In line lines -> split (strip line) = [op_type; field] ->
     exists address, int16 field = Ok address) ->
  exists operations,
    read_trace_file (Some lines) = Ok operations /\
    Forall2
      (fun line (op : string * Z) =>
         exists field,
           split (strip line) = [op.1; field] /\ int16 field = Ok op.2)
      (filter (fun line => length (split (strip line)) = 2%nat) lines)
      operations.
Proof.
  intros _ Hgood. destruct (read_trace_lines_Ok lines [] Hgood)
    as (parsed & Hread & Hall).
  exists parsed. split; [exact Hread|exact Hall].
Qed.

Lemma read_trace_file_well_formed_witness :
  read_trace_file (Some ["#header"; "read 0x10"; ""; "Store -A_b"; "a b c"])
  = Ok [("read", 16); ("Store", -171)].
Proof.
  destruct (read_trace_file_well_formed
              ["#header"; "read 0x10"; ""; "Store -A_b"; "a b c"])
    as (operations & Hread & _).
  - repeat constructor.
  - intros line op_type field [<-|[<-|[<-|[<-|[<-|[]]]]]] Hsplit;
      vm_compute in Hsplit; inversion Hsplit; subst;
      eexists; vm_compute; reflexivity.
  - rewrite Hread. vm_compute in Hread. inversion Hread. reflexivity.
Defined.

(** ** The lines of generate_trace.py, read back *)

Lemma rev_app_rev_app s1 : forall s2 s3,
  String.rev_app (String.rev_app s1 s2) s3
  = String.rev_app s2 (String.append s1 s3).
Proof.
  induction s1 as [|a s1 IH]; intros s2 s3; simpl; [reflexivity|].
  rewrite IH. reflexivity.
Qed.

Lemma append_cons a s1 s2 :
  String.append (String a s1) s2 = String a (String.append s1 s2).
Proof. reflexivity. Qed.

Lemma append_nil s : String.append "" s = s.
Proof. reflexivity. Qed.

Lemma append_empty_r s : String.append s "" = s.
Proof.
  induction s as [|a s IH]; [reflexivity|]. now rewrite append_cons, IH.
Qed.

Lemma append_assoc s1 s2 s3 :
  String.append s1 (String.append s2 s3)
  = String.append (String.append s1 s2) s3.
Proof.
  induction s1 as [|a s1 IH]; [reflexivity|].
  now rewrite !append_cons, IH.
Qed.

Lemma length_append s1 s2 :
  String.length (String.append s1 s2)
  = (String.length s1 + String.length s2)%nat.
Proof.
  induction s1 as [|a s1 IH]; [reflexivity|].
  rewrite append_cons. simpl. now rewrite IH.
Qed.

Lemma rev_rev s : String.rev (String.rev s) = s.
Proof.
  unfold String.rev. rewrite rev_app_rev_app. simpl. apply append_empty_r.
Qed.

Lemma rev_app_append s1 : forall s2 acc,
  String.rev_app (String.append s1 s2) acc
  = String.rev_app s2 (String.rev_app s1 acc).
Proof.
  induction s1 as [|a s1 IH]; intros; rewrite ?append_cons; simpl; auto.
Qed.

Lemma length_rev_app s : forall acc,
  String.length (String.rev_app s acc)
  = (String.length s + String.length acc)%nat.
Proof.
  induction s as [|a s IH]; intros acc; simpl; [reflexivity|].
  rewrite IH. simpl. lia.
Qed.

Lemma lstrip_no_space s : no_space s = true -> lstrip s = s.
Proof.
  destruct s as [|a s]; simpl; [reflexivity|].
  destruct (py_isspace a); [discriminate|reflexivity].
Qed.

Lemma no_space_rev_app s1 : forall s2,
  no_space s1 = true -> no_space s2 = true ->
  no_space (String.rev_app s1 s2) = true.
Proof.
  induction s1 as [|a s1 IH]; intros s2 H1 H2; simpl in *; [exact H2|].
  apply andb_prop in H1 as [Ha H1]. apply IH; [exact H1|].
  simpl. now rewrite Ha, H2.
Qed.

Lemma no_space_append s1 s2 :
  no_space s1 = true -> no_space s2 = true ->
  no_space (String.append s1 s2) = true.
Proof.
  induction s1 as [|a s1 IH]; intros H1 H2; [exact H2|].
  rewrite append_cons. simpl in *.
  apply andb_prop in H1 as [Ha H1]. now rewrite Ha, IH.
Qed.

Lemma strip_no_space s : no_space s = true -> strip s = s.
Proof.
  intros H. unfold strip. rewrite (lstrip_no_space s H).
  rewrite lstrip_no_space; [apply rev_rev|].
  now apply no_space_rev_app.
Qed.

Lemma lstrip_rev_app s : forall acc,
  s <> "" -> no_space s = true ->
  lstrip (String.rev_app s acc) = String.rev_app s acc.
Proof.
  induction s as [|a s IH]; intros acc Hne H; [congruence|].
  simpl in H. apply andb_prop in H as [Ha H].
  destruct s as [|b s].
  - simpl. now destruct (py_isspace a).
  - change (String.rev_app (String a (String b s)) acc)
      with (String.rev_app (String b s) (String a acc)).
    apply IH; [discriminate|exact H].
Qed.

(** What [strip] leaves of a written line: the new line at its end goes,
    the two fields and the blank between them stay. *)
Lemma strip_line op field :
  op <> "" -> no_space op = true -> field <> "" -> no_space field = true ->
  strip (String.append op
           (String " " (String.append field (String "010" ""))))
  = String.append op (String " " field).
Proof.
  intros Hop Hsp Hfield Hsf. unfold strip.
  assert (Hl : lstrip (String.append op
                         (String " " (String.append field (String "010" ""))))
               = String.append op
                   (String " " (String.append field (String "010" "")))).
  { destruct op as [|a op]; [congruence|]. rewrite append_cons. simpl in *.
    apply andb_prop in Hsp as [Ha _]. now destruct (py_isspace a). }
  rewrite Hl.
  change (String " " (String.append field (String "010" "")))
    with (String.append (String " " field) (String "010" "")).
  rewrite append_assoc. unfold String.rev at 2.
  rewrite rev_app_append.
  change (String.rev_app (String "010" "")
            (String.rev_app (String.append op (String " " field)) ""))
    with (String "010"
            (String.rev_app (String.append op (String " " field)) "")).
  change (lstrip (String "010" ?s)) with (lstrip s).
  rewrite rev_app_append.
  change (String.rev_app (String " " field) (String.rev_app op ""))
    with (String.rev_app field (String " " (String.rev_app op ""))).
  rewrite lstrip_rev_app by assumption.
  change (String.rev_app field (String " " (String.rev_app op "")))
    with (String.rev_app (String " " field) (String.rev_app op "")).
  rewrite <- rev_app_append. apply rev_rev.
Qed.

Lemma split_go_no_space s : forall rest cur,
  no_space s = true ->
  split_go (String.append s rest) cur = split_go rest (String.rev_app s cur).
Proof.
  induction s as [|a s IH]; intros rest cur H; [reflexivity|].
  rewrite append_cons. simpl in *. apply andb_prop in H as [Ha H].
  destruct (py_isspace a); [discriminate|]. now apply IH.
Qed.

Lemma rev_app_nonempty s acc :
  s <> "" -> exists a r, String.rev_app s acc = String a r.
Proof.
  intros Hne. destruct (String.rev_app s acc) as [|a r] eqn:E; [|eauto].
  apply (f_equal String.length) in E. rewrite length_rev_app in E.
  destruct s; [congruence|simpl in E; lia].
Qed.

Lemma split_two_fields op field :
  op <> "" -> no_space op = true -> field <> "" -> no_space field = true ->
  split (String.append op (String " " field)) = [op; field].
Proof.
  intros Hop Hsp Hfield Hsf. unfold split.
  rewrite split_go_no_space by assumption.
  destruct (rev_app_nonempty op "" Hop) as (a & r & E).
  cbn [split_go]. change (py_isspace " ") with true. cbv iota.
  rewrite E, <- E. fold (String.rev op). rewrite rev_rev. f_equal.
  rewrite <- (append_empty_r field) at 1.
  rewrite split_go_no_space by assumption.
  destruct (rev_app_nonempty field "" Hfield) as (a' & r' & E').
  cbn [split_go]. rewrite E', <- E'. fold (String.rev field).
  now rewrite rev_rev.
Qed.

Lemma lower_hex_facts a :
  lower_hex a = true ->
  py_isspace a = false /\ Ascii.eqb a "_" = false /\
  Ascii.eqb a "x" = false /\ Ascii.eqb a "X" = false /\
  Ascii.eqb a "-" = false /\ Ascii.eqb a "+" = false.
Proof.
  destruct a as [[] [] [] [] [] [] [] []]; vm_compute;
    intros H; try discriminate H; repeat split.
Qed.

Lemma lower_hexs_no_space s : lower_hexs s = true -> no_space s = true.
Proof.
  induction s as [|a s IH]; simpl; [reflexivity|].
  intros H. apply andb_prop in H as [Ha H].
  destruct (lower_hex_facts a Ha) as (-> & _). now rewrite IH.
Qed.

Lemma lower_hexs_append s1 s2 :
  lower_hexs s1 = true -> lower_hexs s2 = true ->
  lower_hexs (String.append s1 s2) = true.
Proof.
  induction s1 as [|a s1 IH]; intros H1 H2; [exact H2|].
  rewrite append_cons. simpl in *.
  apply andb_prop in H1 as [Ha H1]. now rewrite Ha, IH.
Qed.

Lemma hex_char_facts d :
  0 <= d < 16 ->
  lower_hex (hex_char d) = true /\ hex_digit (hex_char d) = Some d.
Proof.
  intros H.
  assert (E : d = 0 \/ d = 1 \/ d = 2 \/ d = 3 \/ d = 4 \/ d = 5 \/ d = 6 \/
              d = 7 \/ d = 8 \/ d = 9 \/ d = 10 \/ d = 11 \/ d = 12 \/
              d = 13 \/ d = 14 \/ d = 15) by lia.
  repeat (destruct E as [-> | E]; [split; reflexivity|]).
  subst d. split; reflexivity.
Qed.

Lemma to_hex_go_lower fuel : forall n acc,
  0 <= n -> lower_hexs acc = true ->
  lower_hexs (to_hex_go fuel n acc) = true.
Proof.
  induction fuel as [|fuel IH]; intros n acc Hn Hacc; simpl; [exact Hacc|].
  destruct (Z.ltb_spec n 16) as [Hlt|Hge].
  - simpl. destruct (hex_char_facts n) as [-> _]; [lia|exact Hacc].
  - apply IH; [apply Z.div_pos; lia|].
    simpl. destruct (hex_char_facts (n mod 16)) as [-> _]; [|exact Hacc].
    apply Z.mod_pos_bound. lia.
Qed.

Lemma to_hex_go_length fuel : forall n acc,
  (String.length acc <= String.length (to_hex_go fuel n acc))%nat.
Proof.
  induction fuel as [|fuel IH]; intros n acc; simpl; [lia|].
  destruct (n <? 16); [simpl; lia|].
  etransitivity; [|apply IH]. simpl. lia.
Qed.

Lemma hex_digits_to_hex_go fuel : forall n rest acc after_digit,
  0 <= n < 2 ^ Z.of_nat (S fuel) ->
  exists k,
    0 <= k /\
    hex_digits (to_hex_go (S fuel) n rest) acc after_digit
    = hex_digits rest (acc * 16 ^ k + n) true.
Proof.
  assert (Hone : forall n rest acc after_digit,
             0 <= n < 16 ->
             hex_digits (String (hex_char n) rest) acc after_digit
             = hex_digits rest (acc * 16 ^ 1 + n) true).
  { intros n rest acc after_digit Hn.
    destruct (hex_char_facts n Hn) as [Hl Hd].
    destruct (lower_hex_facts _ Hl) as (_ & Hu & _).
    cbn [hex_digits]. rewrite Hu, Hd. f_equal. lia. }
  induction fuel as [|fuel IH]; intros n rest acc after_digit Hn.
  - exists 1. split; [lia|]. change (2 ^ Z.of_nat 1) with 2 in Hn.
    cbn [to_hex_go]. destruct (Z.ltb_spec n 16); [|lia].
    apply Hone. lia.
  - change (to_hex_go (S (S fuel)) n rest)
      with (if n <? 16 then String (hex_char n) rest
            else to_hex_go (S fuel) (n / 16)
                   (String (hex_char (n mod 16)) rest)).
    destruct (Z.ltb_spec n 16) as [Hlt|Hge].
    + exists 1. split; [lia|]. apply Hone. lia.
    + assert (Hq : 0 <= n / 16 < 2 ^ Z.of_nat (S fuel)).
      { split; [apply Z.div_pos; lia|].
        apply Z.div_lt_upper_bound; [lia|].
        rewrite (Nat2Z.inj_succ (S fuel)), Z.pow_succ_r in Hn by lia. lia. }
      destruct (IH (n / 16) (String (hex_char (n mod 16)) rest) acc
                  after_digit Hq) as (k & Hk & E).
      exists (k + 1). split; [lia|]. rewrite E.
      rewrite Hone by (apply Z.mod_pos_bound; lia). f_equal.
      rewrite Z.pow_add_r by lia.
      pose proof (Z.div_mod n 16 ltac:(lia)). lia.
Qed.

Lemma to_hex_fuel n : 0 <= n -> n < 2 ^ Z.of_nat (S (Z.to_nat (Z.log2 n))).
Proof.
  intros Hn. rewrite Nat2Z.inj_succ, Z2Nat.id by apply Z.log2_nonneg.
  destruct (Z.eq_dec n 0) as [->|Hne]; [reflexivity|].
  apply Z.log2_spec. lia.
Qed.

Lemma hex_digits_to_hex n after_digit :
  0 <= n -> hex_digits (to_hex n) 0 after_digit = Some n.
Proof.
  intros Hn. unfold to_hex.
  destruct (hex_digits_to_hex_go (Z.to_nat (Z.log2 n)) n "" 0 after_digit)
    as (k & _ & ->); [split; [exact Hn|now apply to_hex_fuel]|].
  reflexivity.
Qed.

Lemma hex_digits_zeros k : forall s after_digit,
  exists after_digit',
    hex_digits (String.append (zeros k) s) 0 after_digit
    = hex_digits s 0 after_digit'.
Proof.
  induction k as [|k IH]; intros s after_digit; [simpl; eauto|].
  cbn [zeros]. rewrite append_cons. simpl. apply IH.
Qed.

Lemma lower_hexs_zeros k : lower_hexs (zeros k) = true.
Proof. induction k as [|k IH]; simpl; [reflexivity|exact IH]. Qed.

(** The digits [format_08x] writes after the sign. *)
Lemma padded_digits n k :
  0 <= n ->
  let s := String.append (zeros k) (to_hex n) in
  lower_hexs s = true /\ s <> "" /\ hex_digits s 0 false = Some n.
Proof.
  intros Hn s. subst s. split; [|split].
  - apply lower_hexs_append; [apply lower_hexs_zeros|].
    unfold to_hex. now apply to_hex_go_lower.
  - intros E. apply (f_equal String.length) in E.
    rewrite length_append in E. unfold to_hex in E.
    cbn [to_hex_go] in E. destruct (n <? 16); [simpl in E; lia|].
    pose proof (to_hex_go_length (Z.to_nat (Z.log2 n)) (n / 16)
                  (String (hex_char (n mod 16)) "")) as Hl.
    simpl in E, Hl. lia.
  - destruct (hex_digits_zeros k (to_hex n) false) as [b ->].
    now apply hex_digits_to_hex.
Qed.

(** The prefix test of [int(_, 16)] leaves a string of digits alone. *)
Lemma int16_no_prefix s :
  lower_hexs s = true ->
  match s with
  | String "0"%char (String x rest) =>
    if Ascii.eqb x "x"%char || Ascii.eqb x "X"%char
    then match rest with
         | String "_"%char rest' => rest'
         | _ => rest
         end
    else s
  | _ => s
  end = s.
Proof.
  intros H. destruct s as [|a [|x rest]].
  - reflexivity.
  - destruct a as [[] [] [] [] [] [] [] []]; reflexivity.
  - simpl in H. apply andb_prop in H as [_ H]. apply andb_prop in H as [Hx _].
    destruct (lower_hex_facts x Hx) as (_ & _ & -> & -> & _).
    destruct a as [[] [] [] [] [] [] [] []]; reflexivity.
Qed.

Lemma int16_digits s :
  lower_hexs s = true -> s <> "" ->
  int16 s = match hex_digits s 0 false with
            | Some v => Ok v
            | None => Raise ValueError
            end.
Proof.
  intros H Hne. unfold int16.
  rewrite (strip_no_space s) by now apply lower_hexs_no_space.
  assert (Hsign : match s with
                  | String "-"%char rest => (true, rest)
                  | String "+"%char rest => (false, rest)
                  | _ => (false, s)
                  end = (false, s)).
  { destruct s as [|a rest]; [reflexivity|]. simpl in H.
    apply andb_prop in H as [Ha _].
    destruct a as [[] [] [] [] [] [] [] []];
      first [reflexivity | vm_compute in Ha; discriminate Ha]. }
  cbv zeta. rewrite Hsign. rewrite (int16_no_prefix s H). reflexivity.
Qed.

Lemma int16_minus_digits s :
  lower_hexs s = true ->
  int16 (String "-" s) = match hex_digits s 0 false with
                         | Some v => Ok (- v)
                         | None => Raise ValueError
                         end.
Proof.
  intros H. unfold int16.
  rewrite (strip_no_space (String "-" s))
    by (simpl; now rewrite lower_hexs_no_space).
  cbv zeta. cbv iota beta. rewrite (int16_no_prefix s H). reflexivity.
Qed.

Lemma format_08x_shape n :
  format_08x n <> "" /\ no_space (format_08x n) = true.
Proof.
  unfold format_08x. cbv zeta. destruct (n <? 0).
  - split; [discriminate|]. simpl.
    apply lower_hexs_no_space. apply padded_digits. lia.
  - change (String.append "" ?s) with s.
    destruct (padded_digits (Z.abs n)
                (8 - String.length "" - String.length (to_hex (Z.abs n))))
      as (Hl & Hne & _); [lia|].
    split; [exact Hne|now apply lower_hexs_no_space].
Qed.

Lemma int16_format n : int16 (format_08x n) = Ok n.
Proof.
  unfold format_08x. cbv zeta. destruct (Z.ltb_spec n 0) as [Hneg|Hpos].
  - change (String.append (String "-" "") ?s) with (String "-" s).
    destruct (padded_digits (Z.abs n)
                (8 - String.length (String "-" "")
                 - String.length (to_hex (Z.abs n))))
      as (Hl & _ & Hd); [lia|].
    rewrite int16_minus_digits by exact Hl. rewrite Hd. f_equal. lia.
  - change (String.append "" ?s) with s.
    destruct (padded_digits (Z.abs n)
                (8 - String.length "" - String.length (to_hex (Z.abs n))))
      as (Hl & Hne & Hd); [lia|].
    rewrite int16_digits by assumption. rewrite Hd. f_equal. lia.
Qed.

(** X16 (the address format of the generators is the one the simulator
    reads).  For every integer [n], [int(f"{n:08x}", 16)] is [n]: the
    zero-padded lower-case digits, with the sign in front for a negative
    [n], never raise [ValueError] and give [n] back. *)
Theorem int16_format_08x (n : Z) : int16 (format_08x n) = Ok n.
Proof. apply int16_format. Qed.

Lemma trace_line_fields op addr :
  op <> "" -> no_space op = true ->
  split (strip (trace_line op addr)) = [op; format_08x addr].
Proof.
  intros Hop Hsp. destruct (format_08x_shape addr) as [Hne Hsf].
  unfold trace_line. rewrite strip_line by assumption.
  now apply split_two_fields.
Qed.

Lemma read_trace_lines_written ops : forall operations,
  Forall (fun op : string * Z => op.1 <> "" /\ no_space op.1 = true) ops ->
  read_trace_lines (map (fun op => trace_line op.1 op.2) ops) operations
  = Ok (operations ++ ops).
Proof.
  induction ops as [|[op addr] ops IH]; intros operations Hall.
  - simpl. now rewrite app_nil_r.
  - inversion Hall as [|? ? [Hop Hsp] Hrest]; subst. simpl in Hop, Hsp.
    cbn [map read_trace_lines fst snd].
    rewrite trace_line_fields by assumption.
    rewrite int16_format. rewrite IH by exact Hrest.
    now rewrite <- app_assoc.
Qed.

(** X17 (written traces read back).  A file holding one line
    [f"{op} {addr:08x}\n"] for each of a list of operations, whose names
    are non-empty ASCII text free of whitespace, is read by
    [read_trace_file] as exactly that list: no line is skipped, no address
    is changed, and the order is kept. *)
Theorem written_trace_reads_back (ops : list (string * Z)) :
  Forall (fun op : string * Z =>
            op.1 <> "" /\ isascii op.1 = true /\ no_space op.1 = true)
         ops ->
  read_trace_file (Some (map (fun op => trace_line op.1 op.2) ops)) = Ok ops.
Proof.
  intros Hall. unfold read_trace_file.
  rewrite read_trace_lines_written; [reflexivity|].
  eapply Forall_impl; [exact Hall|]. intros op (Hne & _ & Hsp). now split.
Qed.

Lemma written_trace_reads_back_witness :
  read_trace_file
    (Some (map (fun op : string * Z => trace_line op.1 op.2)
             [("read", 4660); ("store", -1); ("nop", 4294967296)]))
  = Ok [("read", 4660); ("store", -1); ("nop", 4294967296)].
Proof.
  apply (written_trace_reads_back
           [("read", 4660); ("store", -1); ("nop", 4294967296)]).
  repeat constructor; discriminate.
Defined.

(** ** The generated traces *)

(** X18 (the associativity trace).  Every one of the 400 lines that
    [create_associativity_trace] writes is read by [read_trace_file] as an
    operation that [simulate_trace] replays, 50 of them writes; and on the
    cache the trace is built for (1024 bytes, blocks of 8 bytes, write
    back) the number of hits grows with the associativity: direct mapped
    below two-way below four-way, and the fully-associative cache not
    below the four-way one. *)
Theorem associativity_trace_effect :
  exists operations results,
    read_trace_file (Some create_associativity_trace) = Ok operations /\
    length create_associativity_trace = 400%nat /\
    count_requests operations = 400 /\
    count_writes operations = 50 /\
    sweep ((fun placement => (1024, 8, placement, Cache.WritePolicy.WB))
             <$> placement_types) operations [] = Ok results /\
    exists dm two four fa,
      r_total_hits <$> results = [dm; two; four; fa] /\
      dm < two < four /\ four <= fa.
Proof.
  exists (match read_trace_file (Some create_associativity_trace) with
          | Ok operations => operations
          | Raise _ => []
          end).
  exists (match
            sweep ((fun placement =>
                      (1024, 8, placement, Cache.WritePolicy.WB))
                     <$> placement_types)
              (match read_trace_file (Some create_associativity_trace) with
               | Ok operations => operations
               | Raise _ => []
               end) []
          with
          | Ok results => results
          | Raise _ => []
          end).
  split; [vm_compute; reflexivity|].
  split; [vm_compute; reflexivity|].
  split; [vm_compute; reflexivity|].
  split; [vm_compute; reflexivity|].
  split; [vm_compute; reflexivity|].
  exists 38, 96, 304, 304. split; [vm_compute; reflexivity|lia].
Qed.

(** X19 (the block-size trace).  Every one of the 136 lines that
    [create_block_size_trace] writes is read by [read_trace_file] as an
    operation that [simulate_trace] replays, 30 of them writes; and on
    the direct-mapped write-back cache of 1024 bytes the number of hits
    rises from blocks of 4 bytes through 8 to 32 bytes and falls below
    all three at 256 bytes. *)
Theorem block_size_trace_effect :
  exists operations results,
    read_trace_file (Some create_block_size_trace) = Ok operations /\
    length create_block_size_trace = 136%nat /\
    count_requests operations = 136 /\
    count_writes operations = 30 /\
    sweep ((fun block_size =>
              (1024, block_size, Cache.PlacementType.Direct_Mapped,
               Cache.WritePolicy.WB)) <$> block_sizes) operations []
      = Ok results /\
    exists h4 h8 h32 h256,
      r_total_hits <$> results = [h4; h8; h32; h256] /\
      h256 < h4 < h8 /\ h8 < h32.
Proof.
  exists (match read_trace_file (Some create_block_size_trace) with
          | Ok operations => operations
          | Raise _ => []
          end).
  exists (match
            sweep ((fun block_size =>
                      (1024, block_size, Cache.PlacementType.Direct_Mapped,
                       Cache.WritePolicy.WB)) <$> block_sizes)
              (match read_trace_file (Some create_block_size_trace) with
               | Ok operations => operations
               | Raise _ => []
               end) []
          with
          | Ok results => results
          | Raise _ => []
          end).
  split; [vm_compute; reflexivity|].
  split; [vm_compute; reflexivity|].
  split; [vm_compute; reflexivity|].
  split; [vm_compute; reflexivity|].
  split; [vm_compute; reflexivity|].
  exists 73, 85, 94, 65. split; [vm_compute; reflexivity|lia].
Qed.

(** ** The labels of a record *)

(** X20 (placement label and number of ways).  [get_result_str] of a
    reachable cache returns, and the placement label it prints fixes the
    number of ways printed next to it: 1 for [DM], 2 for [2W], 4 for
    [4W], and [cache_size // block_size] for [FA]; the write-policy label
    is [WB] exactly for a write-back cache and [WT] otherwise. *)
Theorem result_labels (c : Cache.t) :
  reachable c ->
  exists r,
    get_result_str c = Ok r /\
    (r_placement r = "DM" /\ r_num_ways r = 1 \/
     r_placement r = "2W" /\ r_num_ways r = 2 \/
     r_placement r = "4W" /\ r_num_ways r = 4 \/
     r_placement r = "FA" /\
       r_num_ways r = r_cache_size r / r_block_size r) /\
    r_write_policy r
    = (if Cache.write_policy c =? Cache.WritePolicy.WB then "WB" else "WT").
Proof.
  intros Hc.
  destruct (reachable_geometry c Hc) as (cs & bs & wp & pt & c0 & Hinit & Hg).
  destruct (init_Ok _ _ _ _ _ Hinit) as (Hcs & Hbs & _ & Hpt & Hw & _).
  unfold geometry in Hg.
  assert (Ecs : Cache.cache_size c = cs) by congruence.
  assert (Ebs : Cache.block_size c = bs) by congruence.
  assert (Ept : Cache.placement_type c = pt) by congruence.
  assert (Ew : Cache.num_ways c = Cache.num_ways c0) by congruence.
  unfold get_result_str.
  destruct (get_hit_rate_Ok c Hc) as [q ->]. eexists. split; [reflexivity|].
  split; [|reflexivity]. cbn [r_placement r_num_ways r_cache_size r_block_size].
  unfold Cache.get_placement_str. rewrite Ept, Ecs, Ebs, Ew.
  unfold Cache.ways_of_placement in Hw.
  destruct (pt =? Cache.PlacementType.Direct_Mapped);
    [left; split; [reflexivity|congruence]|].
  destruct (pt =? Cache.PlacementType.Two_Way);
    [right; left; split; [reflexivity|congruence]|].
  destruct (pt =? Cache.PlacementType.Four_Way);
    [right; right; left; split; [reflexivity|congruence]|].
  destruct (pt =? Cache.PlacementType.Fully_Associative); [|discriminate Hw].
  right; right; right. split; [reflexivity|congruence].
Qed.

Lemma result_labels_witness :
  exists c r,
    reachable c /\ get_result_str c = Ok r /\
    r_placement r = "FA" /\ r_num_ways r = 4 /\ r_write_policy r = "WT".
Proof.
  destruct (Cache.init 16 4 Cache.WritePolicy.WT
              Cache.PlacementType.Fully_Associative) as [c|e] eqn:Hinit;
    [|vm_compute in Hinit; discriminate Hinit].
  destruct (result_labels c (reach_init _ _ _ _ _ Hinit))
    as (r & Hr & _ & _).
  exists c, r. split; [exact (reach_init _ _ _ _ _ Hinit)|].
  split; [exact Hr|].
  vm_compute in Hinit. inversion Hinit; subst c.
  vm_compute in Hr. inversion Hr; subst r. repeat split.
Defined.

(** ** The logical clock on calls that return *)

(** X21 (the logical clock).  In every reachable state [access_count]
    equals [total_requests]; a call to [read] or [write] that returns
    leaves it exactly one higher, hit or miss alike, so it grows strictly
    from request to request; and on a cache of positive size every call
    returns. *)
Theorem access_count_clock (c : Cache.t) :
  reachable c ->
  Cache.access_count c = Cache.total_requests c /\
  (forall address c' hit,
     Cache.read c address = (c', Ok hit) \/
     Cache.write c address = (c', Ok hit) ->
     Cache.access_count c' = Cache.access_count c + 1 /\
     Cache.access_count c < Cache.access_count c' /\
     Cache.total_requests c' = Cache.total_requests c + 1) /\
  (0 < Cache.cache_size c ->
   forall address,
     (exists c' hit, Cache.read c address = (c', Ok hit)) /\
     (exists c' hit, Cache.write c address = (c', Ok hit))).
Proof.
  intros Hc.
  destruct (reachable_invariants c Hc) as (_ & _ & _ & Hac & _).
  split; [exact Hac|]. split.
  - intros address c' hit Hstep.
    assert (Hreq : exists w, request w c address = (c', Ok hit)).
    { destruct Hstep as [H|H]; [exists false; now rewrite <- read_unfold
                               |exists true; now rewrite <- write_unfold]. }
    destruct Hreq as [w Hreq].
    destruct (request_Ok _ _ _ _ _ Hreq) as (_ & _ & Ha).
    pose proof (request_total_requests w c address) as Htr.
    rewrite Hreq in Htr. simpl in Htr. lia.
  - intros Hpos address.
    split; [now apply read_returns|now apply write_returns].
Qed.

Lemma access_count_clock_witness :
  exists c,
    reachable c /\ Cache.access_count c = 3 /\
    Cache.access_count c = Cache.total_requests c.
Proof.
  replayed 32 4 Cache.WritePolicy.WB Cache.PlacementType.Direct_Mapped
           [("read", 0); ("read", 32); ("write", 0)] Hc.
  eexists. split; [exact Hc|]. split; [reflexivity|].
  exact (proj1 (access_count_clock _ Hc)).
Defined.
